(** * The Ayu arbiter (arbiter.go): a shallow embedding and its properties

    The arbiter referees matches between two external player programs,
    schedules a round-robin tournament and aggregates the results.

    The embedding follows arbiter.go function by function:
    - Go's [int] is a 64-bit integer: a [Z] whose arithmetic wraps where
      the source can overflow;
    - [float64] is Rocq's primitive binary64 [float];
    - the game engine (package ayu, not part of this repository's files)
      is the pair of interfaces [GameState] and [Game], here type classes;
    - the operating system, the player processes, the clock and the
      random generator are oracles that answer from the history of
      events so far; every interaction is recorded in that history;
    - a Go panic, and a loop that never ends, are outcomes of their own. *)

From stdpp Require Import base tactics list numbers strings sorting.
From Stdlib Require Import Floats Uint63 DecimalString DecimalN.

Open Scope Z_scope.

(** ** Go's int *)

Definition maxInt : Z := 2 ^ 63 - 1.
Definition minInt : Z := - 2 ^ 63.

(** Two's complement wrap-around of a 64-bit signed integer. *)
Definition wrap (z : Z) : Z := (z + 2 ^ 63) `mod` 2 ^ 64 - 2 ^ 63.

Definition int_add (a b : Z) : Z := wrap (a + b).
Definition int_mul (a b : Z) : Z := wrap (a * b).

(** float64(i) for an int i. *)
Definition float64_of_int (z : Z) : float :=
  if z =? minInt then Z.ldexp (-1)%float 63
  else if z <? 0 then PrimFloat.opp (PrimFloat.of_uint63 (Uint63.of_Z (- z)))
  else PrimFloat.of_uint63 (Uint63.of_Z z).

(** ** Arrays of length two: [2]T, indexed by a player slot *)

Inductive Slot := S0 | S1.

#[export] Instance Slot_eq_dec : EqDecision Slot.
Proof. solve_decision. Defined.

Definition other (p : Slot) : Slot :=
  match p with S0 => S1 | S1 => S0 end.

Definition int_of_slot (p : Slot) : Z :=
  match p with S0 => 0 | S1 => 1 end.

(** An index into a [2]T; anything but 0 and 1 is out of range. *)
Definition slot_of_int (i : Z) : option Slot :=
  if i =? 0 then Some S0 else if i =? 1 then Some S1 else None.

Definition arr2 (A : Type) : Type := (A * A)%type.

Definition get {A} (p : Slot) (a : arr2 A) : A :=
  match p with S0 => fst a | S1 => snd a end.

Definition set {A} (p : Slot) (x : A) (a : arr2 A) : arr2 A :=
  match p with S0 => (x, snd a) | S1 => (fst a, x) end.

(** ** type Result *)

Record Result := {
  player : arr2 Z;      (* 0-based player indices *)
  score : arr2 Z;       (* final score *)
  failed : arr2 bool;   (* whether player failed *)
  points : arr2 Z;      (* CodeCup-style points *)
  time : arr2 float     (* total time taken *)
}.

(** The zero value of a Result, with the given players. *)
Definition newResult (players : arr2 Z) : Result :=
  {| player := players; score := (0, 0); failed := (false, false);
     points := (0, 0); time := (0%float, 0%float) |}.

Definition set_score (v : arr2 Z) (r : Result) : Result :=
  {| player := player r; score := v; failed := failed r;
     points := points r; time := time r |}.
Definition set_failed (v : arr2 bool) (r : Result) : Result :=
  {| player := player r; score := score r; failed := v;
     points := points r; time := time r |}.
Definition set_points (v : arr2 Z) (r : Result) : Result :=
  {| player := player r; score := score r; failed := failed r;
     points := v; time := time r |}.
Definition set_time (v : arr2 float) (r : Result) : Result :=
  {| player := player r; score := score r; failed := failed r;
     points := points r; time := v |}.

(** ** strings.Fields

    Splits around runs of white space (unicode.IsSpace) and returns no
    field for a string of white space only.  Strings are byte strings in
    UTF-8; a white-space rune is recognised by its encoding.  No encoding
    of a white-space rune starts with a continuation byte, so reading
    byte by byte finds the same runes as decoding does. *)

Fixpoint firstBytes (n : nat) (s : string) : list Z :=
  match n, s with
  | S k, String c s' => Z.of_nat (Ascii.nat_of_ascii c) :: firstBytes k s'
  | _, _ => []
  end.

(** The width in bytes of the white-space rune [s] starts with, 0 when it
    starts with none. *)
Definition spaceWidth (s : string) : nat :=
  match firstBytes 3 s with
  | c :: rest =>
      if ((9 <=? c) && (c <=? 13)) || (c =? 32) then 1%nat
      else match c, rest with
      | 194, d :: _ => if (d =? 133) || (d =? 160) then 2%nat else 0%nat
      | 225, 154 :: 128 :: _ => 3%nat
      | 226, 128 :: e :: _ =>
          if ((128 <=? e) && (e <=? 138)) || (e =? 168) || (e =? 169) || (e =? 175)
          then 3%nat else 0%nat
      | 226, 129 :: 159 :: _ => 3%nat
      | 227, 128 :: 128 :: _ => 3%nat
      | _, _ => 0%nat
      end
  | [] => 0%nat
  end.

Definition flushField (cur : string) : list string :=
  if String.eqb cur "" then [] else [cur].

(** [skip] counts the bytes of a white-space rune still to pass; [cur] is
    the field being read. *)
Fixpoint fieldsFrom (s : string) (skip : nat) (cur : string) : list string :=
  match s with
  | EmptyString => flushField cur
  | String c s' =>
      match skip with
      | S k => fieldsFrom s' k cur
      | O =>
          match spaceWidth s with
          | O => fieldsFrom s' O (cur +:+ String c EmptyString)
          | S k => flushField cur ++ fieldsFrom s' k ""
          end
      end
  end.

Definition Fields (s : string) : list string := fieldsFrom s O "".

(** ** The engine boundary: interfaces GameState and Game

    A state is a value; [Execute] returns the state it leaves together
    with its boolean.  WriteLog only prints the state and is left out.
    [MoveString] is move.(fmt.Stringer).String(): the engine's moves are
    Stringers. *)

Class GameState (State Move : Type) := {
  Over : State -> bool;
  Next : State -> Z;
  ListMoves : State -> list Move;
  Execute : State -> Move -> State * bool;
  Scores : State -> Z * Z
}.

Class Game (State Move : Type) := {
  CreateState : State;
  ParseMove : string -> option Move;
  MoveString : Move -> string
}.

(** What the arbiter expects of an engine: while the game is not over a
    listed player is to move, some move is listed, and every listed move
    is accepted; a rejected move leaves the state as it was. *)
Class EngineContract (State Move : Type) `{GameState State Move} : Prop := {
  next_in_range : forall s, Over s = false -> Next s = 0 \/ Next s = 1;
  moves_nonempty : forall s, Over s = false -> ListMoves s <> [];
  listed_accepted : forall s m,
    Over s = false -> In m (ListMoves s) -> snd (Execute s m) = true;
  rejected_unchanged : forall s m,
    snd (Execute s m) = false -> fst (Execute s m) = s
}.

(** ** The outside world *)

(** What cmd.Stderr is set to. *)
Inductive StderrTarget :=
| StderrUnset
| StderrArbiter
| StderrFile (path : string).

(** exec.Cmd, the fields runPlayer sets. *)
Record Cmd := {
  Path : string;
  Args : list string;
  Dir : string;
  Stderr : StderrTarget
}.

Inductive SpawnError :=
| ErrInvalid | ErrLookPath | ErrGetwd | ErrStdinPipe | ErrStdoutPipe | ErrStart.

(** The arbiter's own diagnostics. *)
Inductive Diag :=
| CouldntRun (command : string) (err : SpawnError)
| CreateFailed (path : string)
| FailedToRead (command : string)
| CouldNotParse (command line : string)
| InvalidMove (command line : string)
| CouldNotWrite (command : string).

(** The three places of runMatch that write to a player. *)
Inductive WriteSite := SiteStart | SiteMove | SiteQuit.

Inductive Event :=
| EvLookPath (file : string) (found : option string)
| EvGetwd (dir : option string)
| EvStdinPipe (ok : bool)
| EvStdoutPipe (ok : bool)
| EvCreate (path : string) (ok : bool)
| EvStart (cmd : Cmd) (ok : bool)
| EvDiag (d : Diag)
| EvWrite (site : WriteSite) (to : Slot) (line : string) (ok : bool)
| EvRead (from : Slot) (line : option string) (ns : Z)
| EvRand (n k : Z)
| EvClose (w : Slot)
| EvWait (c : Slot)
| EvLog (path : string).

Definition Trace := list Event.

(** The oracles.  Each answers from the events so far.
    - [pipeWrite]: whether a line written to the slot's pipe is written
      without error;
    - [pipeRead]: ReadString on the slot's pipe, the text before the
      newline, or None for an error;
    - [elapsed]: the nanoseconds the read took;
    - [random]: the generator's next raw value;
    - [memory]: whether the system has so many bytes for the runtime,
      asked for the slice of the results, the one allocation whose size
      the command line sets.
    An oracle always answers: a read or a wait that blocks for ever is
    not modelled. *)
Record World := {
  osLookPath : Trace -> string -> option string;
  osGetwd : Trace -> option string;
  osStdinPipe : Trace -> bool;
  osStdoutPipe : Trace -> bool;
  osCreate : Trace -> string -> bool;
  osStart : Trace -> Cmd -> bool;
  pipeWrite : Trace -> Slot -> string -> bool;
  pipeRead : Trace -> Slot -> option string;
  elapsed : Trace -> Z;
  random : Trace -> Z;
  memory : Trace -> Z -> bool
}.

(** ** Outcomes and the monad of the arbiter's code *)

Inductive Outcome (A : Type) :=
| Done (a : A) (tr : Trace)
| Panic (msg : string) (tr : Trace)
| OutOfFuel (tr : Trace).
Arguments Done {A} a tr.
Arguments Panic {A} msg tr.
Arguments OutOfFuel {A} tr.

Definition traceOf {A} (o : Outcome A) : Trace :=
  match o with Done _ tr => tr | Panic _ tr => tr | OutOfFuel tr => tr end.

Definition M (A : Type) : Type := Trace -> Outcome A.

Definition ret {A} (a : A) : M A := fun tr => Done a tr.

Definition bind {A B} (m : M A) (k : A -> M B) : M B :=
  fun tr =>
    match m tr with
    | Done a tr' => k a tr'
    | Panic msg tr' => Panic msg tr'
    | OutOfFuel tr' => OutOfFuel tr'
    end.

Definition panic {A} (msg : string) : M A := fun tr => Panic msg tr.
Definition outOfFuel {A} : M A := fun tr => OutOfFuel tr.
Definition emit (e : Event) : M unit := fun tr => Done tt (tr ++ [e]).

Notation "x <- m ;; k" := (bind m (fun x => k))
  (at level 90, m at level 80, k at level 200, right associativity,
   format "'[v' x  <-  m  ;; '/' k ']'").
Notation "m ;;; k" := (bind m (fun _ => k))
  (at level 90, k at level 200, right associativity,
   format "'[v' m  ;;; '/' k ']'").

Definition nilDeref : string := "invalid memory address or nil pointer dereference".
Definition indexOutOfRange : string := "index out of range".

(** Asks an oracle and records its answer. *)
Definition ask {A} (oracle : Trace -> A) (ev : A -> Event) : M A :=
  fun tr => let a := oracle tr in Done a (tr ++ [ev a]).

Definition newline : string := String (Ascii.ascii_of_nat 10) EmptyString.

(** line[0 : len(line)-1], for a line that is not empty (a line read
    without error ends with its newline). *)
Definition dropLast (s : string) : string :=
  String.substring 0 (Nat.pred (String.length s)) s.

(** The process-wide flags of arbiter.go. *)
Record Flags := {
  quiet : bool;
  logPath : string;
  msgPath : string
}.

Section Arbiter.

Context (w : World).
Context {State Move : Type} {GS : GameState State Move} {G : Game State Move}.

(** ** func runPlayer *)

Definition runPlayer (command msgPath : string) : M (SpawnError + Cmd) :=
  match Fields command with
  | [] => ret (inl ErrInvalid)
  | (arg0 :: _) as argv =>
      found <- ask (fun tr => osLookPath w tr arg0) (EvLookPath arg0) ;;
      match found with
      | None => ret (inl ErrLookPath)
      | Some name =>
          wd <- ask (osGetwd w) EvGetwd ;;
          match wd with
          | None => ret (inl ErrGetwd)
          | Some dir =>
              okIn <- ask (osStdinPipe w) EvStdinPipe ;;
              if negb okIn then ret (inl ErrStdinPipe) else
              okOut <- ask (osStdoutPipe w) EvStdoutPipe ;;
              if negb okOut then ret (inl ErrStdoutPipe) else
              target <-
                (if String.eqb msgPath "-" then ret StderrArbiter
                 else if negb (String.eqb msgPath "") then
                   created <- ask (fun tr => osCreate w tr msgPath) (EvCreate msgPath) ;;
                   if created then ret (StderrFile msgPath)
                   else (emit (EvDiag (CreateFailed msgPath)) ;;; ret StderrArbiter)
                 else ret StderrUnset) ;;
              let cmd := {| Path := name; Args := argv; Dir := dir; Stderr := target |} in
              started <- ask (fun tr => osStart w tr cmd) (EvStart cmd) ;;
              if started then ret (inr cmd) else ret (inl ErrStart)
          end
      end
  end.

(** ** Pipes and processes of a match

    A pipe or a process of a match is named by its slot; the zero value
    of an interface or a pointer is nil, here None.  A method called
    through nil panics. *)

Definition Fprintln (site : WriteSite) (wr : option Slot) (line : string) : M bool :=
  match wr with
  | None => panic nilDeref
  | Some to => ask (fun tr => pipeWrite w tr to line) (EvWrite site to line)
  end.

Definition Close (wr : option Slot) : M unit :=
  match wr with
  | None => panic nilDeref
  | Some to => emit (EvClose to)
  end.

Definition Wait (c : option Slot) : M unit :=
  match c with
  | None => panic nilDeref
  | Some p => emit (EvWait p)
  end.

(** ReadString('\n') with the time it took: the line with its newline,
    or None for an error. *)
Definition ReadString (rd : option Slot) : M (option string * Z) :=
  match rd with
  | None => panic nilDeref
  | Some from =>
      fun tr =>
        let line := option_map (fun body => body +:+ newline) (pipeRead w tr from) in
        let ns := elapsed w tr in
        Done (line, ns) (tr ++ [EvRead from line ns])
  end.

(** rand.Intn(n): panics unless n > 0. *)
Definition Intn (n : Z) : M Z :=
  if n <=? 0 then panic "invalid argument to Intn"
  else ask (fun tr => random w tr `mod` n) (EvRand n).

(** ** func runMatch: its variables *)

Record MatchState := {
  result : Result;
  cmds : arr2 (option Slot);
  readers : arr2 (option Slot);
  writers : arr2 (option Slot);
  gamestate : State;
  over : bool
}.

Definition with_result (f : Result -> Result) (st : MatchState) : MatchState :=
  {| result := f (result st); cmds := cmds st; readers := readers st;
     writers := writers st; gamestate := gamestate st; over := over st |}.

Definition with_game (gs : State) (ov : bool) (st : MatchState) : MatchState :=
  {| result := result st; cmds := cmds st; readers := readers st;
     writers := writers st; gamestate := gs; over := ov |}.

Definition attach (i : Slot) (st : MatchState) : MatchState :=
  {| result := result st; cmds := set i (Some i) (cmds st);
     readers := set i (Some i) (readers st);
     writers := set i (Some i) (writers st);
     gamestate := gamestate st; over := over st |}.

(** result.failed[i] = true *)
Definition markFailed (i : Slot) (st : MatchState) : MatchState :=
  with_result (fun r => set_failed (set i true (failed r)) r) st.

(** result.time[p] += float64(ns) / 1e9 *)
Definition addTime (p : Slot) (ns : Z) (st : MatchState) : MatchState :=
  with_result
    (fun r => set_time
       (set p (PrimFloat.add (get p (time r))
                 (PrimFloat.div (float64_of_int ns) 1e9%float)) (time r)) r) st.

(** ** runMatch, lines 120-133: starting the players *)

Definition startPlayer (commands msgPath : arr2 string) (i : Slot)
    (st : MatchState) : M MatchState :=
  r <- runPlayer (get i commands) (get i msgPath) ;;
  match r with
  | inl err =>
      emit (EvDiag (CouldntRun (get i commands) err)) ;;;
      ret (markFailed i st)
  | inr cmd =>
      let st := attach i st in
      match i with
      | S0 => (* Send Start to first player *)
          _ <- Fprintln SiteStart (get i (writers st)) "Start" ;; ret st
      | S1 => ret st
      end
  end.

Definition startPlayers (commands msgPath : arr2 string) (st : MatchState) : M MatchState :=
  st <- startPlayer commands msgPath S0 st ;;
  startPlayer commands msgPath S1 st.

(** ** runMatch, lines 138-176: one pass of the loop body *)

(** Lines 141-148: the player failed before, move randomly instead. *)
Definition fallbackMove (st : MatchState) : M (MatchState * string) :=
  let moves := ListMoves (gamestate st) in
  k <- Intn (Z.of_nat (length moves)) ;;
  match moves !! Z.to_nat k with
  | None => panic indexOutOfRange
  | Some move =>
      let ex := Execute (gamestate st) move in
      if negb (snd ex) then panic "Invalid move generated!"
      else ret (with_game (fst ex) (Over (fst ex)) st, MoveString move)
  end.

(** Lines 150-169: read the move from the client. *)
Definition clientMove (commands : arr2 string) (p : Slot) (st : MatchState)
    : M (MatchState * string) :=
  rd <- ReadString (get p (readers st)) ;;
  let st := addTime p (snd rd) st in
  match fst rd with
  | None =>
      emit (EvDiag (FailedToRead (get p commands))) ;;;
      ret (markFailed p st, "")
  | Some line =>
      let line := dropLast line in
      match ParseMove line with
      | None =>
          emit (EvDiag (CouldNotParse (get p commands) line)) ;;;
          ret (markFailed p st, "")
      | Some move =>
          let ex := Execute (gamestate st) move in
          if negb (snd ex) then
            emit (EvDiag (InvalidMove (get p commands) line)) ;;;
            ret (markFailed p (with_game (fst ex) (over st) st), "")
          else ret (with_game (fst ex) (Over (fst ex)) st, MoveString move)
      end
  end.

(** Lines 171-176: pass the move on to the other player. *)
Definition forwardMove (commands : arr2 string) (p : Slot) (moveStr : string)
    (st : MatchState) : M MatchState :=
  if negb (String.eqb moveStr "") && negb (get (other p) (failed (result st)))
     && negb (over st)
  then
    ok <- Fprintln SiteMove (get (other p) (writers st)) moveStr ;;
    if ok then ret st
    else
      emit (EvDiag (CouldNotWrite (get (other p) commands))) ;;;
      ret (markFailed (other p) st)
  else ret st.

Definition turn (commands : arr2 string) (st : MatchState) : M MatchState :=
  match slot_of_int (Next (gamestate st)) with
  | None => panic indexOutOfRange
  | Some p =>
      r <- (if get p (failed (result st)) then fallbackMove st
            else clientMove commands p st) ;;
      forwardMove commands p (snd r) (fst r)
  end.

(** for !over { ... }: at most [fuel] passes. *)
Fixpoint loop (fuel : nat) (commands : arr2 string) (st : MatchState) : M MatchState :=
  if over st then ret st
  else
    match fuel with
    | O => outOfFuel
    | S fuel' => st' <- turn commands st ;; loop fuel' commands st'
    end.

(** ** runMatch, lines 179-188: telling the players to quit *)

Definition quitWriter (wr : option Slot) : M unit :=
  _ <- Fprintln SiteQuit wr "Quit" ;; Close wr.

Definition quitPlayers (st : MatchState) : M unit :=
  quitWriter (get S0 (writers st)) ;;;
  quitWriter (get S1 (writers st)) ;;;
  Wait (get S0 (cmds st)) ;;;
  Wait (get S1 (cmds st)).

(** ** runMatch, lines 193-202: competition points *)

Definition pointsFor (i : Slot) (r : Result) : Result :=
  if negb (get i (failed r)) then
    let r := set_points (set i 1 (points r)) r in
    if get i (score r) >? get (other i) (score r)
    then set_points (set i (int_add (get i (points r)) 1) (points r)) r
    else r
  else r.

Definition competitionPoints (r : Result) : Result :=
  pointsFor S1 (pointsFor S0 r).

(** ** runMatch, lines 204-232: the log file (its text is not modelled) *)

Definition writeMatchLog (logPath : string) : M unit :=
  if negb (String.eqb logPath "") then
    created <- ask (fun tr => osCreate w tr logPath) (EvCreate logPath) ;;
    if created then emit (EvLog logPath)
    else emit (EvDiag (CreateFailed logPath))
  else ret tt.

(** ** func runMatch *)

Definition initialState (players : arr2 Z) : MatchState :=
  {| result := newResult players; cmds := (None, None);
     readers := (None, None); writers := (None, None);
     gamestate := CreateState; over := Over CreateState |}.

Definition runMatch (fuel : nat) (players : arr2 Z) (commands : arr2 string)
    (logPath : string) (msgPath : arr2 string) : M Result :=
  st <- startPlayers commands msgPath (initialState players) ;;
  st <- loop fuel commands st ;;
  quitPlayers st ;;;
  let r := set_score (Scores (gamestate st)) (result st) in
  let r := competitionPoints r in
  writeMatchLog logPath ;;;
  ret r.

End Arbiter.

Arguments MatchState State : clear implicits.

(** runMatch, lines 222-228: the end of the summary line of the log. *)
Definition logVerdict (r : Result) : string :=
  if get S0 (score r) >? get S1 (score r) then "Player 1 won!"
  else if get S1 (score r) >? get S0 (score r) then "Player 2 won!"
  else "It's a tie!".

(** ** func shorten *)

Definition shorten (s : string) (n : Z) : string :=
  let len := Z.of_nat (String.length s) in
  if len <=? n then s
  else if n <? 5 then String.substring 0 (Z.to_nat n) s
  else
    let a := (n - 2) `quot` 2 in
    let b := (n - 2) - (n - 2) `quot` 2 in
    String.substring 0 (Z.to_nat a) s +:+ ".." +:+
    String.substring (Z.to_nat (len - b)) (Z.to_nat b) s.

(** ** Slices: indexing panics out of range, here None *)

Definition index {A} (l : list A) (i : Z) : option A :=
  if i <? 0 then None else l !! Z.to_nat i.

(** l[i] = f(l[i]) *)
Definition update {A} (l : list A) (i : Z) (f : A -> A) : option (list A) :=
  x ← index l i; Some (<[Z.to_nat i := f x]> l).

(** m[i][j] = f(m[i][j]) *)
Definition update2 {A} (m : list (list A)) (i j : Z) (f : A -> A)
    : option (list (list A)) :=
  row ← index m i; row' ← update row j f; Some (<[Z.to_nat i := row']> m).

(** for i, x := range l *)
Definition enumerate {A} (l : list A) : list (Z * A) :=
  imap (fun i x => (Z.of_nat i, x)) l.

(** ** fmt.Sprintf("%04d", n) *)

Definition zeroPad (width : nat) (digits : string) : string :=
  String.concat "" (replicate (width - String.length digits) "0") +:+ digits.

Definition fmt04d (n : Z) : string :=
  let digits := NilZero.string_of_uint (N.to_uint (Z.to_N (Z.abs n))) in
  if n <? 0 then "-" +:+ zeroPad 3 digits else zeroPad 4 digits.

(** ** Loops with a labelled break *)

Inductive Flow := Continue | Break.

Fixpoint forEach {A S} (xs : list A) (body : A -> S -> M (Flow * S)) (s : S)
    : M (Flow * S) :=
  match xs with
  | [] => ret (Continue, s)
  | x :: xs' =>
      r <- body x s ;;
      match fst r with
      | Break => ret r
      | Continue => forEach xs' body (snd r)
      end
  end.

Section Tournament.

Context (w : World).
Context {State Move : Type} {GS : GameState State Move} {G : Game State Move}.
Context (flags : Flags).

(** unsafe.Sizeof(Result{}) with 64-bit ints: four arrays of 16 bytes,
    and [2]bool in 8. *)
Definition sizeofResult : Z := 72.

(** The runtime's maxAlloc on 64-bit Linux: 48 bits of addresses. *)
Definition maxAlloc : Z := 2 ^ 48.

Definition lenOutOfRange : string := "makeslice: len out of range".
Definition outOfMemory : string := "runtime: out of memory".

(** make([]Result, n), the runtime's makeslice: it panics for a negative
    n and for more than maxAlloc bytes.  Then the memory is asked of the
    system; without it the runtime stops the process with a fatal error,
    which no more than a panic is recovered from here. *)
Definition makeResults (n : Z) : M (list Result) :=
  if (n <? 0) || (maxAlloc <? sizeofResult * n) then panic lenOutOfRange
  else fun tr =>
    if memory w tr (sizeofResult * n)
    then Done (replicate (Z.to_nat n) (newResult (0, 0))) tr
    else Panic outOfMemory tr.

(** ** func runTournament, lines 260-297: the body of the innermost loop.
    The table row printed unless quiet is not modelled. *)
Definition playPair (fuel : nat) (firstOnly : bool) (ic jc : Z * string)
    (st : list Result * Z) : M (Flow * (list Result * Z)) :=
  let i := fst ic in
  let j := fst jc in
  let results := fst st in
  let n := snd st in
  if negb (i =? j) then
    let logFilePath :=
      if negb (String.eqb (logPath flags) "")
      then logPath flags +:+ fmt04d (int_add n 1) +:+ ".log" else "" in
    let msgFilePath :=
      if negb (String.eqb (msgPath flags) "") then
        if String.eqb (msgPath flags) "-" then ("-", "-")
        else (msgPath flags +:+ fmt04d (int_add n 1) +:+ ".1.log",
              msgPath flags +:+ fmt04d (int_add n 1) +:+ ".2.log")
      else ("", "") in
    res <- runMatch w fuel (i, j) (snd ic, snd jc) logFilePath msgFilePath ;;
    match update results n (fun _ => res) with
    | None => panic indexOutOfRange
    | Some results =>
        ret (if firstOnly then Break else Continue, (results, int_add n 1))
    end
  else ret (Continue, st).

(** ** func runTournament; every match gets [fuel] passes of its loop.
    len(commands) is an int: a slice is never longer than maxInt. *)
Definition runTournament (fuel : nat) (commands : list string) (rounds : Z)
    (firstOnly : bool) : M (list Result) :=
  let len := Z.of_nat (length commands) in
  let numResults :=
    if firstOnly then 1 else int_mul (int_mul rounds len) (len - 1) in
  results <- makeResults numResults ;;
  r <- forEach (seq 0 (Z.to_nat rounds)) (fun _ =>
         forEach (enumerate commands) (fun ic =>
           forEach (enumerate commands) (fun jc =>
             playPair fuel firstOnly ic jc)))
         (results, 0) ;;
  ret (fst (snd r)).

End Tournament.

(** ** func main: the statistics *)

Record Standings := {
  totalPoints : list Z;
  gamesWon : list Z;
  gamesTied : list Z;
  gamesLost : list Z;
  gamesFailed : list Z;
  timeUsed : list float;
  timeMax : list float;
  winLoss : list (list Z);
  pairScore : list (list Z)
}.

(** Lines 354-366: everything zero, for [n] players. *)
Definition newStandings (n : nat) : Standings :=
  {| totalPoints := replicate n 0; gamesWon := replicate n 0;
     gamesTied := replicate n 0; gamesLost := replicate n 0;
     gamesFailed := replicate n 0;
     timeUsed := replicate n 0%float; timeMax := replicate n 0%float;
     winLoss := replicate n (replicate n 0);
     pairScore := replicate n (replicate n 0) |}.

Definition incr (v : Z) : Z := int_add v 1.

(** Lines 369-389: the body of the loop over i, for side [i] of a result. *)
Definition account (res : Result) (i : Slot) (s : Standings) : option Standings :=
  let me := get i (player res) in
  let opponent := get (other i) (player res) in
  tp ← update (totalPoints s) me (fun v => int_add v (get i (points res)));
  ps ← update2 (pairScore s) me opponent (fun v => int_add v (get i (score res)));
  gf ← (if get i (failed res) then update (gamesFailed s) me incr
        else Some (gamesFailed s));
  gw ← (if get i (score res) >? get (other i) (score res)
        then update (gamesWon s) me incr else Some (gamesWon s));
  wl ← (if get i (score res) >? get (other i) (score res)
        then update2 (winLoss s) me opponent incr else Some (winLoss s));
  gt ← (if get i (score res) =? get (other i) (score res)
        then update (gamesTied s) me incr else Some (gamesTied s));
  gl ← (if get i (score res) <? get (other i) (score res)
        then update (gamesLost s) me incr else Some (gamesLost s));
  tu ← update (timeUsed s) me (fun t => PrimFloat.add t (get i (time res)));
  mx ← index (timeMax s) me;
  tm ← (if PrimFloat.ltb mx (get i (time res))
        then update (timeMax s) me (fun _ => get i (time res))
        else Some (timeMax s));
  Some {| totalPoints := tp; gamesWon := gw; gamesTied := gt; gamesLost := gl;
          gamesFailed := gf; timeUsed := tu; timeMax := tm;
          winLoss := wl; pairScore := ps |}.

(** Lines 367-391. *)
Definition accountResult (res : Result) (s : Standings) : option Standings :=
  s ← account res S0 s; account res S1 s.

Fixpoint aggregate (results : list Result) (s : Standings) : option Standings :=
  match results with
  | [] => Some s
  | res :: rest => s ← accountResult res s; aggregate rest s
  end.

(** The values of one line of the report, in the order of the Printf
    arguments: totalPoints, gamesWon, gamesTied, gamesLost, gamesFailed,
    timeUsed/float64(numGames), timeMax. *)
Definition StatLine : Type := (Z * Z * Z * Z * Z * float * float)%type.

Definition statLine (s : Standings) (numGames : Z) (p : Z) : option StatLine :=
  tp ← index (totalPoints s) p;
  gw ← index (gamesWon s) p;
  gt ← index (gamesTied s) p;
  gl ← index (gamesLost s) p;
  gf ← index (gamesFailed s) p;
  tu ← index (timeUsed s) p;
  tm ← index (timeMax s) p;
  Some (tp, gw, gt, gl, gf, PrimFloat.div tu (float64_of_int numGames), tm).

(** Lines 394-398: for p := range players. *)
Definition briefResults (s : Standings) (numGames : Z) (players : list string)
    : option (list StatLine) :=
  mapM (fun pc => statLine s numGames (fst pc)) (enumerate players).

(** ** type IntPairSlice *)

Record IntPair := {
  first : Z;
  second : Z
}.

(** Less(i, j), on the pairs ips[i] and ips[j]. *)
Definition Less (a b : IntPair) : bool :=
  (first a <? first b) || ((first a =? first b) && (second a <? second b)).

Definition Swap (ips : list IntPair) (i j : Z) : option (list IntPair) :=
  x ← index ips i; y ← index ips j;
  Some (<[Z.to_nat j := x]> (<[Z.to_nat i := y]> ips)).

(** for i, j := 0, len(ips)-1; i < j; i, j = i+1, j-1 { ips.Swap(i, j) } *)
Fixpoint reverseLoop (fuel : nat) (i j : Z) (ips : list IntPair)
    : option (list IntPair) :=
  if i <? j then
    match fuel with
    | O => None
    | S fuel' => ips ← Swap ips i j; reverseLoop fuel' (i + 1) (j - 1) ips
    end
  else Some ips.

Definition Reverse (ips : list IntPair) : option (list IntPair) :=
  reverseLoop (length ips) 0 (Z.of_nat (length ips) - 1) ips.

(** sort.Sort is the Go library's: it sorts in ascending order as Less
    determines and need not be stable.  Here it is insertion sort (the
    library's own choice for short slices); whatever sorts by Less gives
    the same slice, see [Sort_unique]. *)
Fixpoint insertPair (x : IntPair) (l : list IntPair) : list IntPair :=
  match l with
  | [] => [x]
  | y :: l' => if Less y x then y :: insertPair x l' else x :: l
  end.

Fixpoint Sort (l : list IntPair) : list IntPair :=
  match l with
  | [] => []
  | x :: l' => insertPair x (Sort l')
  end.

(** Lines 402-408: sort players by total points. *)
Definition pointsPlayers (s : Standings) (players : list string)
    : option (list IntPair) :=
  ips ← mapM (fun ic => tp ← index (totalPoints s) (fst ic);
                       Some {| first := tp; second := - fst ic |})
         (enumerate players);
  Reverse (Sort ips).

(** Lines 414-419: a row of the ranking is its number, the player's
    shortened command and the player's line. *)
Definition RankRow : Type := (Z * string * StatLine)%type.

Definition rankRow (s : Standings) (numGames : Z) (players : list string)
    (iip : Z * IntPair) : option RankRow :=
  let p := - second (snd iip) in
  name ← index players p;
  line ← statLine s numGames p;
  Some (fst iip + 1, shorten name 30, line).

(** Lines 435-447: a row of the win/loss matrix, None for the blank. *)
Definition matrixRow (s : Standings) (players : list string)
    (ranking : list IntPair) (iip : Z * IntPair)
    : option (Z * string * list (option Z)) :=
  let p := - second (snd iip) in
  name ← index players p;
  cells ← mapM (fun jp : IntPair =>
             let q := - second jp in
             if p =? q then Some None
             else row ← index (winLoss s) p; v ← index row q; Some (Some v))
           ranking;
  Some (fst iip + 1, shorten name 30, cells).

Inductive Output :=
| TooFewPlayers
| InvalidRounds
| SingleNeedsTwoPlayers
| Brief (lines : list StatLine)
| Verbose (rows : list RankRow)
          (matrix : option (list (Z * string * list (option Z)))).

Definition verboseResults (s : Standings) (numGames : Z) (players : list string)
    : option Output :=
  ranking ← pointsPlayers s players;
  rows ← mapM (rankRow s numGames players) (enumerate ranking);
  matrix ← (if Z.of_nat (length players) >? 2
            then Some <$> mapM (matrixRow s players ranking) (enumerate ranking)
            else Some None);
  Some (Verbose rows matrix).

(** ** func main, after flag.Parse: [players] are flag.Args().  The CPU
    profile is left out. *)

Definition numGamesOf (rounds : Z) (players : list string) (single : bool) : Z :=
  if single then 1
  else int_mul (int_mul rounds (Z.of_nat (length players) - 1)) 2.

Definition report (flags : Flags) (rounds : Z) (single : bool)
    (players : list string) (results : list Result) : option Output :=
  let numGames := numGamesOf rounds players single in
  s ← aggregate results (newStandings (length players));
  if quiet flags then Brief <$> briefResults s numGames players
  else verboseResults s numGames players.

Definition main {State Move : Type} {GS : GameState State Move} {G : Game State Move}
    (w : World) (flags : Flags) (fuel : nat) (rounds : Z) (single : bool)
    (players : list string) : M Output :=
  let nArg := Z.of_nat (length players) in
  if nArg <? 2 then ret TooFewPlayers
  else if rounds <? 1 then ret InvalidRounds
  else if single && ((nArg >? 2) || (rounds >? 1)) then ret SingleNeedsTwoPlayers
  else
    results <- runTournament w flags fuel players rounds single ;;
    match report flags rounds single players results with
    | None => panic indexOutOfRange
    | Some out => ret out
    end.

(** ** A small engine and small worlds, for the examples

    A game of Nim: three stones, a move takes one or two, the player who
    takes the last stone scores 1. *)

Record Nim := {
  stones : Z;
  toMove : Slot;
  lastMover : option Slot
}.

Definition nimExecute (s : Nim) (m : Z) : Nim * bool :=
  if ((m =? 1) || (m =? 2)) && (m <=? stones s)
  then ({| stones := stones s - m; toMove := other (toMove s);
           lastMover := Some (toMove s) |}, true)
  else (s, false).

#[export] Instance nimState : GameState Nim Z := {
  Over s := stones s <=? 0;
  Next s := int_of_slot (toMove s);
  ListMoves s :=
    if 2 <=? stones s then [1; 2] else if 1 <=? stones s then [1] else [];
  Execute := nimExecute;
  Scores s :=
    match lastMover s with
    | Some S0 => (1, 0)
    | Some S1 => (0, 1)
    | None => (0, 0)
    end
}.

#[export] Instance nimGame : Game Nim Z := {
  CreateState := {| stones := 3; toMove := S0; lastMover := None |};
  ParseMove s :=
    if String.eqb s "1" then Some 1
    else if String.eqb s "2" then Some 2
    else if String.eqb s "3" then Some 3
    else None;
  MoveString m := if m =? 1 then "1" else if m =? 2 then "2" else "3"
}.

(** Every player answers "1"; nothing fails. *)
Definition calmWorld : World := {|
  osLookPath := fun _ file => Some ("/bin/" +:+ file);
  osGetwd := fun _ => Some "/";
  osStdinPipe := fun _ => true;
  osStdoutPipe := fun _ => true;
  osCreate := fun _ _ => true;
  osStart := fun _ _ => true;
  pipeWrite := fun _ _ _ => true;
  pipeRead := fun _ _ => Some "1";
  elapsed := fun _ => 1000000;
  random := fun _ => 7;
  memory := fun _ _ => true
|}.

Definition with_pipeRead (f : Trace -> Slot -> option string) (w : World) : World := {|
  osLookPath := osLookPath w; osGetwd := osGetwd w;
  osStdinPipe := osStdinPipe w; osStdoutPipe := osStdoutPipe w;
  osCreate := osCreate w; osStart := osStart w;
  pipeWrite := pipeWrite w; pipeRead := f;
  elapsed := elapsed w; random := random w; memory := memory w
|}.

Definition with_pipeWrite (f : Trace -> Slot -> string -> bool) (w : World) : World := {|
  osLookPath := osLookPath w; osGetwd := osGetwd w;
  osStdinPipe := osStdinPipe w; osStdoutPipe := osStdoutPipe w;
  osCreate := osCreate w; osStart := osStart w;
  pipeWrite := f; pipeRead := pipeRead w;
  elapsed := elapsed w; random := random w; memory := memory w
|}.

(** The second player's pipe is closed: its reads fail. *)
Definition deafWorld : World :=
  with_pipeRead (fun _ p => match p with S0 => Some "1" | S1 => None end) calmWorld.

(** The second player sends text that is no move. *)
Definition babbleWorld : World :=
  with_pipeRead (fun _ p => match p with S0 => Some "1" | S1 => Some "pass" end) calmWorld.

(** The second player asks for three stones when two are left. *)
Definition greedyWorld : World :=
  with_pipeRead (fun _ p => match p with S0 => Some "1" | S1 => Some "3" end) calmWorld.

(** Moves cannot be delivered to the second player. *)
Definition brokenPipeWorld : World :=
  with_pipeWrite (fun _ p line =>
    match p with S0 => true | S1 => String.eqb line "Quit" end) calmWorld.

Definition noFlags : Flags := {| quiet := true; logPath := ""; msgPath := "" |}.

(** n passes of the loop of runMatch, as far as the game lasts: the
    state after them. *)
Fixpoint passes {State Move : Type} {GS : GameState State Move} {G : Game State Move}
    (w : World) (n : nat) (commands : arr2 string) (st : MatchState State)
    : M (MatchState State) :=
  match n with
  | O => ret st
  | S n' =>
      if over st then ret st
      else st' <- turn w commands st ;; passes w n' commands st'
  end.

(** ** The vocabulary of the properties *)

(** From [st] to [st'] only the game, the times and the failed flags
    changed, and no failed flag was taken back. *)
Definition evolves {State : Type} (st st' : MatchState State) : Prop :=
  cmds st' = cmds st /\ readers st' = readers st /\ writers st' = writers st /\
  player (result st') = player (result st) /\
  score (result st') = score (result st) /\
  points (result st') = points (result st) /\
  forall i, get i (failed (result st)) = true -> get i (failed (result st')) = true.

Definition isWrite (e : Event) : bool :=
  match e with EvWrite _ _ _ _ => true | _ => false end.

Definition isRand (e : Event) : bool :=
  match e with EvRand _ _ => true | _ => false end.

(** [m] adds no event that [f] selects. *)
Definition quietOn {A} (f : Event -> bool) (m : M A) : Prop :=
  forall tr, List.filter f (traceOf (m tr)) = List.filter f tr.

(** The events that act on a player: a line written to its pipe, the
    closing of the pipe, the wait for its process. *)
Definition isOutput (e : Event) : bool :=
  match e with
  | EvWrite _ _ _ _ | EvClose _ | EvWait _ => true
  | _ => false
  end.

Definition isStartWrite (e : Event) : bool :=
  match e with EvWrite SiteStart _ _ _ => true | _ => false end.

(** The events of the end of a match that release slot [p]: the Quit
    line, the closing of the pipe, the wait for the process. *)
Definition isRelease (p : Slot) (e : Event) : bool :=
  match e with
  | EvWrite SiteQuit q _ _ => bool_decide (q = p)
  | EvClose q => bool_decide (q = p)
  | EvWait q => bool_decide (q = p)
  | _ => false
  end.

(** A slot is either attached to its process, or marked failed with no
    pipe and no process. *)
Definition slotStarted {State : Type} (i : Slot) (st : MatchState State) : Prop :=
  (get i (failed (result st)) = false /\
   get i (cmds st) = Some i /\ get i (readers st) = Some i /\
   get i (writers st) = Some i) \/
  (get i (failed (result st)) = true /\
   get i (cmds st) = None /\ get i (readers st) = None /\
   get i (writers st) = None).

(** The pairings of one round as the specification words them: for each
    first mover i, for each opponent j, skipping i = j. *)
Definition pairings (n : Z) : list (Z * Z) :=
  flat_map (fun i => flat_map (fun j => if i =? j then [] else [(i, j)]) (seqZ 0 n))
           (seqZ 0 n).

Definition schedule (rounds n : Z) : list (Z * Z) :=
  flat_map (fun _ => pairings n) (seq 0 (Z.to_nat rounds)).

(** The matches of one round as runTournament's loops meet them, with
    the players' commands. *)
Definition roundMatchups (commands : list string) : list ((Z * string) * (Z * string)) :=
  List.filter (fun m => negb (fst (fst m) =? fst (snd m)))
    (flat_map (fun ic => map (pair ic) (enumerate commands)) (enumerate commands)).

Definition matchups (commands : list string) (rounds : Z) : list ((Z * string) * (Z * string)) :=
  flat_map (fun _ => roundMatchups commands) (seq 0 (Z.to_nat rounds)).

Definition pairOf (m : (Z * string) * (Z * string)) : Z * Z :=
  (fst (fst m), fst (snd m)).

(** The files of match number [k], lines 261-274. *)
Definition logFileOf (flags : Flags) (k : Z) : string :=
  if negb (String.eqb (logPath flags) "")
  then logPath flags +:+ fmt04d k +:+ ".log" else "".

Definition msgFilesOf (flags : Flags) (k : Z) : arr2 string :=
  if negb (String.eqb (msgPath flags) "") then
    if String.eqb (msgPath flags) "-" then ("-", "-")
    else (msgPath flags +:+ fmt04d k +:+ ".1.log",
          msgPath flags +:+ fmt04d k +:+ ".2.log")
  else ("", "").

(** The tournament as the specification words it: the matches of a list
    of pairings, one after the other and nothing else, the first player
    of each pairing moving first; [k] matches were played before, so the
    next one is match number k + 1. *)
Fixpoint playSchedule {State Move : Type} {GS : GameState State Move} {G : Game State Move}
    (w : World) (flags : Flags) (fuel : nat) (commands : list string)
    (pairs : list (Z * Z)) (k : Z) : M (list Result) :=
  match pairs with
  | [] => ret []
  | (i, j) :: pairs' =>
      match index commands i, index commands j with
      | Some ci, Some cj =>
          res <- runMatch w fuel (i, j) (ci, cj)
                   (logFileOf flags (k + 1)) (msgFilesOf flags (k + 1)) ;;
          rest <- playSchedule w flags fuel commands pairs' (k + 1) ;;
          ret (res :: rest)
      | _, _ => panic indexOutOfRange
      end
  end.

(** The pairs of first mover [i]. *)
Definition pairingsOf (n i : Z) : list (Z * Z) :=
  flat_map (fun j => if i =? j then [] else [(i, j)]) (seqZ 0 n).

(** Whether player [p] plays in a pairing. *)
Definition involves (p : Z) (pr : Z * Z) : bool :=
  (fst pr =? p) || (snd pr =? p).

(** m[i][j] *)
Definition index2 {A} (m : list (list A)) (i j : Z) : option A :=
  row ← index m i; index row j.

(** [a] may stand before [b] in a slice sorted by Less. *)
Definition notAfter (a b : IntPair) : Prop := Less b a = false.

(** The pairs of lines 403-406. *)
Definition pointPairs (tps : list Z) : list IntPair :=
  imap (fun i tp => {| first := tp; second := - Z.of_nat i |}) tps.

(** Whether player [p] played in the match of a result. *)
Definition takesPart (p : Z) (r : Result) : bool := involves p (player r).

(** The time a player used in all its games, as the specification words
    it: the elapsed times of the player's sides, added up in the order
    of the results. *)
Definition addElapsed (p : Z) (acc : float) (r : Result) : float :=
  let acc := if fst (player r) =? p then PrimFloat.add acc (fst (time r)) else acc in
  if snd (player r) =? p then PrimFloat.add acc (snd (time r)) else acc.

Definition elapsedOf (p : Z) (results : list Result) : float :=
  fold_left (addElapsed p) results 0%float.

(** The events of runPlayer that the properties single out. *)
Definition isStart (e : Event) : bool :=
  match e with EvStart _ _ => true | _ => false end.

Definition isCreate (e : Event) : bool :=
  match e with EvCreate _ _ => true | _ => false end.

(** The lines of the game that pass through the pipes of player [p]: a
    read from it, a move written to it. *)
Definition isExchange (p : Slot) (e : Event) : bool :=
  match e with
  | EvRead q _ _ => bool_decide (q = p)
  | EvWrite SiteMove q _ _ => bool_decide (q = p)
  | _ => false
  end.

Definition isDiag (e : Event) : bool :=
  match e with EvDiag _ => true | _ => false end.

(** The pipes of each slot are its own, or nil. *)
Definition ownPipes {State : Type} (st : MatchState State) : Prop :=
  forall i,
    (get i (readers st) = None \/ get i (readers st) = Some i) /\
    (get i (writers st) = None \/ get i (writers st) = Some i).

Definition isRead (e : Event) : bool :=
  match e with EvRead _ _ _ => true | _ => false end.

(** The clock of player [p]: the seconds a read from it took are added
    to its time. *)
Definition tick (p : Slot) (t : float) (e : Event) : float :=
  match e with
  | EvRead q _ ns =>
      if bool_decide (q = p)
      then PrimFloat.add t (PrimFloat.div (float64_of_int ns) 1e9%float) else t
  | _ => t
  end.

(** When [m] returns it has added events to the history, and none that
    is a read. *)
Definition addsNoRead {A} (m : M A) : Prop :=
  forall tr a tr', m tr = Done a tr' ->
    exists d, tr' = tr ++ d /\ Forall (fun e => isRead e = false) d.

(** For each player that has not failed its pipes are there. *)
Definition ready {State : Type} (st : MatchState State) : Prop :=
  forall i, get i (failed (result st)) = false ->
    get i (readers st) = Some i /\ get i (writers st) = Some i.

(** The sum of [f] over the sides of the results that player [k] played. *)
Definition tally (f : Result -> Slot -> Z) (k : Z) (results : list Result) : Z :=
  foldr (fun r acc =>
           (if get S0 (player r) =? k then f r S0 else 0) +
           (if get S1 (player r) =? k then f r S1 else 0) + acc) 0 results.

Definition wonSide (r : Result) (i : Slot) : Z :=
  if get i (score r) >? get (other i) (score r) then 1 else 0.
Definition tiedSide (r : Result) (i : Slot) : Z :=
  if get i (score r) =? get (other i) (score r) then 1 else 0.
Definition lostSide (r : Result) (i : Slot) : Z :=
  if get i (score r) <? get (other i) (score r) then 1 else 0.
Definition failedSide (r : Result) (i : Slot) : Z :=
  if get i (failed r) then 1 else 0.
Definition pointsSide (r : Result) (i : Slot) : Z := get i (points r).
Definition anySide (r : Result) (i : Slot) : Z := 1.

(** The slices of the statistics have one entry for each of [n] players. *)
Definition sized (n : nat) (s : Standings) : Prop :=
  length (totalPoints s) = n /\ length (gamesWon s) = n /\
  length (gamesTied s) = n /\ length (gamesLost s) = n /\
  length (gamesFailed s) = n /\ length (timeUsed s) = n /\
  length (timeMax s) = n /\
  (length (winLoss s) = n /\ Forall (fun row => length row = n) (winLoss s)) /\
  (length (pairScore s) = n /\ Forall (fun row => length row = n) (pairScore s)).

(** The sum of [f] over the sides that player [k] played against [opp]. *)
Definition tally2 (f : Result -> Slot -> Z) (k opp : Z) (results : list Result) : Z :=
  foldr (fun r acc =>
           (if (get S0 (player r) =? k) && (get S1 (player r) =? opp)
            then f r S0 else 0) +
           (if (get S1 (player r) =? k) && (get S0 (player r) =? opp)
            then f r S1 else 0) + acc) 0 results.

Definition sumZ (l : list Z) : Z := foldr Z.add 0 l.

(** The files the arbiter tried to make, in the order of the tries. *)
Definition createdPaths (d : list Event) : list string :=
  omap (fun e => match e with EvCreate path _ => Some path | _ => None end) d.

Definition isWait (e : Event) : bool :=
  match e with EvWait _ => true | _ => false end.

(** The events of the loop of a match. *)
Definition isPlay (e : Event) : bool :=
  match e with
  | EvRand _ _ | EvRead _ _ _ | EvWrite SiteMove _ _ _ | EvDiag _ => true
  | _ => false
  end.

(** The message file of a player, as runPlayer makes it. *)
Definition msgFile (path : string) : list string :=
  if String.eqb path "-" || String.eqb path "" then [] else [path].

(** The files of match number [k] of a tournament: the message files of
    its two players, then its log. *)
Definition filesOf (flags : Flags) (k : Z) : list string :=
  (if negb (String.eqb (msgPath flags) "") && negb (String.eqb (msgPath flags) "-")
   then [msgPath flags +:+ fmt04d k +:+ ".1.log"; msgPath flags +:+ fmt04d k +:+ ".2.log"]
   else []) ++
  (if negb (String.eqb (logPath flags) "") then [logPath flags +:+ fmt04d k +:+ ".log"]
   else []).

(** What the history of a match shows of its files and processes. *)
Definition matchEvents (logFile : string) (msgFiles : arr2 string) (d : list Event) : Prop :=
  createdPaths d =
    msgFile (get S0 msgFiles) ++ msgFile (get S1 msgFiles) ++
    (if String.eqb logFile "" then [] else [logFile]) /\
  (exists c0 c1, List.filter isStart d = [EvStart c0 true; EvStart c1 true]) /\
  List.filter isWait d = [EvWait S0; EvWait S1].

(** ** More examples *)

(** An engine that breaks the contract: its state [true] lists no move,
    its state [false] lists a move and rejects it. *)
Definition brokenState : GameState bool Z := {|
  Over := fun _ => false;
  Next := fun _ => 0;
  ListMoves := fun b : bool => if b then [] else [1];
  Execute := fun b _ => (b, false);
  Scores := fun _ => (0, 0)
|}.

Definition brokenGame : Game bool Z := {|
  CreateState := true;
  ParseMove := fun _ => None;
  MoveString := fun _ => "1"
|}.

(** An engine that lists its one move while the game is not over, and
    accepts it, but ends the game also when it rejects a move: its state
    is whether the game is over. *)
Definition hastyState : GameState bool Z := {|
  Over := fun b => b;
  Next := fun _ => 0;
  ListMoves := fun b : bool => if b then [] else [0];
  Execute := fun _ m => (true, m =? 0);
  Scores := fun _ => (0, 0)
|}.

Definition hastyGame : Game bool Z := {|
  CreateState := false;
  ParseMove := fun line => if String.eqb line "1" then Some 1 else None;
  MoveString := fun _ => "0"
|}.

(** Both players started, nothing played yet. *)
Definition started {State : Type} (gs : State) (ov : bool) : MatchState State := {|
  result := newResult (0, 1);
  cmds := (Some S0, Some S1);
  readers := (Some S0, Some S1);
  writers := (Some S0, Some S1);
  gamestate := gs;
  over := ov
|}.

(** Nim after the first player took one stone. *)
Definition nimSecondTurn : MatchState Nim :=
  started {| stones := 2; toMove := S1; lastMover := Some S0 |} false.

Definition nimStart : MatchState Nim :=
  started {| stones := 3; toMove := S0; lastMover := None |} false.

Definition demoCommands : arr2 string := ("a", "b").

Definition demoPlayers2 : list string := ["a"; "b"].

Definition brokenTurn (listsNothing : bool) : MatchState bool :=
  with_result (set_failed (true, false)) (started listsNothing false).

Definition threePlayers : list string := ["a"; "b"; "c"].

Definition demoStandings : Standings := {|
  totalPoints := [3; 5; 3; 7; 5];
  gamesWon := []; gamesTied := []; gamesLost := []; gamesFailed := [];
  timeUsed := []; timeMax := []; winLoss := []; pairScore := []
|}.

Definition fivePlayers : list string := ["a"; "b"; "c"; "d"; "e"].

(** The second player failed at some point; nothing played yet. *)
Definition nimFailedSecond : MatchState Nim :=
  with_result (set_failed (false, true)) nimStart.

(** Three results of two players: a win for each, and a tie in which the
    second player failed. *)
Definition demoResults : list Result :=
  [ {| player := (0, 1); score := (1, 0); failed := (false, false);
       points := (2, 1); time := (0%float, 0%float) |};
    {| player := (1, 0); score := (1, 0); failed := (false, false);
       points := (2, 1); time := (0%float, 0%float) |};
    {| player := (0, 1); score := (0, 0); failed := (false, true);
       points := (1, 0); time := (0%float, 0%float) |} ].

Definition longCommand : string := "./players/monte-carlo --seed 7 --threads 4".

(** Logs and message files are kept, under log/ and msg/. *)
Definition keptFlags : Flags := {| quiet := true; logPath := "log/"; msgPath := "msg/" |}.

(** * Properties *)

(** ** The monad *)

Lemma bind_done {A B} (m : M A) (k : A -> M B) tr b tr' :
  bind m k tr = Done b tr' ->
  exists a tr1, m tr = Done a tr1 /\ k a tr1 = Done b tr'.
Proof.
  unfold bind. destruct (m tr) as [a tr1|msg tr1|tr1]; intros Hk; try discriminate.
  exists a, tr1. split; [reflexivity | exact Hk].
Qed.

Lemma bind_eq_done {A B} (m : M A) (k : A -> M B) tr a tr1 :
  m tr = Done a tr1 -> bind m k tr = k a tr1.
Proof. unfold bind. intros ->. reflexivity. Qed.

Lemma bind_ext_done {A B} (m : M A) (f g : A -> M B) tr :
  (forall a tr', m tr = Done a tr' -> f a tr' = g a tr') ->
  bind m f tr = bind m g tr.
Proof. intros H. unfold bind. destruct (m tr); auto. Qed.

Lemma bind_eq_l {A B} (m m' : M A) (f : A -> M B) tr :
  m tr = m' tr -> bind m f tr = bind m' f tr.
Proof. unfold bind. intros ->. reflexivity. Qed.

Lemma bind_ret_l {A B} (a : A) (f : A -> M B) tr : bind (ret a) f tr = f a tr.
Proof. reflexivity. Qed.

Lemma bind_ret_r {A} (m : M A) tr : bind m ret tr = m tr.
Proof. unfold bind, ret. destruct (m tr); reflexivity. Qed.

Lemma bind_assoc {A B C} (m : M A) (f : A -> M B) (g : B -> M C) tr :
  bind (bind m f) g tr = bind m (fun a => bind (f a) g) tr.
Proof. unfold bind. destruct (m tr); reflexivity. Qed.

Ltac inv_bind H :=
  let a := fresh "a" in
  let tr := fresh "tr" in
  let Hm := fresh "Hm" in
  apply bind_done in H as (a & tr & Hm & H).

Ltac inv_ret H := unfold ret in H; cbv beta in H; injection H as ? ?; subst.

(** ** Arrays of length two *)

Lemma get_set_same {A} (p : Slot) (x : A) (a : arr2 A) : get p (set p x a) = x.
Proof. destruct p; reflexivity. Qed.

Lemma get_set_other {A} (p : Slot) (x : A) (a : arr2 A) :
  get (other p) (set p x a) = get (other p) a.
Proof. destruct p; reflexivity. Qed.

Lemma get_set {A} (p q : Slot) (x : A) (a : arr2 A) :
  get q (set p x a) = if decide (q = p) then x else get q a.
Proof. destruct p, q; reflexivity. Qed.

Lemma other_neq p : other p <> p.
Proof. destruct p; discriminate. Qed.


(** ** What a pass of the loop leaves alone *)

Section MatchFacts.

Context (w : World).
Context {State Move : Type} {GS : GameState State Move} {G : Game State Move}.

Lemma evolves_refl (st : MatchState State) : evolves st st.
Proof. unfold evolves. auto 10. Qed.

Lemma evolves_trans (st1 st2 st3 : MatchState State) :
  evolves st1 st2 -> evolves st2 st3 -> evolves st1 st3.
Proof.
  unfold evolves. intros (?&?&?&?&?&?&?) (?&?&?&?&?&?&?).
  repeat split; try congruence. auto.
Qed.

Lemma evolves_markFailed i (st : MatchState State) : evolves st (markFailed i st).
Proof.
  unfold evolves, markFailed, with_result; simpl. repeat split; auto.
  intros j Hj. rewrite get_set. case_decide; auto.
Qed.

Lemma evolves_addTime p ns (st : MatchState State) : evolves st (addTime p ns st).
Proof. unfold evolves, addTime, with_result; simpl. auto 10. Qed.

Lemma evolves_with_game gs ov (st : MatchState State) : evolves st (with_game gs ov st).
Proof. unfold evolves, with_game; simpl. auto 10. Qed.

Create HintDb evolves.
Hint Resolve evolves_refl evolves_markFailed evolves_addTime evolves_with_game : evolves.

Lemma fallbackMove_evolves (st : MatchState State) tr r tr' :
  fallbackMove w st tr = Done r tr' -> evolves st (fst r).
Proof.
  unfold fallbackMove. intros H. inv_bind H.
  destruct (ListMoves (gamestate st) !! Z.to_nat a) as [move|]; [|discriminate].
  destruct (negb (snd (Execute (gamestate st) move))); [discriminate|].
  inv_ret H. simpl. auto with evolves.
Qed.

Lemma clientMove_evolves commands p (st : MatchState State) tr r tr' :
  clientMove w commands p st tr = Done r tr' -> evolves st (fst r).
Proof.
  unfold clientMove. intros H. inv_bind H.
  assert (Ht : evolves st (addTime p (snd a) st)) by auto with evolves.
  destruct (fst a) as [line|].
  - destruct (ParseMove (dropLast line)) as [move|].
    + destruct (negb (snd (Execute (gamestate (addTime p (snd a) st)) move))).
      * inv_bind H. inv_ret H. simpl.
        eapply evolves_trans; [exact Ht|].
        eapply evolves_trans; [apply evolves_with_game|apply evolves_markFailed].
      * inv_ret H. simpl. eapply evolves_trans; [exact Ht|apply evolves_with_game].
    + inv_bind H. inv_ret H. simpl.
      eapply evolves_trans; [exact Ht|apply evolves_markFailed].
  - inv_bind H. inv_ret H. simpl.
    eapply evolves_trans; [exact Ht|apply evolves_markFailed].
Qed.

Lemma forwardMove_evolves commands p moveStr (st st' : MatchState State) tr tr' :
  forwardMove w commands p moveStr st tr = Done st' tr' -> evolves st st'.
Proof.
  unfold forwardMove. intros H.
  destruct (_ && _).
  - inv_bind H. destruct a.
    + inv_ret H. apply evolves_refl.
    + inv_bind H. inv_ret H. apply evolves_markFailed.
  - inv_ret H. apply evolves_refl.
Qed.

Lemma turn_evolves commands (st st' : MatchState State) tr tr' :
  turn w commands st tr = Done st' tr' -> evolves st st'.
Proof.
  unfold turn. intros H.
  destruct (slot_of_int (Next (gamestate st))) as [p|]; [|discriminate].
  inv_bind H. apply forwardMove_evolves in H.
  eapply evolves_trans; [|exact H].
  destruct (get p (failed (result st))).
  - eapply fallbackMove_evolves; eauto.
  - eapply clientMove_evolves; eauto.
Qed.

Lemma loop_evolves fuel commands (st st' : MatchState State) tr tr' :
  loop w fuel commands st tr = Done st' tr' -> evolves st st' /\ over st' = true.
Proof.
  revert st tr. induction fuel as [|fuel IH]; intros st tr H; simpl in H.
  - destruct (over st) eqn:Hov; [|discriminate]. inv_ret H. split; [apply evolves_refl|done].
  - destruct (over st) eqn:Hov.
    + inv_ret H. split; [apply evolves_refl|done].
    + inv_bind H. apply turn_evolves in Hm. apply IH in H as [H ?].
      split; [eapply evolves_trans; eauto|done].
Qed.

Lemma passes_evolves n commands (st st' : MatchState State) tr tr' :
  passes w n commands st tr = Done st' tr' -> evolves st st'.
Proof.
  revert st tr. induction n as [|n IH]; intros st tr H; simpl in H.
  - inv_ret H. apply evolves_refl.
  - destruct (over st).
    + inv_ret H. apply evolves_refl.
    + inv_bind H. apply turn_evolves in Hm. apply IH in H.
      eapply evolves_trans; eauto.
Qed.

(** Starting the players leaves points, scores and the players' indices
    as they were. *)
Lemma startPlayer_result commands msgPath i (st st' : MatchState State) tr tr' :
  startPlayer w commands msgPath i st tr = Done st' tr' ->
  player (result st') = player (result st) /\
  score (result st') = score (result st) /\
  points (result st') = points (result st) /\
  gamestate st' = gamestate st /\ over st' = over st.
Proof.
  unfold startPlayer. intros H. inv_bind H. destruct a as [err|cmd].
  - inv_bind H. inv_ret H. simpl. auto.
  - destruct i.
    + inv_bind H. inv_ret H. simpl. auto.
    + inv_ret H. simpl. auto.
Qed.

Lemma startPlayers_result commands msgPath (st st' : MatchState State) tr tr' :
  startPlayers w commands msgPath st tr = Done st' tr' ->
  player (result st') = player (result st) /\
  score (result st') = score (result st) /\
  points (result st') = points (result st) /\
  gamestate st' = gamestate st /\ over st' = over st.
Proof.
  unfold startPlayers. intros H. inv_bind H.
  apply startPlayer_result in Hm as (?&?&?&?&?).
  apply startPlayer_result in H as (?&?&?&?&?).
  repeat split; congruence.
Qed.

(** ** Competition points *)

Lemma competitionPoints_spec r :
  points r = (0, 0) ->
  player (competitionPoints r) = player r /\
  score (competitionPoints r) = score r /\
  failed (competitionPoints r) = failed r /\
  time (competitionPoints r) = time r /\
  forall i, get i (points (competitionPoints r)) =
    if get i (failed r) then 0
    else 1 + (if get i (score r) >? get (other i) (score r) then 1 else 0).
Proof.
  destruct r as [pl [s0 s1] [f0 f1] pts tm]. simpl. intros ->.
  unfold competitionPoints, pointsFor; cbn.
  destruct f0, f1; destruct (s0 >? s1) eqn:E0; destruct (s1 >? s0) eqn:E1; cbn;
    rewrite ?E0, ?E1; cbn;
    (do 4 (split; [reflexivity|])); intros []; cbn; rewrite ?E0, ?E1; reflexivity.
Qed.

(** What runMatch returns, in terms of the state its loop ends in. *)
Lemma runMatch_done fuel players commands logPath msgPath tr r tr' :
  runMatch w fuel players commands logPath msgPath tr = Done r tr' ->
  exists st0 tr0 st tr1,
    startPlayers w commands msgPath (initialState players) tr = Done st0 tr0 /\
    loop w fuel commands st0 tr0 = Done st tr1 /\
    points (result st) = (0, 0) /\
    player (result st) = players /\
    r = competitionPoints (set_score (Scores (gamestate st)) (result st)).
Proof.
  unfold runMatch. intros H. inv_bind H. rename a into st0, tr0 into tr0', Hm into Hstart.
  inv_bind H. rename a into st, Hm into Hloop.
  inv_bind H. inv_bind H. inv_ret H.
  exists st0, tr0', st, tr0. repeat split; auto.
  - apply loop_evolves in Hloop as [(?&?&?&?&?&Hp&?) _].
    apply startPlayers_result in Hstart as (?&?&Hp0&?&?).
    rewrite Hp, Hp0. reflexivity.
  - apply loop_evolves in Hloop as [(?&?&?&Hp&?&?&?) _].
    apply startPlayers_result in Hstart as (Hp0&?&?&?&?).
    rewrite Hp, Hp0. reflexivity.
Qed.

(** C1.  In every result runMatch returns, a player whose failed flag is
    set has 0 competition points, and a player who did not fail has 1
    point, plus 1 more exactly when its final score is strictly greater
    than the opponent's; with equal scores neither side has the bonus. *)
Theorem C1_competition_points fuel players commands logPath msgPath tr r tr' :
  runMatch w fuel players commands logPath msgPath tr = Done r tr' ->
  (forall i, get i (failed r) = true -> get i (points r) = 0) /\
  (forall i, get i (failed r) = false ->
     (get i (score r) > get (other i) (score r) -> get i (points r) = 2) /\
     (get i (score r) <= get (other i) (score r) -> get i (points r) = 1)) /\
  (get S0 (score r) = get S1 (score r) ->
     forall i, get i (points r) = 0 \/ get i (points r) = 1).
Proof.
  intros H. apply runMatch_done in H as (st0 & tr0 & st & tr1 & _ & _ & Hp & _ & ->).
  pose proof (competitionPoints_spec (set_score (Scores (gamestate st)) (result st)) Hp)
    as (_ & Hs & Hf & _ & Hpts).
  simpl in *. rewrite Hs, Hf. simpl.
  split; [|split].
  - intros i Hi. rewrite Hpts, Hi. reflexivity.
  - intros i Hi. rewrite Hpts, Hi. split; intros Hc.
    + rewrite (proj2 (Z.gtb_gt _ _)) by lia. reflexivity.
    + destruct (_ >? _) eqn:E; [apply Z.gtb_gt in E; lia|reflexivity].
  - intros Heq i. rewrite Hpts. destruct (get i (failed (result st))); [auto|].
    right. destruct (_ >? _) eqn:E; [|reflexivity].
    apply Z.gtb_gt in E. destruct i; simpl in *; lia.
Qed.

End MatchFacts.

(** ** Reading a line *)

Lemma substring_all_append s t :
  String.substring 0 (String.length s) (s +:+ t) = s.
Proof.
  induction s as [|c s IH]; simpl.
  - destruct t; reflexivity.
  - rewrite IH. reflexivity.
Qed.

Lemma length_append s t :
  String.length (s +:+ t) = (String.length s + String.length t)%nat.
Proof. induction s as [|c s IH]; simpl; [reflexivity|]. rewrite IH. reflexivity. Qed.

(** Stripping the newline of a line read gives back its text. *)
Lemma dropLast_newline body : dropLast (body +:+ newline) = body.
Proof.
  unfold dropLast. rewrite length_append. simpl.
  replace (Nat.pred (String.length body + 1)) with (String.length body) by lia.
  apply substring_all_append.
Qed.

Section TurnFacts.

Context (w : World).
Context {State Move : Type} {GS : GameState State Move} {G : Game State Move}.

(** The four ways a client's turn can go, lines 150-169. *)
Lemma clientMove_cases commands p q (st : MatchState State) tr :
  get p (readers st) = Some q ->
  clientMove w commands p st tr =
  let ns := elapsed w tr in
  let st_t := addTime p ns st in
  let tr_r := tr ++ [EvRead q (option_map (fun b => b +:+ newline) (pipeRead w tr q)) ns] in
  match pipeRead w tr q with
  | None =>
      Done (markFailed p st_t, "") (tr_r ++ [EvDiag (FailedToRead (get p commands))])
  | Some body =>
      match ParseMove body with
      | None =>
          Done (markFailed p st_t, "")
               (tr_r ++ [EvDiag (CouldNotParse (get p commands) body)])
      | Some move =>
          let ex := Execute (gamestate st) move in
          if snd ex then
            Done (with_game (fst ex) (Over (fst ex)) st_t, MoveString move) tr_r
          else
            Done (markFailed p (with_game (fst ex) (over st) st_t), "")
                 (tr_r ++ [EvDiag (InvalidMove (get p commands) body)])
      end
  end.
Proof.
  intros Hrd. unfold clientMove, ReadString. rewrite Hrd.
  unfold bind at 1. cbv beta iota zeta. cbn [fst snd].
  destruct (pipeRead w tr q) as [body|]; cbn [option_map]; [|reflexivity].
  rewrite dropLast_newline.
  destruct (ParseMove body) as [move|]; [|reflexivity].
  cbn [gamestate addTime with_result].
  destruct (snd (Execute (gamestate st) move)); reflexivity.
Qed.

Lemma clientMove_nil_reader commands p (st : MatchState State) tr :
  get p (readers st) = None ->
  clientMove w commands p st tr = Panic nilDeref tr.
Proof. intros Hrd. unfold clientMove, ReadString. rewrite Hrd. reflexivity. Qed.

(** The fallback move under the engine's contract, lines 141-148: the
    move listed at the index drawn is applied. *)
Lemma fallbackMove_contract `{!EngineContract State Move} (st : MatchState State) tr :
  Over (gamestate st) = false ->
  let moves := ListMoves (gamestate st) in
  let n := Z.of_nat (length moves) in
  let k := random w tr `mod` n in
  exists move,
    moves !! Z.to_nat k = Some move /\
    snd (Execute (gamestate st) move) = true /\
    fallbackMove w st tr =
    Done (with_game (fst (Execute (gamestate st) move))
                    (Over (fst (Execute (gamestate st) move))) st, MoveString move)
         (tr ++ [EvRand n k]).
Proof.
  intros Hov moves n k.
  pose proof (moves_nonempty _ Hov) as Hne. fold moves in Hne.
  assert (Hn : 0 < n) by (subst n; destruct moves; [done|simpl; lia]).
  assert (Hk : 0 <= k < n) by (subst k; apply Z.mod_pos_bound; lia).
  destruct (moves !! Z.to_nat k) as [move|] eqn:Hlk.
  2: { apply lookup_ge_None in Hlk. lia. }
  exists move. split; [reflexivity|].
  assert (Hacc : snd (Execute (gamestate st) move) = true).
  { apply listed_accepted; [exact Hov|].
    apply list_elem_of_In. eapply list_elem_of_lookup_2. exact Hlk. }
  split; [exact Hacc|].
  unfold fallbackMove, Intn. fold moves. fold n.
  destruct (n <=? 0) eqn:E; [apply Z.leb_le in E; lia|].
  unfold bind at 1, ask. cbn. fold k. rewrite Hlk, Hacc. reflexivity.
Qed.

(** The same of one state, from what the engine does there: some move
    is listed, and the listed moves are accepted. *)
Lemma fallbackMove_listed (st : MatchState State) tr :
  ListMoves (gamestate st) <> [] ->
  (forall m, In m (ListMoves (gamestate st)) -> snd (Execute (gamestate st) m) = true) ->
  let moves := ListMoves (gamestate st) in
  let n := Z.of_nat (length moves) in
  let k := random w tr `mod` n in
  exists move,
    moves !! Z.to_nat k = Some move /\
    snd (Execute (gamestate st) move) = true /\
    fallbackMove w st tr =
    Done (with_game (fst (Execute (gamestate st) move))
                    (Over (fst (Execute (gamestate st) move))) st, MoveString move)
         (tr ++ [EvRand n k]).
Proof.
  intros Hne Haccept moves n k. fold moves in Hne.
  assert (Hn : 0 < n) by (subst n; destruct moves; [done|simpl; lia]).
  assert (Hk : 0 <= k < n) by (subst k; apply Z.mod_pos_bound; lia).
  destruct (moves !! Z.to_nat k) as [move|] eqn:Hlk.
  2: { apply lookup_ge_None in Hlk. lia. }
  exists move. split; [reflexivity|].
  assert (Hacc : snd (Execute (gamestate st) move) = true).
  { apply Haccept. apply list_elem_of_In. eapply list_elem_of_lookup_2. exact Hlk. }
  split; [exact Hacc|].
  unfold fallbackMove, Intn. fold moves. fold n.
  destruct (n <=? 0) eqn:E; [apply Z.leb_le in E; lia|].
  unfold bind at 1, ask. cbn. fold k. rewrite Hlk, Hacc. reflexivity.
Qed.

(** Lines 171-176 when there is nothing to pass on. *)
Lemma forwardMove_nothing commands p (st : MatchState State) tr :
  forwardMove w commands p "" st tr = Done st tr.
Proof. reflexivity. Qed.

(** Under the contract the variable [over] is what the engine says. *)
Lemma turn_over `{!EngineContract State Move} commands (st st' : MatchState State) tr tr' :
  over st = Over (gamestate st) ->
  turn w commands st tr = Done st' tr' ->
  over st' = Over (gamestate st').
Proof.
  intros Hinv H. unfold turn in H.
  destruct (slot_of_int (Next (gamestate st))) as [p|]; [|discriminate].
  inv_bind H.
  assert (Ha : over (fst a) = Over (gamestate (fst a))).
  { destruct (get p (failed (result st))).
    - unfold fallbackMove in Hm. inv_bind Hm.
      destruct (ListMoves (gamestate st) !! Z.to_nat a0); [|discriminate].
      destruct (negb _); [discriminate|]. inv_ret Hm. reflexivity.
    - destruct (get p (readers st)) as [q|] eqn:Hrd.
      2: { rewrite clientMove_nil_reader in Hm by done. discriminate. }
      rewrite (clientMove_cases commands p q st tr Hrd) in Hm. cbv zeta in Hm.
      destruct (pipeRead w tr q) as [body|].
      + destruct (ParseMove body) as [move|].
        * destruct (snd (Execute (gamestate st) move)) eqn:Hex.
          -- inv_ret Hm. reflexivity.
          -- inv_ret Hm. cbn.
             rewrite (rejected_unchanged _ _ Hex). exact Hinv.
        * inv_ret Hm. exact Hinv.
      + inv_ret Hm. exact Hinv. }
  unfold forwardMove in H. destruct (_ && _).
  - inv_bind H. destruct a0.
    + inv_ret H. exact Ha.
    + inv_bind H. inv_ret H. exact Ha.
  - inv_ret H. exact Ha.
Qed.

End TurnFacts.

Section FailureProtocol.

Context (w : World).
Context {State Move : Type} {GS : GameState State Move} {G : Game State Move}.

Lemma passes_over `{!EngineContract State Move} n commands (st st' : MatchState State) tr tr' :
  over st = Over (gamestate st) ->
  passes w n commands st tr = Done st' tr' ->
  over st' = Over (gamestate st').
Proof.
  revert st tr. induction n as [|n IH]; intros st tr Hinv H; simpl in H.
  - inv_ret H. exact Hinv.
  - destruct (over st) eqn:Hov.
    + inv_ret H. congruence.
    + inv_bind H. apply (IH a tr0); [|exact H].
      apply (turn_over w commands st a tr tr0); [congruence|exact Hm].
Qed.

(** Under the contract this holds in every state the loop of a match
    reaches. *)
Lemma match_states_over `{!EngineContract State Move} players commands msgPath n
    (st0 st : MatchState State) tr tr0 tr1 :
  startPlayers w commands msgPath (initialState players) tr = Done st0 tr0 ->
  passes w n commands st0 tr0 = Done st tr1 ->
  over st = Over (gamestate st).
Proof.
  intros Hstart Hpasses.
  apply startPlayers_result in Hstart as (_ & _ & _ & Hgs & Hov).
  apply (passes_over n commands st0 st tr0 tr1); [|exact Hpasses].
  rewrite Hov, Hgs. reflexivity.
Qed.

(** Passing a move on never touches the mover's own flag, the game or
    the variable [over]. *)
Lemma forwardMove_frame commands p moveStr (st st' : MatchState State) tr tr' :
  forwardMove w commands p moveStr st tr = Done st' tr' ->
  get p (failed (result st')) = get p (failed (result st)) /\
  gamestate st' = gamestate st /\ over st' = over st.
Proof.
  unfold forwardMove. intros H. destruct (_ && _).
  - inv_bind H. destruct a.
    + inv_ret H. auto.
    + inv_bind H. inv_ret H. cbn. split; [|auto].
      rewrite get_set. case_decide as E; [|reflexivity].
      symmetry in E. destruct (other_neq _ E).
  - inv_ret H. auto.
Qed.

(** A turn of a player that failed before, under the contract: the move
    listed at the index drawn is applied, then passed on. *)
Lemma turn_fallback `{!EngineContract State Move} commands p (st : MatchState State) tr :
  over st = Over (gamestate st) -> over st = false ->
  slot_of_int (Next (gamestate st)) = Some p ->
  get p (failed (result st)) = true ->
  let moves := ListMoves (gamestate st) in
  let n := Z.of_nat (length moves) in
  let k := random w tr `mod` n in
  exists move,
    moves !! Z.to_nat k = Some move /\
    snd (Execute (gamestate st) move) = true /\
    turn w commands st tr =
    forwardMove w commands p (MoveString move)
      (with_game (fst (Execute (gamestate st) move))
                 (Over (fst (Execute (gamestate st) move))) st)
      (tr ++ [EvRand n k]).
Proof.
  intros Hinv Hov Hp Hf moves n k.
  destruct (fallbackMove_contract w st tr) as (move & Hlk & Hacc & Hfb); [congruence|].
  exists move. split; [exact Hlk|]. split; [exact Hacc|].
  unfold turn. rewrite Hp, Hf. erewrite bind_eq_done by exact Hfb. reflexivity.
Qed.


End FailureProtocol.

Section AbortAndForward.

Context (w : World).
Context {State Move : Type} {GS : GameState State Move} {G : Game State Move}.


(** In the loop of a match, under the engine's contract, the only panic
    left is a call through nil. *)
Lemma turn_panic_nil `{!EngineContract State Move} commands (st : MatchState State) tr msg tr' :
  over st = Over (gamestate st) -> over st = false ->
  turn w commands st tr = Panic msg tr' -> msg = nilDeref.
Proof.
  intros Hinv Hov H.
  assert (HforwardP : forall p s (st1 : MatchState State) tr1,
            forwardMove w commands p s st1 tr1 = Panic msg tr' -> msg = nilDeref).
  { intros p s st1 tr1 Hfw. unfold forwardMove in Hfw.
    destruct (_ && _); [|discriminate].
    unfold bind, Fprintln in Hfw.
    destruct (get (other p) (writers st1)).
    - unfold ask in Hfw. destruct (pipeWrite w tr1 s0 s); discriminate.
    - unfold panic in Hfw. congruence. }
  destruct (next_in_range (gamestate st)) as [H0|H1]; [congruence| |].
  - assert (Hp : slot_of_int (Next (gamestate st)) = Some S0) by (rewrite H0; reflexivity).
    destruct (get S0 (failed (result st))) eqn:Hf.
    + destruct (turn_fallback w commands S0 st tr Hinv Hov Hp Hf) as (mv & _ & _ & Heq).
      rewrite Heq in H. eapply HforwardP; eauto.
    + unfold turn in H. rewrite Hp, Hf in H. unfold bind in H.
      destruct (clientMove w commands S0 st tr) as [a tr1|m1 tr1|tr1] eqn:Hc.
      * eapply HforwardP; eauto.
      * destruct (get S0 (readers st)) as [q|] eqn:Hrd.
        -- rewrite (clientMove_cases w commands S0 q st tr Hrd) in Hc. cbv zeta in Hc.
           repeat case_match; discriminate.
        -- rewrite clientMove_nil_reader in Hc by done. congruence.
      * discriminate.
  - assert (Hp : slot_of_int (Next (gamestate st)) = Some S1) by (rewrite H1; reflexivity).
    destruct (get S1 (failed (result st))) eqn:Hf.
    + destruct (turn_fallback w commands S1 st tr Hinv Hov Hp Hf) as (mv & _ & _ & Heq).
      rewrite Heq in H. eapply HforwardP; eauto.
    + unfold turn in H. rewrite Hp, Hf in H. unfold bind in H.
      destruct (clientMove w commands S1 st tr) as [a tr1|m1 tr1|tr1] eqn:Hc.
      * eapply HforwardP; eauto.
      * destruct (get S1 (readers st)) as [q|] eqn:Hrd.
        -- rewrite (clientMove_cases w commands S1 q st tr Hrd) in Hc. cbv zeta in Hc.
           repeat case_match; discriminate.
        -- rewrite clientMove_nil_reader in Hc by done. congruence.
      * discriminate.
Qed.

Lemma loop_panic_nil `{!EngineContract State Move} fuel commands (st : MatchState State) tr msg tr' :
  over st = Over (gamestate st) ->
  loop w fuel commands st tr = Panic msg tr' -> msg = nilDeref.
Proof.
  revert st tr. induction fuel as [|fuel IH]; intros st tr Hinv H; simpl in H.
  - destruct (over st); discriminate.
  - destruct (over st) eqn:Hov; [discriminate|].
    unfold bind in H.
    destruct (turn w commands st tr) as [st1 tr1|m1 tr1|tr1] eqn:Hturn.
    + apply (IH st1 tr1); [|exact H].
      apply (turn_over w commands st st1 tr tr1); [congruence|exact Hturn].
    + injection H as -> ->.
      apply (turn_panic_nil commands st tr msg tr'); [congruence|exact Hov|exact Hturn].
    + discriminate.
Qed.

(** C6.  A turn in which a move was applied and its text cannot be
    written to the opponent: the opponent, whose pipe the write was for,
    is marked failed; the mover's flag is what it was; the game is the
    one the move left. *)
Theorem C6_write_failure_marks_recipient commands (st st1 : MatchState State)
    tr tr1 p q moveStr :
  slot_of_int (Next (gamestate st)) = Some p ->
  (if get p (failed (result st)) then fallbackMove w st
   else clientMove w commands p st) tr = Done (st1, moveStr) tr1 ->
  moveStr <> "" ->
  get (other p) (failed (result st1)) = false ->
  over st1 = false ->
  get (other p) (writers st1) = Some q ->
  pipeWrite w tr1 q moveStr = false ->
  exists st',
    turn w commands st tr =
    Done st' (tr1 ++ [EvWrite SiteMove q moveStr false;
                      EvDiag (CouldNotWrite (get (other p) commands))]) /\
    get (other p) (failed (result st')) = true /\
    get p (failed (result st')) = get p (failed (result st)) /\
    gamestate st' = gamestate st1 /\
    (exists move, snd (Execute (gamestate st) move) = true /\
                  gamestate st1 = fst (Execute (gamestate st) move) /\
                  moveStr = MoveString move).
Proof.
  intros Hp Hmove Hne Hof Hov Hwr Hfail.
  exists (markFailed (other p) st1).
  assert (Hturn : turn w commands st tr =
    Done (markFailed (other p) st1)
         (tr1 ++ [EvWrite SiteMove q moveStr false;
                  EvDiag (CouldNotWrite (get (other p) commands))])).
  { unfold turn. rewrite Hp. erewrite bind_eq_done by exact Hmove.
    cbn [fst snd]. unfold forwardMove.
    rewrite Hof, Hov. destruct (String.eqb moveStr "") eqn:E.
    { apply String.eqb_eq in E. contradiction. }
    cbn [negb andb]. rewrite Hwr. unfold Fprintln, ask, bind, emit, ret.
    rewrite Hfail. rewrite <- app_assoc. reflexivity. }
  split; [exact Hturn|].
  split; [cbn; apply get_set_same|].
  assert (Hmover : get p (failed (result st1)) = get p (failed (result st)) /\
    exists move, snd (Execute (gamestate st) move) = true /\
                 gamestate st1 = fst (Execute (gamestate st) move) /\
                 moveStr = MoveString move).
  { destruct (get p (failed (result st))) eqn:Hf.
    - unfold fallbackMove in Hmove. inv_bind Hmove.
      destruct (ListMoves (gamestate st) !! Z.to_nat a) as [move|]; [|discriminate].
      destruct (snd (Execute (gamestate st) move)) eqn:Hex; [|discriminate].
      cbn [negb] in Hmove. inv_ret Hmove. cbn. split; [exact Hf|].
      exists move. auto.
    - destruct (get p (readers st)) as [rd|] eqn:Hrd.
      2: { rewrite clientMove_nil_reader in Hmove by done. discriminate. }
      rewrite (clientMove_cases w commands p rd st tr Hrd) in Hmove. cbv zeta in Hmove.
      destruct (pipeRead w tr rd) as [body|]; [|inv_ret Hmove; contradiction].
      destruct (ParseMove body) as [move|]; [|inv_ret Hmove; contradiction].
      destruct (snd (Execute (gamestate st) move)) eqn:Hex;
        [|inv_ret Hmove; contradiction].
      inv_ret Hmove. cbn. split; [exact Hf|]. exists move. auto. }
  destruct Hmover as (Hsame & Hmv).
  split; [|split; [reflexivity|exact Hmv]].
  cbn. rewrite get_set. case_decide as E; [|exact Hsame].
  symmetry in E. destruct (other_neq _ E).
Qed.

End AbortAndForward.

(** ** Which events a piece of code adds to the history *)

Lemma quiet_ret {A} f (a : A) : quietOn f (ret a).
Proof. intros tr. reflexivity. Qed.

Lemma quiet_panic {A} f msg : quietOn f (@panic A msg).
Proof. intros tr. reflexivity. Qed.

Lemma quiet_outOfFuel {A} f : quietOn f (@outOfFuel A).
Proof. intros tr. reflexivity. Qed.

Lemma quiet_emit f e : f e = false -> quietOn f (emit e).
Proof.
  intros He tr. unfold emit; simpl. rewrite List.filter_app. simpl. rewrite He.
  apply app_nil_r.
Qed.

Lemma quiet_ask {A} f (oracle : Trace -> A) ev :
  (forall a, f (ev a) = false) -> quietOn f (ask oracle ev).
Proof.
  intros He tr. unfold ask; simpl. rewrite List.filter_app. simpl. rewrite He.
  apply app_nil_r.
Qed.

(** What [bind m k] adds is what [m] adds when [k] is quiet. *)
Lemma filter_bind {A B} f (m : M A) (k : A -> M B) tr :
  (forall a, quietOn f (k a)) ->
  List.filter f (traceOf (bind m k tr)) = List.filter f (traceOf (m tr)).
Proof.
  intros Hk. unfold bind. destruct (m tr) as [a tr1|msg tr1|tr1]; try reflexivity.
  apply Hk.
Qed.

Lemma quiet_bind {A B} f (m : M A) (k : A -> M B) :
  quietOn f m -> (forall a, quietOn f (k a)) -> quietOn f (bind m k).
Proof. intros Hm Hk tr. rewrite filter_bind by exact Hk. apply Hm. Qed.

Lemma notOutput_notStart e : isOutput e = false -> isStartWrite e = false.
Proof. destruct e; try reflexivity. discriminate. Qed.

Lemma notOutput_notRelease p e : isOutput e = false -> isRelease p e = false.
Proof. destruct e; try reflexivity; discriminate. Qed.

Section TraceFacts.

Context (w : World).
Context {State Move : Type} {GS : GameState State Move} {G : Game State Move}.

(** runPlayer writes to no player and never panics. *)
Lemma runPlayer_quiet f command msgPath :
  (forall e, isOutput e = false -> f e = false) ->
  quietOn f (runPlayer w command msgPath).
Proof.
  intros Hf. unfold runPlayer.
  assert (Hask : forall A (oracle : Trace -> A) ev,
            (forall a, isOutput (ev a) = false) -> quietOn f (ask oracle ev)).
  { intros A oracle ev Hev. apply quiet_ask. intros a. apply Hf, Hev. }
  destruct (Fields command) as [|arg0 argv]; [apply quiet_ret|].
  apply quiet_bind; [apply Hask; reflexivity|]. intros [name|]; [|apply quiet_ret].
  apply quiet_bind; [apply Hask; reflexivity|]. intros [dir|]; [|apply quiet_ret].
  apply quiet_bind; [apply Hask; reflexivity|]. intros [|]; [|apply quiet_ret].
  apply quiet_bind; [apply Hask; reflexivity|]. intros [|]; [|apply quiet_ret].
  cbn [negb]. apply quiet_bind.
  - destruct (String.eqb msgPath "-"); [apply quiet_ret|].
    destruct (negb (String.eqb msgPath "")); [|apply quiet_ret].
    apply quiet_bind; [apply Hask; reflexivity|]. intros [|]; [apply quiet_ret|].
    apply quiet_bind; [apply quiet_emit, Hf; reflexivity|]. intros _. apply quiet_ret.
  - intros target. apply quiet_bind; [apply Hask; reflexivity|].
    intros [|]; apply quiet_ret.
Qed.

Lemma runPlayer_done command msgPath tr :
  exists r tr', runPlayer w command msgPath tr = Done r tr'.
Proof.
  unfold runPlayer.
  destruct (Fields command) as [|arg0 argv]; [eauto|].
  unfold bind at 1, ask at 1.
  destruct (osLookPath w tr arg0) as [name|]; [|eauto].
  unfold bind at 1, ask at 1.
  destruct (osGetwd w _) as [dir|]; [|eauto].
  unfold bind at 1, ask at 1.
  destruct (osStdinPipe w _); [|eauto]. cbn [negb].
  unfold bind at 1, ask at 1.
  destruct (osStdoutPipe w _); [|eauto]. cbn [negb].
  unfold bind at 1.
  match goal with |- context [?m ?t] =>
    match m with
    | (if String.eqb msgPath "-" then _ else _) =>
        assert (Ht : exists target tr1, m t = Done target tr1)
    end end.
  { destruct (String.eqb msgPath "-"); [eauto|].
    destruct (negb (String.eqb msgPath "")); [|eauto].
    unfold bind at 1, ask at 1.
    destruct (osCreate w _ msgPath); [eauto|].
    unfold bind, emit, ret. eauto. }
  destruct Ht as (target & tr1 & ->).
  unfold bind, ask. destruct (osStart w tr1 _); eauto.
Qed.

Lemma Fprintln_quiet f site wr line :
  (forall to ok, f (EvWrite site to line ok) = false) ->
  quietOn f (Fprintln w site wr line).
Proof.
  intros Hf. unfold Fprintln. destruct wr; [|apply quiet_panic].
  apply quiet_ask. intros ok. apply Hf.
Qed.

Lemma turn_quiet f commands (st : MatchState State) :
  (forall e, isOutput e = false -> f e = false) ->
  (forall to line ok, f (EvWrite SiteMove to line ok) = false) ->
  quietOn f (turn w commands st).
Proof.
  intros Hother Hmove.
  assert (Hf : forall e, (forall to line ok, e <> EvWrite SiteMove to line ok) ->
                         isOutput e = false -> f e = false).
  { intros e _ He. apply Hother, He. }
  unfold turn. destruct (slot_of_int _) as [p|]; [|apply quiet_panic].
  apply quiet_bind.
  - destruct (get p (failed (result st))).
    + unfold fallbackMove. apply quiet_bind.
      * unfold Intn. destruct (_ <=? 0); [apply quiet_panic|].
        apply quiet_ask. intros a. apply Hother. reflexivity.
      * intros k. destruct (_ !! _); [|apply quiet_panic].
        destruct (negb _); [apply quiet_panic|apply quiet_ret].
    + unfold clientMove. apply quiet_bind.
      * unfold ReadString. destruct (get p (readers st)); [|apply quiet_panic].
        intros tr. simpl. rewrite List.filter_app. simpl.
        rewrite Hother by reflexivity. apply app_nil_r.
      * intros rd. destruct (fst rd) as [line|].
        -- destruct (ParseMove _).
           ++ destruct (negb _); [|apply quiet_ret].
              apply quiet_bind; [apply quiet_emit, Hother; reflexivity|].
              intros _. apply quiet_ret.
           ++ apply quiet_bind; [apply quiet_emit, Hother; reflexivity|].
              intros _. apply quiet_ret.
        -- apply quiet_bind; [apply quiet_emit, Hother; reflexivity|].
           intros _. apply quiet_ret.
  - intros r. unfold forwardMove. destruct (_ && _); [|apply quiet_ret].
    apply quiet_bind; [apply Fprintln_quiet; intros; apply Hmove|].
    intros [|]; [apply quiet_ret|].
    apply quiet_bind; [apply quiet_emit, Hother; reflexivity|]. intros _. apply quiet_ret.
Qed.

Lemma loop_quiet f fuel commands (st : MatchState State) :
  (forall e, isOutput e = false -> f e = false) ->
  (forall to line ok, f (EvWrite SiteMove to line ok) = false) ->
  quietOn f (loop w fuel commands st).
Proof.
  intros Hother Hmove. revert st. induction fuel as [|fuel IH]; intros st; simpl.
  - destruct (over st); [apply quiet_ret|apply quiet_outOfFuel].
  - destruct (over st); [apply quiet_ret|].
    apply quiet_bind; [apply turn_quiet; assumption|]. intros st'. apply IH.
Qed.

Lemma writeMatchLog_quiet f logPath :
  (forall e, isOutput e = false -> f e = false) ->
  quietOn f (writeMatchLog w logPath).
Proof.
  intros Hf. unfold writeMatchLog. destruct (negb _); [|apply quiet_ret].
  apply quiet_bind; [apply quiet_ask; intros; apply Hf; reflexivity|].
  intros [|]; apply quiet_emit, Hf; reflexivity.
Qed.

Lemma quitPlayers_quiet f (st : MatchState State) :
  (forall to line ok, f (EvWrite SiteQuit to line ok) = false) ->
  (forall p, f (EvClose p) = false) -> (forall p, f (EvWait p) = false) ->
  quietOn f (quitPlayers w st).
Proof.
  intros Hq Hc Hw. unfold quitPlayers, quitWriter, Close, Wait.
  repeat (apply quiet_bind; [|intros ?]);
    try (apply Fprintln_quiet; intros; apply Hq);
    repeat case_match; try apply quiet_panic; apply quiet_emit; auto.
Qed.

(** After the first player was started the rest of runMatch writes no
    Start. *)
Lemma startPlayer_S1_quiet commands msgPath (st : MatchState State) :
  quietOn isStartWrite (startPlayer w commands msgPath S1 st).
Proof.
  unfold startPlayer. apply quiet_bind.
  - apply runPlayer_quiet, notOutput_notStart.
  - intros [err|cmd]; [|apply quiet_ret].
    apply quiet_bind; [apply quiet_emit; reflexivity|]. intros _. apply quiet_ret.
Qed.

(** C10.  Of all the lines a match writes, the Start line is written
    exactly when runPlayer succeeded for the first player, once and to
    that player's pipe.  When the first player's command cannot be run,
    no Start is written in the match, in particular none to the second
    player. *)
Theorem C10_start_sentinel fuel players commands logPath msgPath tr :
  List.filter isStartWrite
    (traceOf (runMatch w fuel players commands logPath msgPath tr)) =
  List.filter isStartWrite tr ++
  match runPlayer w (get S0 commands) (get S0 msgPath) tr with
  | Done (inr _) tr0 => [EvWrite SiteStart S0 "Start" (pipeWrite w tr0 S0 "Start")]
  | _ => []
  end.
Proof.
  unfold runMatch, startPlayers.
  rewrite filter_bind.
  2: { intros st0. apply quiet_bind.
       - apply loop_quiet; [apply notOutput_notStart|reflexivity].
       - intros st. apply quiet_bind.
         + apply quitPlayers_quiet; reflexivity.
         + intros _. apply quiet_bind; [|intros _; apply quiet_ret].
           apply writeMatchLog_quiet, notOutput_notStart. }
  rewrite filter_bind by (intros st0; apply startPlayer_S1_quiet).
  unfold startPlayer.
  destruct (runPlayer_done (get S0 commands) (get S0 msgPath) tr) as (r & tr0 & Hrun).
  assert (Hq : List.filter isStartWrite tr0 = List.filter isStartWrite tr).
  { pose proof (runPlayer_quiet isStartWrite (get S0 commands) (get S0 msgPath)) as Hq.
    specialize (Hq notOutput_notStart tr).
    rewrite Hrun in Hq. exact Hq. }
  rewrite Hrun. erewrite bind_eq_done by exact Hrun.
  destruct r as [err|cmd].
  - unfold bind, emit, ret. simpl. rewrite List.filter_app. simpl.
    rewrite Hq. reflexivity.
  - cbn. unfold bind, ask, ret. simpl. rewrite List.filter_app. simpl.
    rewrite Hq. reflexivity.
Qed.

End TraceFacts.

(** ** The end of a match *)

Section Release.

Context (w : World).
Context {State Move : Type} {GS : GameState State Move} {G : Game State Move}.

Lemma startPlayer_started commands msgPath i (st st' : MatchState State) tr tr' :
  get i (failed (result st)) = false ->
  get i (cmds st) = None -> get i (readers st) = None -> get i (writers st) = None ->
  startPlayer w commands msgPath i st tr = Done st' tr' ->
  slotStarted i st' /\
  (get i (failed (result st')) = true <->
   exists err tr1, runPlayer w (get i commands) (get i msgPath) tr = Done (inl err) tr1) /\
  get (other i) (failed (result st')) = get (other i) (failed (result st)) /\
  get (other i) (cmds st') = get (other i) (cmds st) /\
  get (other i) (readers st') = get (other i) (readers st) /\
  get (other i) (writers st') = get (other i) (writers st).
Proof.
  intros Hf Hc Hr Hw H. unfold startPlayer in H. inv_bind H.
  destruct a as [err|cmd].
  - inv_bind H. inv_ret H. split; [|split].
    + right. cbn. rewrite get_set_same. auto.
    + cbn. rewrite get_set_same. split; eauto.
    + cbn. rewrite get_set_other. auto.
  - assert (st' = attach i st) as ->.
    { destruct i; [inv_bind H|]; inv_ret H; reflexivity. }
    split; [|split].
    + left. cbn. rewrite !get_set_same. auto.
    + cbn. rewrite Hf. split; [discriminate|]. intros (err & tr1 & E). congruence.
    + cbn. rewrite !get_set_other. auto.
Qed.

Lemma startPlayers_started players commands msgPath (st0 : MatchState State) tr tr0 :
  startPlayers w commands msgPath (initialState players) tr = Done st0 tr0 ->
  slotStarted S0 st0 /\ slotStarted S1 st0 /\
  (get S0 (failed (result st0)) = true <->
   exists err tr1,
     runPlayer w (get S0 commands) (get S0 msgPath) tr = Done (inl err) tr1).
Proof.
  unfold startPlayers. intros H. inv_bind H.
  apply startPlayer_started in Hm as (Hs0 & Hiff & Hf1 & Hc1 & Hr1 & Hw1); try reflexivity.
  change (other S0) with S1 in *.
  apply startPlayer_started in H as (Hs1 & _ & Hf0 & Hc0 & Hr0 & Hw0);
    [|rewrite Hf1; reflexivity|rewrite Hc1; reflexivity
     |rewrite Hr1; reflexivity|rewrite Hw1; reflexivity].
  change (other S1) with S0 in *.
  split; [|split; [exact Hs1|]].
  - unfold slotStarted in *. rewrite Hf0, Hc0, Hr0, Hw0. exact Hs0.
  - rewrite Hf0. exact Hiff.
Qed.

(** Lines 179-188 when a pipe is nil: the Quit line panics. *)
Lemma quitPlayers_nil (st : MatchState State) tr :
  get S0 (writers st) = None \/ get S1 (writers st) = None ->
  exists tr', quitPlayers w st tr = Panic nilDeref tr'.
Proof.
  unfold quitPlayers, quitWriter. intros Hnil.
  destruct (get S0 (writers st)) as [w0|] eqn:H0.
  - destruct Hnil as [|H1]; [discriminate|]. rewrite H1.
    unfold bind, Fprintln, Close, ask, emit, panic. eauto.
  - unfold bind, Fprintln, panic. eauto.
Qed.

(** Lines 179-188 when both players were started. *)
Lemma quitPlayers_attached (st : MatchState State) tr :
  get S0 (writers st) = Some S0 -> get S1 (writers st) = Some S1 ->
  get S0 (cmds st) = Some S0 -> get S1 (cmds st) = Some S1 ->
  exists ok0 ok1,
    quitPlayers w st tr =
    Done tt (tr ++ [EvWrite SiteQuit S0 "Quit" ok0; EvClose S0;
                    EvWrite SiteQuit S1 "Quit" ok1; EvClose S1;
                    EvWait S0; EvWait S1]).
Proof.
  intros Hw0 Hw1 Hc0 Hc1. unfold quitPlayers, quitWriter.
  rewrite Hw0, Hw1, Hc0, Hc1.
  unfold bind, Fprintln, Close, Wait, ask, emit.
  eexists _, _. rewrite <- !app_assoc. simpl. reflexivity.
Qed.

(** A match in which runPlayer failed for a player never returns: the
    loop may run to the end of the game, then the Quit line for the
    missing pipe panics. *)
Lemma spawn_failure_never_returns fuel players commands logPath msgPath
    (st0 : MatchState State) tr tr0 i :
  startPlayers w commands msgPath (initialState players) tr = Done st0 tr0 ->
  get i (failed (result st0)) = true ->
  (forall r tr', runMatch w fuel players commands logPath msgPath tr <> Done r tr') /\
  (forall st tr1, loop w fuel commands st0 tr0 = Done st tr1 ->
     exists tr', runMatch w fuel players commands logPath msgPath tr = Panic nilDeref tr').
Proof.
  intros Hstart Hf.
  assert (Hnil : get i (writers st0) = None).
  { apply startPlayers_started in Hstart as (H0 & H1 & _).
    destruct i; [destruct H0 as [(E&_)|(_&_&_&E)]|destruct H1 as [(E&_)|(_&_&_&E)]];
      congruence. }
  assert (Hpanic : forall st tr1, loop w fuel commands st0 tr0 = Done st tr1 ->
     exists tr', runMatch w fuel players commands logPath msgPath tr = Panic nilDeref tr').
  { intros st tr1 Hloop. unfold runMatch.
    erewrite bind_eq_done by exact Hstart. erewrite bind_eq_done by exact Hloop.
    apply loop_evolves in Hloop as [(_ & _ & Hw & _) _].
    destruct (quitPlayers_nil st tr1) as (tr' & Hq).
    { rewrite Hw. destruct i; auto. }
    exists tr'. unfold bind at 1. rewrite Hq. reflexivity. }
  split; [|exact Hpanic].
  intros r tr' H.
  pose proof H as H'. unfold runMatch in H'. inv_bind H'. inv_bind H'.
  rewrite Hstart in Hm. injection Hm as <- <-.
  destruct (Hpanic _ _ Hm0) as (trp & E). congruence.
Qed.

(** X23.  A match that returns has released each slot once, at its end:
    one Quit line and one Close for its pipe, one Wait for its process. *)
Lemma returned_match_releases_once fuel players commands logPath msgPath tr r tr' p :
  runMatch w fuel players commands logPath msgPath tr = Done r tr' ->
  exists ok,
    List.filter (isRelease p) tr' =
    List.filter (isRelease p) tr ++ [EvWrite SiteQuit p "Quit" ok; EvClose p; EvWait p].
Proof.
  intros H. pose proof H as H'. unfold runMatch in H'.
  inv_bind H'. rename a into st0, tr0 into tr0', Hm into Hstart.
  inv_bind H'. rename a into st, Hm into Hloop.
  inv_bind H'. rename Hm into Hquit. inv_bind H'. rename Hm into Hlog. inv_ret H'.
  pose proof (startPlayers_started _ _ _ _ _ _ Hstart) as (H0 & H1 & _).
  pose proof (loop_evolves _ _ _ _ _ _ _ Hloop) as [(Hc & _ & Hw & _ & _ & _ & Hmono) _].
  assert (Hatt : get S0 (writers st) = Some S0 /\ get S1 (writers st) = Some S1 /\
                 get S0 (cmds st) = Some S0 /\ get S1 (cmds st) = Some S1).
  { rewrite Hc, Hw.
    destruct H0 as [(_&?&_&?)|(_&_&_&E0)], H1 as [(_&?&_&?)|(_&_&_&E1)]; auto.
    all: destruct (quitPlayers_nil st tr0) as (? & E); [rewrite Hw; auto|congruence]. }
  destruct Hatt as (Hw0 & Hw1 & Hc0 & Hc1).
  destruct (quitPlayers_attached st tr0 Hw0 Hw1 Hc0 Hc1) as (ok0 & ok1 & Hq).
  rewrite Hq in Hquit. injection Hquit as _ Htr1. subst tr1.
  (* what the three other parts add *)
  assert (Es : List.filter (isRelease p) tr0' = List.filter (isRelease p) tr).
  { pose proof (quiet_bind (isRelease p)
      (startPlayer w commands msgPath S0 (initialState players))
      (fun st1 : MatchState State => startPlayer w commands msgPath S1 st1)) as Hq2.
    assert (Hsp : forall i (st1 : MatchState State),
              quietOn (isRelease p) (startPlayer w commands msgPath i st1)).
    { intros i st1. unfold startPlayer. apply quiet_bind.
      - apply runPlayer_quiet, notOutput_notRelease.
      - intros [err|cmd].
        + apply quiet_bind; [apply quiet_emit; reflexivity|]. intros _. apply quiet_ret.
        + destruct i; [|apply quiet_ret].
          apply quiet_bind; [|intros _; apply quiet_ret].
          apply Fprintln_quiet. reflexivity. }
    specialize (Hq2 (Hsp S0 _) (fun st1 => Hsp S1 st1) tr).
    unfold startPlayers in Hstart. rewrite Hstart in Hq2. exact Hq2. }
  assert (El : List.filter (isRelease p) tr0 = List.filter (isRelease p) tr0').
  { pose proof (loop_quiet w (isRelease p) fuel commands st0) as Hq2.
    specialize (Hq2 (notOutput_notRelease p) (fun _ _ _ => eq_refl) tr0').
    rewrite Hloop in Hq2. exact Hq2. }
  assert (Eg : List.filter (isRelease p) tr' =
               List.filter (isRelease p)
                 (tr0 ++ [EvWrite SiteQuit S0 "Quit" ok0; EvClose S0;
                          EvWrite SiteQuit S1 "Quit" ok1; EvClose S1;
                          EvWait S0; EvWait S1])).
  { pose proof (writeMatchLog_quiet w (isRelease p) logPath) as Hq2.
    specialize (Hq2 (notOutput_notRelease p)
                    (tr0 ++ [EvWrite SiteQuit S0 "Quit" ok0; EvClose S0;
                             EvWrite SiteQuit S1 "Quit" ok1; EvClose S1;
                             EvWait S0; EvWait S1])).
    rewrite Hlog in Hq2. exact Hq2. }
  rewrite Eg, List.filter_app, El, Es.
  destruct p; [exists ok0|exists ok1]; reflexivity.
Qed.

End Release.

(** ** Loops *)

Lemma forEach_ext {A S} (xs : list A) (body body' : A -> S -> M (Flow * S)) s tr :
  (forall x s tr, body x s tr = body' x s tr) ->
  forEach xs body s tr = forEach xs body' s tr.
Proof.
  intros Hext. revert s tr. induction xs as [|x xs IH]; intros s tr; simpl; [reflexivity|].
  unfold bind. rewrite Hext. destruct (body' x s tr) as [r tr1|msg tr1|tr1]; try reflexivity.
  destruct (fst r); [apply IH|reflexivity].
Qed.

Lemma forEach_app {A S} (xs ys : list A) (body : A -> S -> M (Flow * S)) s tr :
  forEach (xs ++ ys) body s tr =
  match forEach xs body s tr with
  | Done r tr1 =>
      match fst r with
      | Break => Done r tr1
      | Continue => forEach ys body (snd r) tr1
      end
  | Panic msg tr1 => Panic msg tr1
  | OutOfFuel tr1 => OutOfFuel tr1
  end.
Proof.
  revert s tr. induction xs as [|x xs IH]; intros s tr; simpl; [reflexivity|].
  unfold bind. destruct (body x s tr) as [r tr1|msg tr1|tr1]; try reflexivity.
  destruct (fst r) eqn:E; [apply IH|]. unfold ret. rewrite E. reflexivity.
Qed.

Lemma forEach_map {A B S} (g : A -> B) (xs : list A) (body : B -> S -> M (Flow * S)) s tr :
  forEach (map g xs) body s tr = forEach xs (fun x => body (g x)) s tr.
Proof.
  revert s tr. induction xs as [|x xs IH]; intros s tr; simpl; [reflexivity|].
  unfold bind. destruct (body (g x) s tr) as [r tr1|msg tr1|tr1]; try reflexivity.
  destruct (fst r); [apply IH|reflexivity].
Qed.

(** A loop inside a loop is one loop over the pairs. *)
Lemma forEach_nested {A B S} (xs : list A) (ys : list B)
    (body : A -> B -> S -> M (Flow * S)) s tr :
  forEach xs (fun x => forEach ys (body x)) s tr =
  forEach (flat_map (fun x => map (pair x) ys) xs)
          (fun xy => body (fst xy) (snd xy)) s tr.
Proof.
  revert s tr. induction xs as [|x xs IH]; intros s tr; simpl; [reflexivity|].
  rewrite forEach_app, forEach_map. cbn [fst snd]. unfold bind.
  destruct (forEach ys (body x) s tr) as [r tr1|msg tr1|tr1]; try reflexivity.
  destruct (fst r); [apply IH|reflexivity].
Qed.

(** Passes that do nothing can be left out. *)
Lemma forEach_filter {A S} (keep : A -> bool) (xs : list A)
    (body : A -> S -> M (Flow * S)) s tr :
  (forall x s tr, keep x = false -> body x s tr = Done (Continue, s) tr) ->
  forEach xs body s tr = forEach (List.filter keep xs) body s tr.
Proof.
  intros Hskip. revert s tr. induction xs as [|x xs IH]; intros s tr; simpl; [reflexivity|].
  destruct (keep x) eqn:E; simpl.
  - unfold bind. destruct (body x s tr) as [r tr1|msg tr1|tr1]; try reflexivity.
    destruct (fst r); [apply IH|reflexivity].
  - unfold bind. rewrite Hskip by exact E. cbn [fst snd]. apply IH.
Qed.

(** ** The schedule of a tournament *)

Lemma enumerate_fst {A} (l : list A) :
  map fst (enumerate l) = seqZ 0 (Z.of_nat (length l)).
Proof.
  unfold enumerate, seqZ. rewrite Nat2Z.id.
  assert (H : forall k, map fst (imap (fun i x => (Z.of_nat (k + i), x)) l)
                        = (fun i => Z.of_nat i + 0) <$> seq k (length l)).
  { induction l as [|x l IH]; intros k; simpl; [reflexivity|].
    f_equal; [f_equal; lia|].
    rewrite <- IH. f_equal. apply imap_ext. intros i y _. simpl. do 2 f_equal. lia. }
  apply (H 0%nat).
Qed.

Lemma enumerate_lookup {A} (l : list A) i c :
  (i, c) ∈ enumerate l -> index l i = Some c.
Proof.
  unfold enumerate. intros Hin. apply elem_of_lookup_imap in Hin as (k & y & E & Hk).
  injection E as -> ->. unfold index.
  destruct (Z.of_nat k <? 0) eqn:E; [apply Z.ltb_lt in E; lia|].
  rewrite Nat2Z.id. exact Hk.
Qed.

Lemma pairs_of_matchups (outer inner : list (Z * string)) :
  map (fun m : (Z * string) * (Z * string) => (fst (fst m), fst (snd m)))
      (List.filter (fun m => negb (fst (fst m) =? fst (snd m)))
         (flat_map (fun ic => map (pair ic) inner) outer)) =
  flat_map (fun i => flat_map (fun j => if i =? j then [] else [(i, j)]) (map fst inner))
           (map fst outer).
Proof.
  induction outer as [|ic outer IH]; simpl; [reflexivity|].
  rewrite List.filter_app, map_app, IH. f_equal.
  clear IH. induction inner as [|jc inner IHi]; simpl; [reflexivity|].
  destruct (fst ic =? fst jc); simpl; rewrite IHi; reflexivity.
Qed.

Lemma roundMatchups_pairings commands :
  map (fun m => (fst (fst m), fst (snd m))) (roundMatchups commands) =
  pairings (Z.of_nat (length commands)).
Proof.
  unfold roundMatchups, pairings. rewrite pairs_of_matchups, enumerate_fst. reflexivity.
Qed.

Lemma matchups_schedule commands rounds :
  map (fun m => (fst (fst m), fst (snd m))) (matchups commands rounds) =
  schedule rounds (Z.of_nat (length commands)).
Proof.
  unfold matchups, schedule. induction (seq 0 (Z.to_nat rounds)) as [|r rs IH]; simpl.
  - reflexivity.
  - rewrite map_app, IH, roundMatchups_pairings. reflexivity.
Qed.

(** ** Wrap-around *)

Lemma wrap_small z : minInt <= z <= maxInt -> wrap z = z.
Proof.
  unfold wrap, minInt, maxInt. intros Hz.
  rewrite Z.mod_small by lia. lia.
Qed.

Lemma wrap_range z : minInt <= wrap z <= maxInt.
Proof.
  unfold wrap, minInt, maxInt.
  pose proof (Z.mod_pos_bound (z + 2 ^ 63) (2 ^ 64) ltac:(lia)). lia.
Qed.

Lemma wrap_mod z : wrap z `mod` 2 ^ 64 = z `mod` 2 ^ 64.
Proof.
  unfold wrap. rewrite Zminus_mod_idemp_l. f_equal. lia.
Qed.

Lemma int_mul_mul_mod a b c :
  int_mul (int_mul a b) c `mod` 2 ^ 64 = (a * b * c) `mod` 2 ^ 64.
Proof.
  unfold int_mul. rewrite wrap_mod.
  rewrite <- (Zmult_mod_idemp_l (wrap (a * b))), wrap_mod, Zmult_mod_idemp_l.
  reflexivity.
Qed.

(** A product that was computed with wrap-around and is not below the
    true product, which is not negative, is the true product. *)
Lemma int_mul_mul_exact a b c :
  0 <= a * b * c <= int_mul (int_mul a b) c ->
  int_mul (int_mul a b) c = a * b * c.
Proof.
  intros Hle.
  pose proof (int_mul_mul_mod a b c) as Hmod.
  pose proof (wrap_range (int_mul a b * c)) as Hr. fold (int_mul (int_mul a b) c) in Hr.
  unfold maxInt, minInt in Hr.
  rewrite !Z.mod_small in Hmod by lia. exact Hmod.
Qed.

Section TournamentFacts.

Context (w : World).
Context {State Move : Type} {GS : GameState State Move} {G : Game State Move}.
Context (flags : Flags).

(** make([]Result, n), case by case. *)
Lemma makeResults_done n tr results tr' :
  makeResults w n tr = Done results tr' ->
  0 <= n /\ sizeofResult * n <= maxAlloc /\ memory w tr (sizeofResult * n) = true /\
  results = replicate (Z.to_nat n) (newResult (0, 0)) /\ tr' = tr.
Proof.
  unfold makeResults. intros H.
  destruct (n <? 0) eqn:E1; [discriminate|]. apply Z.ltb_ge in E1.
  destruct (maxAlloc <? sizeofResult * n) eqn:E2; [discriminate|]. apply Z.ltb_ge in E2.
  cbn [orb] in H. destruct (memory w tr (sizeofResult * n)); [|discriminate].
  injection H as <- <-. auto.
Qed.

Lemma makeResults_ok n tr :
  0 <= n -> sizeofResult * n <= maxAlloc -> memory w tr (sizeofResult * n) = true ->
  makeResults w n tr = Done (replicate (Z.to_nat n) (newResult (0, 0))) tr.
Proof.
  intros Hn Hfit Hmem. unfold makeResults.
  destruct (n <? 0) eqn:E1; [apply Z.ltb_lt in E1; lia|].
  destruct (maxAlloc <? sizeofResult * n) eqn:E2; [apply Z.ltb_lt in E2; lia|].
  cbn [orb]. rewrite Hmem. reflexivity.
Qed.

Lemma makeResults_panic n tr msg tr' :
  makeResults w n tr = Panic msg tr' ->
  tr' = tr /\
  ((msg = lenOutOfRange /\ (n < 0 \/ maxAlloc < sizeofResult * n)) \/
   (msg = outOfMemory /\ 0 <= n /\ sizeofResult * n <= maxAlloc /\
    memory w tr (sizeofResult * n) = false)).
Proof.
  unfold makeResults. intros H.
  destruct (n <? 0) eqn:E1.
  { injection H as <- <-. apply Z.ltb_lt in E1. auto. }
  apply Z.ltb_ge in E1.
  destruct (maxAlloc <? sizeofResult * n) eqn:E2.
  { injection H as <- <-. apply Z.ltb_lt in E2. auto. }
  apply Z.ltb_ge in E2. cbn [orb] in H.
  destruct (memory w tr (sizeofResult * n)) eqn:Hmem; [discriminate|].
  injection H as <- <-. auto 10.
Qed.

Lemma makeResults_fuel n tr tr' : makeResults w n tr <> OutOfFuel tr'.
Proof.
  unfold makeResults.
  destruct ((n <? 0) || (maxAlloc <? sizeofResult * n)); [discriminate|].
  destruct (memory w tr (sizeofResult * n)); discriminate.
Qed.


Lemma runMatch_player fuel players commands logPath msgPath tr r tr' :
  runMatch w fuel players commands logPath msgPath tr = Done r tr' ->
  player r = players.
Proof.
  intros H. apply runMatch_done in H as (st0 & tr0 & st & tr1 & _ & _ & Hp & Hpl & ->).
  pose proof (competitionPoints_spec (set_score (Scores (gamestate st)) (result st)) Hp)
    as (Hplayer & _).
  rewrite Hplayer. exact Hpl.
Qed.

(** The three loops of runTournament are one loop over the matchups. *)
Lemma tournament_loops fuel firstOnly commands rounds s tr :
  forEach (seq 0 (Z.to_nat rounds)) (fun _ =>
    forEach (enumerate commands) (fun ic =>
      forEach (enumerate commands) (fun jc =>
        playPair w flags fuel firstOnly ic jc))) s tr =
  forEach (matchups commands rounds)
    (fun m => playPair w flags fuel firstOnly (fst m) (snd m)) s tr.
Proof.
  set (body := fun m : (Z * string) * (Z * string) =>
                 playPair w flags fuel firstOnly (fst m) (snd m)).
  transitivity (forEach (seq 0 (Z.to_nat rounds))
                  (fun _ => forEach (roundMatchups commands) body) s tr).
  - apply forEach_ext. intros _ s1 tr1.
    rewrite (forEach_nested (enumerate commands) (enumerate commands)
               (fun ic jc => playPair w flags fuel firstOnly ic jc)).
    unfold roundMatchups. apply forEach_filter.
    intros m s2 tr2 Hkeep. unfold playPair. rewrite Hkeep. reflexivity.
  - unfold matchups. clear. revert s tr.
    induction (seq 0 (Z.to_nat rounds)) as [|r rs IH]; intros s tr; simpl; [reflexivity|].
    rewrite forEach_app. unfold bind.
    destruct (forEach (roundMatchups commands) body s tr) as [x tr1|msg tr1|tr1];
      try reflexivity.
    destruct (fst x); [apply IH|reflexivity].
Qed.

(** One match of the tournament: the match is run, its result stored at
    index n, and n counted up. *)
Lemma playPair_done fuel firstOnly ic jc results n r tr tr' :
  fst ic <> fst jc ->
  Z.of_nat (length results) <= maxInt ->
  playPair w flags fuel firstOnly ic jc (results, n) tr = Done r tr' ->
  exists res,
    player res = (fst ic, fst jc) /\
    0 <= n < Z.of_nat (length results) /\
    r = (if firstOnly then Break else Continue,
         (<[Z.to_nat n := res]> results, n + 1)).
Proof.
  intros Hne Hlen H. unfold playPair in H. cbn [fst snd] in H.
  destruct (fst ic =? fst jc) eqn:E; [apply Z.eqb_eq in E; contradiction|].
  cbn [negb] in H. inv_bind H. rename a into res.
  apply runMatch_player in Hm.
  unfold update, index in H.
  destruct (n <? 0) eqn:En; [discriminate|]. apply Z.ltb_ge in En.
  destruct (results !! Z.to_nat n) as [old|] eqn:Hlk; [|discriminate].
  cbn in H. inv_ret H. apply lookup_lt_Some in Hlk.
  exists res. split; [exact Hm|]. split; [lia|].
  unfold int_add. rewrite wrap_small by (unfold minInt, maxInt in *; lia). reflexivity.
Qed.

(** All the matches of a list, when the tournament is not a single
    game: the results stand in the slice in the order of the list. *)
Lemma play_all_done fuel ms (played rest : list Result) r tr tr' :
  (forall m, m ∈ ms -> fst (fst m) <> fst (snd m)) ->
  Z.of_nat (length (played ++ rest)) <= maxInt ->
  forEach ms (fun m => playPair w flags fuel false (fst m) (snd m))
    (played ++ rest, Z.of_nat (length played)) tr = Done r tr' ->
  exists more,
    map player more = map pairOf ms /\
    (length ms <= length rest)%nat /\
    r = (Continue, ((played ++ more) ++ drop (length ms) rest,
                    Z.of_nat (length played + length ms))).
Proof.
  revert played rest tr. induction ms as [|m ms IH]; intros played rest tr Hne Hlen H.
  - simpl in H. inv_ret H. exists []. simpl. rewrite app_nil_r, drop_0, Nat.add_0_r.
    split; [reflexivity|]. split; [lia|reflexivity].
  - simpl in H. inv_bind H.
    apply playPair_done in Hm as (res & Hpl & Hn & ->);
      [|apply Hne; left|exact Hlen].
    cbn [fst snd] in H. rewrite Nat2Z.id in H.
    rewrite length_app in Hn.
    destruct rest as [|x rest]; [simpl in Hn; lia|].
    rewrite insert_app_r_alt in H by lia. rewrite Nat.sub_diag in H. simpl in H.
    replace (played ++ res :: rest) with ((played ++ [res]) ++ rest) in H
      by (rewrite <- app_assoc; reflexivity).
    replace (Z.of_nat (length played) + 1) with (Z.of_nat (length (played ++ [res]))) in H
      by (rewrite length_app; simpl; lia).
    apply IH in H as (more & Hmap & Hle & ->).
    + exists (res :: more). split; [simpl; rewrite Hmap, Hpl; reflexivity|].
      split; [simpl; lia|].
      simpl. rewrite <- !app_assoc. simpl.
      rewrite length_app. simpl. do 3 f_equal. lia.
    + intros m' Hm'. apply Hne. right. exact Hm'.
    + rewrite !length_app in *. simpl in *. lia.
Qed.

(** ... and they all return when there is room for their results and
    each match returns. *)
Lemma play_all_total fuel ms (played rest : list Result) tr :
  (forall m, m ∈ ms -> fst (fst m) <> fst (snd m)) ->
  (forall m, m ∈ ms -> forall logPath msgPath tr1, exists res tr2,
     runMatch w fuel (fst (fst m), fst (snd m)) (snd (fst m), snd (snd m))
       logPath msgPath tr1 = Done res tr2) ->
  Z.of_nat (length (played ++ rest)) <= maxInt ->
  (length ms <= length rest)%nat ->
  exists r tr',
    forEach ms (fun m => playPair w flags fuel false (fst m) (snd m))
      (played ++ rest, Z.of_nat (length played)) tr = Done r tr'.
Proof.
  revert played rest tr. induction ms as [|m ms IH]; intros played rest tr Hne Hrun Hlen Hroom.
  - simpl. eauto.
  - destruct rest as [|x rest]; [simpl in Hroom; lia|].
    simpl. unfold playPair at 1. cbn [fst snd].
    destruct (fst (fst m) =? fst (snd m)) eqn:E.
    { apply Z.eqb_eq in E. destruct (Hne m); [left|exact E]. }
    cbn [negb].
    match goal with |- context [runMatch w fuel _ _ ?l ?mp] =>
      destruct (Hrun m ltac:(left) l mp tr) as (res & tr2 & Hres) end.
    unfold bind at 1. unfold bind at 1. rewrite Hres.
    unfold update, index.
    destruct (Z.of_nat (length played) <? 0) eqn:En; [apply Z.ltb_lt in En; lia|].
    rewrite Nat2Z.id.
    rewrite lookup_app_r by lia. rewrite Nat.sub_diag. cbn.
    rewrite insert_app_r_alt by lia. rewrite Nat.sub_diag. simpl.
    replace (played ++ res :: rest) with ((played ++ [res]) ++ rest)
      by (rewrite <- app_assoc; reflexivity).
    unfold int_add. rewrite wrap_small.
    2: { rewrite length_app in Hlen. simpl in Hlen. unfold minInt, maxInt in *. lia. }
    replace (Z.of_nat (length played) + 1) with (Z.of_nat (length (played ++ [res])))
      by (rewrite length_app; simpl; lia).
    apply IH.
    + intros m' Hm'. apply Hne. right. exact Hm'.
    + intros m' Hm'. apply Hrun. right. exact Hm'.
    + rewrite !length_app in *. simpl in *. lia.
    + simpl in Hroom. lia.
Qed.

(** All the matches of a list are the matches of its pairings, one
    after the other, whatever becomes of them. *)
Lemma play_all_schedule fuel commands ms (played rest : list Result) tr :
  (forall m, m ∈ ms ->
     fst (fst m) <> fst (snd m) /\
     index commands (fst (fst m)) = Some (snd (fst m)) /\
     index commands (fst (snd m)) = Some (snd (snd m))) ->
  Z.of_nat (length (played ++ rest)) <= maxInt ->
  (length ms <= length rest)%nat ->
  bind (forEach ms (fun m => playPair w flags fuel false (fst m) (snd m))
          (played ++ rest, Z.of_nat (length played)))
       (fun r => ret (fst (snd r))) tr =
  bind (playSchedule w flags fuel commands (map pairOf ms) (Z.of_nat (length played)))
       (fun more => ret (played ++ more ++ drop (length ms) rest)) tr.
Proof.
  revert played rest tr. induction ms as [|m ms IH]; intros played rest tr Hms Hlen Hroom.
  - cbn [forEach map playSchedule length]. rewrite !bind_ret_l, drop_0. reflexivity.
  - destruct rest as [|x rest]; [simpl in Hroom; lia|].
    destruct (Hms m ltac:(left)) as (Hne & Hi & Hj).
    rewrite length_app in Hlen. cbn [length] in Hlen, Hroom.
    assert (Ea : int_add (Z.of_nat (length played)) 1 = Z.of_nat (length played) + 1)
      by (unfold int_add; apply wrap_small; unfold minInt, maxInt in *; lia).
    assert (Hup : forall res,
              update (played ++ x :: rest) (Z.of_nat (length played)) (fun _ => res) =
              Some (played ++ res :: rest)).
    { intros res. unfold update, index.
      destruct (Z.of_nat (length played) <? 0) eqn:E0; [apply Z.ltb_lt in E0; lia|].
      rewrite Nat2Z.id, lookup_app_r, Nat.sub_diag by lia. cbn.
      rewrite insert_app_r_alt, Nat.sub_diag by lia. reflexivity. }
    cbn [forEach map]. unfold pairOf at 1. cbn [playSchedule]. rewrite Hi, Hj.
    rewrite !bind_assoc. unfold playPair at 1. cbn [fst snd].
    destruct (fst (fst m) =? fst (snd m)) eqn:E; [apply Z.eqb_eq in E; contradiction|].
    cbn [negb]. rewrite Ea, bind_assoc.
    apply bind_ext_done. intros res tr1 _.
    rewrite Hup, bind_ret_l. cbn [fst snd]. rewrite bind_assoc.
    replace (played ++ res :: rest) with ((played ++ [res]) ++ rest)
      by (rewrite <- app_assoc; reflexivity).
    replace (Z.of_nat (length played) + 1) with (Z.of_nat (length (played ++ [res])))
      by (rewrite length_app; cbn [length]; lia).
    rewrite IH.
    + apply bind_ext_done. intros more tr2 _. rewrite bind_ret_l.
      cbn [length drop]. rewrite <- !app_assoc. reflexivity.
    + intros m' Hm'. apply Hms. right. exact Hm'.
    + rewrite !length_app. cbn [length]. lia.
    + lia.
Qed.

End TournamentFacts.

(** ** Counting the schedule *)

Lemma length_flat_map_const {A B} (F : A -> list B) (l : list A) (a : nat) :
  (forall x, x ∈ l -> length (F x) = a) ->
  length (flat_map F l) = (length l * a)%nat.
Proof.
  intros Ha. induction l as [|x l IH]; [reflexivity|].
  simpl. rewrite length_app, IH, Ha; [lia|left|].
  intros y Hy. apply Ha. right. exact Hy.
Qed.

(** A sum over a list without repetition in which one element counts
    differently. *)
Lemma length_flat_map_special {A B} (F : A -> list B) (l : list A) (p : A) (a b : nat) :
  NoDup l -> p ∈ l ->
  (forall x, x ∈ l -> x <> p -> length (F x) = a) ->
  length (F p) = b ->
  length (flat_map F l) = ((length l - 1) * a + b)%nat.
Proof.
  intros Hnd Hin Ha Hb. induction l as [|x l IH]; [inversion Hin|].
  apply NoDup_cons in Hnd as [Hx Hnd]. simpl. rewrite length_app.
  assert (Hrest : forall y, y ∈ l -> y <> p -> length (F y) = a).
  { intros y Hy. apply Ha. right. exact Hy. }
  apply elem_of_cons in Hin as [<-|Hin].
  - rewrite (length_flat_map_const F l a), Hb; [lia|].
    intros y Hy. apply Hrest; [exact Hy|]. intros ->. contradiction.
  - rewrite IH by assumption.
    rewrite (Ha x); [|left|intros ->; contradiction].
    destruct l; [inversion Hin|]. simpl. lia.
Qed.

Lemma filter_flat_map {A B} (keep : B -> bool) (F : A -> list B) (l : list A) :
  List.filter keep (flat_map F l) = flat_map (fun x => List.filter keep (F x)) l.
Proof.
  induction l as [|x l IH]; simpl; [reflexivity|].
  rewrite List.filter_app, IH. reflexivity.
Qed.

Lemma length_pairingsOf n i :
  0 <= i < n -> length (pairingsOf n i) = (Z.to_nat n - 1)%nat.
Proof.
  intros Hi. unfold pairingsOf.
  rewrite (length_flat_map_special _ (seqZ 0 n) i 1 0).
  - rewrite length_seqZ. lia.
  - apply NoDup_seqZ.
  - apply elem_of_seqZ. lia.
  - intros j _ Hj. destruct (i =? j) eqn:E; [apply Z.eqb_eq in E; congruence|reflexivity].
  - rewrite Z.eqb_refl. reflexivity.
Qed.

Lemma length_pairings n :
  0 <= n -> Z.of_nat (length (pairings n)) = n * (n - 1).
Proof.
  intros Hn. unfold pairings. fold (pairingsOf n).
  destruct (decide (n = 0)) as [->|Hn0]; [reflexivity|].
  rewrite (length_flat_map_special (pairingsOf n) (seqZ 0 n) 0
             (Z.to_nat n - 1) (Z.to_nat n - 1)).
  - rewrite length_seqZ. nia.
  - apply NoDup_seqZ.
  - apply elem_of_seqZ. lia.
  - intros i Hi _. apply elem_of_seqZ in Hi. apply length_pairingsOf. lia.
  - apply length_pairingsOf. lia.
Qed.

Lemma length_schedule rounds n :
  0 <= rounds -> 0 <= n ->
  Z.of_nat (length (schedule rounds n)) = rounds * n * (n - 1).
Proof.
  intros Hr Hn. unfold schedule.
  assert (H : forall l : list nat,
            Z.of_nat (length (flat_map (fun _ => pairings n) l)) =
            Z.of_nat (length l) * (n * (n - 1))).
  { induction l as [|x l IH]; simpl; [lia|].
    rewrite length_app, Nat2Z.inj_add, IH, length_pairings by lia. lia. }
  rewrite H, length_seq. lia.
Qed.

Lemma involves_pairingsOf n i p :
  0 <= i < n -> 0 <= p < n ->
  length (List.filter (involves p) (pairingsOf n i)) =
  if i =? p then (Z.to_nat n - 1)%nat else 1%nat.
Proof.
  intros Hi Hp. unfold pairingsOf. rewrite filter_flat_map.
  destruct (i =? p) eqn:E.
  - apply Z.eqb_eq in E. subst p.
    rewrite (length_flat_map_special _ (seqZ 0 n) i 1 0).
    + rewrite length_seqZ. lia.
    + apply NoDup_seqZ.
    + apply elem_of_seqZ. lia.
    + intros j _ Hj. destruct (i =? j) eqn:E; [apply Z.eqb_eq in E; congruence|].
      unfold involves. simpl. rewrite Z.eqb_refl. reflexivity.
    + rewrite Z.eqb_refl. reflexivity.
  - apply Z.eqb_neq in E.
    rewrite (length_flat_map_special _ (seqZ 0 n) p 0 1).
    + lia.
    + apply NoDup_seqZ.
    + apply elem_of_seqZ. lia.
    + intros j _ Hj. destruct (i =? j); [reflexivity|].
      unfold involves. simpl.
      destruct (i =? p) eqn:E1; [apply Z.eqb_eq in E1; congruence|].
      destruct (j =? p) eqn:E2; [apply Z.eqb_eq in E2; congruence|]. reflexivity.
    + destruct (i =? p) eqn:E1; [apply Z.eqb_eq in E1; congruence|].
      unfold involves. simpl. rewrite E1, Z.eqb_refl. reflexivity.
Qed.

(** In one round a player plays 2 (n - 1) games. *)
Lemma involves_pairings n p :
  0 <= p < n ->
  Z.of_nat (length (List.filter (involves p) (pairings n))) = (n - 1) * 2.
Proof.
  intros Hp. unfold pairings. fold (pairingsOf n). rewrite filter_flat_map.
  rewrite (length_flat_map_special _ (seqZ 0 n) p 1 (Z.to_nat n - 1)).
  - rewrite length_seqZ. lia.
  - apply NoDup_seqZ.
  - apply elem_of_seqZ. lia.
  - intros i Hi Hne. apply elem_of_seqZ in Hi.
    rewrite involves_pairingsOf by lia.
    destruct (i =? p) eqn:E; [apply Z.eqb_eq in E; congruence|reflexivity].
  - rewrite involves_pairingsOf by lia. rewrite Z.eqb_refl. reflexivity.
Qed.

Lemma involves_schedule rounds n p :
  0 <= rounds -> 0 <= p < n ->
  Z.of_nat (length (List.filter (involves p) (schedule rounds n))) =
  rounds * (n - 1) * 2.
Proof.
  intros Hr Hp. unfold schedule. rewrite filter_flat_map.
  assert (H : forall l : list nat,
            Z.of_nat (length (flat_map (fun _ => List.filter (involves p) (pairings n)) l)) =
            Z.of_nat (length l) * ((n - 1) * 2)).
  { induction l as [|x l IH]; simpl; [lia|].
    rewrite length_app, Nat2Z.inj_add, IH, involves_pairings by lia. nia. }
  rewrite H, length_seq, Z2Nat.id by lia. lia.
Qed.

Lemma matchups_distinct commands rounds m :
  m ∈ matchups commands rounds -> fst (fst m) <> fst (snd m).
Proof.
  unfold matchups. intros Hin. apply list_elem_of_In, in_flat_map in Hin as (_ & _ & Hin).
  unfold roundMatchups in Hin. apply List.filter_In in Hin as [_ Hkeep].
  apply negb_true_iff, Z.eqb_neq in Hkeep. exact Hkeep.
Qed.

Lemma matchups_commands commands rounds m :
  m ∈ matchups commands rounds ->
  index commands (fst (fst m)) = Some (snd (fst m)) /\
  index commands (fst (snd m)) = Some (snd (snd m)).
Proof.
  unfold matchups. intros Hin. apply list_elem_of_In, in_flat_map in Hin as (_ & _ & Hin).
  unfold roundMatchups in Hin. apply List.filter_In in Hin as [Hin _].
  apply in_flat_map in Hin as (ic & Hic & Hin).
  apply in_map_iff in Hin as (jc & <- & Hjc). cbn [fst snd].
  destruct ic as [i ci], jc as [j cj].
  split; apply enumerate_lookup, list_elem_of_In; assumption.
Qed.

Lemma length_matchups commands rounds :
  0 <= rounds ->
  Z.of_nat (length (matchups commands rounds)) =
  rounds * Z.of_nat (length commands) * (Z.of_nat (length commands) - 1).
Proof.
  intros Hr. rewrite <- length_schedule by lia.
  rewrite <- matchups_schedule, length_map. reflexivity.
Qed.

(** The first match of a tournament is the first player against the
    second. *)
Lemma matchups_head c0 c1 rest rounds :
  1 <= rounds ->
  exists tl, matchups (c0 :: c1 :: rest) rounds = ((0, c0), (1, c1)) :: tl.
Proof.
  intros Hr. unfold matchups.
  destruct (Z.to_nat rounds) as [|k] eqn:E; [lia|].
  simpl. eexists. reflexivity.
Qed.

Section TournamentTheorems.

Context (w : World).
Context {State Move : Type} {GS : GameState State Move} {G : Game State Move}.
Context (flags : Flags).

(** A tournament that returns has played the whole schedule, in its
    order, and the count of its matches did not overflow. *)
Lemma runTournament_done fuel commands rounds tr results tr' :
  0 <= rounds ->
  runTournament w flags fuel commands rounds false tr = Done results tr' ->
  let n := Z.of_nat (length commands) in
  map player results = schedule rounds n /\
  Z.of_nat (length results) = rounds * n * (n - 1) /\
  int_mul (int_mul rounds n) (n - 1) = rounds * n * (n - 1).
Proof.
  intros Hr H n. unfold runTournament in H. fold n in H. cbv zeta in H.
  set (numResults := int_mul (int_mul rounds n) (n - 1)) in *.
  inv_bind H. rename a into results0.
  apply makeResults_done in Hm as (Eneg & _ & _ & -> & ->).
  inv_bind H. inv_ret H. rewrite tournament_loops in Hm.
  pose proof (wrap_range (int_mul rounds n * (n - 1))) as Hrange.
  fold (int_mul (int_mul rounds n) (n - 1)) in Hrange. fold numResults in Hrange.
  apply (play_all_done w flags fuel _ [] (replicate (Z.to_nat numResults) (newResult (0, 0))))
    in Hm as (more & Hmap & Hle & ->).
  2: { intros m. apply matchups_distinct. }
  2: { simpl. rewrite length_replicate. lia. }
  rewrite length_replicate in Hle.
  pose proof (length_matchups commands rounds Hr) as Hlen. fold n in Hlen.
  assert (Hexact : numResults = rounds * n * (n - 1)).
  { apply int_mul_mul_exact. fold numResults. lia. }
  cbn [fst snd]. simpl.
  rewrite drop_ge by (rewrite length_replicate; lia). rewrite app_nil_r.
  split; [|split; [|exact Hexact]].
  - rewrite Hmap. apply matchups_schedule.
  - rewrite <- Hlen. rewrite <- (length_map player more), Hmap, length_map. reflexivity.
Qed.

(** It returns when the slice of its results can be made and every
    match returns. *)
Lemma runTournament_total fuel commands rounds tr :
  let n := Z.of_nat (length commands) in
  2 <= n -> 0 <= rounds ->
  sizeofResult * (rounds * n * (n - 1)) <= maxAlloc ->
  memory w tr (sizeofResult * (rounds * n * (n - 1))) = true ->
  (forall i j ci cj, index commands i = Some ci -> index commands j = Some cj ->
     i <> j -> forall logPath msgPath tr1, exists res tr2,
     runMatch w fuel (i, j) (ci, cj) logPath msgPath tr1 = Done res tr2) ->
  exists results tr',
    runTournament w flags fuel commands rounds false tr = Done results tr'.
Proof.
  intros n Hn Hr Halloc Hmem Hrun. unfold runTournament. fold n. cbv zeta.
  assert (Hfit : rounds * n * (n - 1) <= maxInt)
    by (unfold sizeofResult, maxAlloc, maxInt in *; lia).
  assert (Hexact : int_mul (int_mul rounds n) (n - 1) = rounds * n * (n - 1)).
  { unfold int_mul. rewrite (wrap_small (rounds * n)).
    - apply wrap_small. unfold minInt, maxInt in *. nia.
    - unfold minInt, maxInt in *. nia. }
  rewrite Hexact. unfold bind at 1.
  rewrite makeResults_ok by (try assumption; nia).
  unfold bind at 1. rewrite tournament_loops.
  pose proof (length_matchups commands rounds Hr) as Hlen. fold n in Hlen.
  destruct (play_all_total w flags fuel (matchups commands rounds) []
              (replicate (Z.to_nat (rounds * n * (n - 1))) (newResult (0, 0))) tr)
    as (r & tr' & Hall).
  - intros m. apply matchups_distinct.
  - intros m Hm logPath msgPath tr1.
    pose proof (matchups_commands _ _ _ Hm) as [Hi Hj].
    apply Hrun; [exact Hi|exact Hj|]. eapply matchups_distinct, Hm.
  - simpl. rewrite length_replicate. nia.
  - rewrite length_replicate. lia.
  - simpl in Hall. change (Z.of_nat 0) with 0 in Hall.
    rewrite Hall. unfold ret. eauto.
Qed.

(** A single game is one call of runMatch, for the first player against
    the second, once the slice for its result is made. *)
Lemma runTournament_single fuel c0 c1 rest rounds tr :
  1 <= rounds ->
  runTournament w flags fuel (c0 :: c1 :: rest) rounds true tr =
  bind (makeResults w 1)
       (fun _ => bind (runMatch w fuel (0, 1) (c0, c1)
                         (logFileOf flags 1) (msgFilesOf flags 1))
                      (fun res => ret [res])) tr.
Proof.
  intros Hr. destruct (matchups_head c0 c1 rest rounds Hr) as (tl & Hms).
  unfold runTournament. cbv zeta. cbv iota.
  apply bind_ext_done. intros results tr1 Hmk.
  apply makeResults_done in Hmk as (_ & _ & _ & -> & ->).
  erewrite bind_eq_l by apply tournament_loops.
  rewrite Hms. cbn [forEach]. rewrite bind_assoc.
  unfold playPair at 1. cbn [fst snd].
  change (negb (0 =? 1)) with true. cbv iota.
  rewrite bind_assoc. apply bind_ext_done. intros res tr1 _. reflexivity.
Qed.

Lemma runTournament_single_done fuel c0 c1 rest rounds tr results tr' :
  1 <= rounds ->
  runTournament w flags fuel (c0 :: c1 :: rest) rounds true tr = Done results tr' ->
  memory w tr sizeofResult = true /\
  exists res,
    runMatch w fuel (0, 1) (c0, c1) (logFileOf flags 1) (msgFilesOf flags 1) tr =
      Done res tr' /\
    results = [res].
Proof.
  intros Hr H. rewrite runTournament_single in H by exact Hr.
  inv_bind H. apply makeResults_done in Hm as (_ & _ & Hmem & _ & ->).
  inv_bind H. inv_ret H. split; [exact Hmem|]. eauto.
Qed.

(** A tournament is the matches of its schedule, one after the other,
    once the slice for its results is made. *)
Lemma runTournament_schedule fuel commands rounds tr :
  let n := Z.of_nat (length commands) in
  0 <= rounds ->
  sizeofResult * (rounds * n * (n - 1)) <= maxAlloc ->
  memory w tr (sizeofResult * (rounds * n * (n - 1))) = true ->
  runTournament w flags fuel commands rounds false tr =
  playSchedule w flags fuel commands (schedule rounds n) 0 tr.
Proof.
  intros n Hr Halloc Hmem.
  pose proof (length_matchups commands rounds Hr) as Hlen. fold n in Hlen.
  assert (Hpos : 0 <= rounds * n * (n - 1)) by lia.
  assert (Hfit : rounds * n * (n - 1) <= maxInt)
    by (unfold sizeofResult, maxAlloc, maxInt in *; lia).
  assert (Hexact : int_mul (int_mul rounds n) (n - 1) = rounds * n * (n - 1)).
  { destruct (Z.eq_dec n 0) as [E0|E0].
    { rewrite E0. unfold int_mul. rewrite Z.mul_0_r. reflexivity. }
    destruct (Z.eq_dec n 1) as [E1|E1].
    { rewrite E1. unfold int_mul. change (1 - 1) with 0. rewrite !Z.mul_0_r. reflexivity. }
    unfold int_mul. rewrite (wrap_small (rounds * n)).
    - apply wrap_small. unfold minInt, maxInt in *. nia.
    - unfold minInt, maxInt in *. nia. }
  unfold runTournament. fold n. cbv zeta. rewrite Hexact.
  unfold bind at 1. rewrite makeResults_ok by assumption.
  erewrite bind_eq_l by apply tournament_loops.
  pose proof (play_all_schedule w flags fuel commands (matchups commands rounds) []
                (replicate (Z.to_nat (rounds * n * (n - 1))) (newResult (0, 0))) tr)
    as Heq.
  cbn [app length] in Heq. change (Z.of_nat 0) with 0 in Heq.
  rewrite Heq; clear Heq.
  - change (map pairOf (matchups commands rounds))
      with (map (fun m : (Z * string) * (Z * string) => (fst (fst m), fst (snd m)))
                (matchups commands rounds)).
    rewrite matchups_schedule. fold n.
    rewrite drop_ge by (rewrite length_replicate; lia).
    transitivity (bind (playSchedule w flags fuel commands (schedule rounds n) 0) ret tr);
      [|apply bind_ret_r].
    apply bind_ext_done. intros more tr1 _. rewrite app_nil_r. reflexivity.
  - intros m Hm. split; [eapply matchups_distinct, Hm|eapply matchups_commands, Hm].
  - rewrite length_replicate. lia.
  - rewrite length_replicate. lia.
Qed.

(** A single game is the first match of the schedule and no other. *)
Lemma runTournament_first fuel commands rounds tr :
  let n := Z.of_nat (length commands) in
  2 <= n -> 1 <= rounds ->
  memory w tr sizeofResult = true ->
  take 1 (schedule rounds n) = [(0, 1)] /\
  runTournament w flags fuel commands rounds true tr =
  playSchedule w flags fuel commands (take 1 (schedule rounds n)) 0 tr.
Proof.
  intros n Hn Hr Hmem.
  destruct commands as [|c0 [|c1 rest]]; [simpl in n; lia|simpl in n; lia|].
  destruct (matchups_head c0 c1 rest rounds Hr) as (tl & Hms).
  assert (Hhead : take 1 (schedule rounds n) = [(0, 1)]).
  { subst n. rewrite <- matchups_schedule, Hms. reflexivity. }
  split; [exact Hhead|].
  rewrite Hhead, runTournament_single by exact Hr.
  unfold bind at 1. rewrite makeResults_ok; [|lia|unfold sizeofResult, maxAlloc; lia|].
  2: { rewrite Z.mul_1_r. exact Hmem. }
  cbn [playSchedule]. change (index (c0 :: c1 :: rest) 0) with (Some c0).
  change (index (c0 :: c1 :: rest) 1) with (Some c1). cbv iota.
  apply bind_ext_done. intros res tr1 _. reflexivity.
Qed.

End TournamentTheorems.

(** ** Slices *)

Lemma index_Some {A} (l : list A) i x :
  index l i = Some x <-> 0 <= i /\ l !! Z.to_nat i = Some x.
Proof.
  unfold index. destruct (i <? 0) eqn:E.
  - apply Z.ltb_lt in E. split; [discriminate|lia].
  - apply Z.ltb_ge in E. tauto.
Qed.

Lemma update_index {A} (l l' : list A) i f :
  update l i f = Some l' ->
  length l' = length l /\
  forall k, index l' k = (if decide (k = i) then f else id) <$> index l k.
Proof.
  unfold update. intros H.
  destruct (index l i) as [x|] eqn:Hi; [|discriminate]. cbn in H. injection H as <-.
  apply index_Some in Hi as [Hi0 Hlk].
  split; [apply length_insert|].
  intros k. unfold index. destruct (k <? 0) eqn:E; [reflexivity|]. apply Z.ltb_ge in E.
  case_decide as Hk.
  - subst k. rewrite list_lookup_insert_eq by (eapply lookup_lt_Some; eauto).
    rewrite Hlk. reflexivity.
  - rewrite list_lookup_insert_ne by lia. destruct (l !! Z.to_nat k); reflexivity.
Qed.

Lemma update2_index2 {A} (m m' : list (list A)) i j f :
  update2 m i j f = Some m' ->
  length m' = length m /\
  forall a b, index2 m' a b =
    (if decide (a = i /\ b = j) then f else id) <$> index2 m a b.
Proof.
  unfold update2. intros H.
  destruct (index m i) as [row|] eqn:Hi; [|discriminate]. cbn in H.
  destruct (update row j f) as [row'|] eqn:Hrow; [|discriminate]. cbn in H.
  injection H as <-.
  apply update_index in Hrow as [_ Hrow].
  assert (Hup : update m i (fun _ => row') = Some (<[Z.to_nat i := row']> m)).
  { unfold update. rewrite Hi. reflexivity. }
  apply update_index in Hup as [Hlen Hup].
  split; [exact Hlen|].
  intros a b. unfold index2. rewrite Hup.
  case_decide as Ha.
  - subst a. rewrite Hi. cbn. rewrite Hrow.
    case_decide; case_decide; try tauto; reflexivity.
  - case_decide as Hab; [tauto|].
    destruct (index m a) as [r|]; cbn; [|reflexivity].
    destruct (index r b); reflexivity.
Qed.

Lemma fmap_id_option {A} (x : option A) : id <$> x = x.
Proof. destruct x; reflexivity. Qed.

(** ** The statistics *)

(** What the loop body of lines 369-389 does to every entry. *)
Lemma account_spec res i s s' :
  account res i s = Some s' ->
  let me := get i (player res) in
  let opp := get (other i) (player res) in
  let at_me (k : Z) (f : Z -> Z) : Z -> Z := if decide (k = me) then f else id in
  (forall k, index (totalPoints s') k =
     at_me k (fun v => int_add v (get i (points res))) <$> index (totalPoints s) k) /\
  (forall k, index (gamesFailed s') k =
     at_me k (if get i (failed res) then incr else id) <$> index (gamesFailed s) k) /\
  (forall k, index (gamesWon s') k =
     at_me k (if get i (score res) >? get (other i) (score res) then incr else id)
       <$> index (gamesWon s) k) /\
  (forall k, index (gamesTied s') k =
     at_me k (if get i (score res) =? get (other i) (score res) then incr else id)
       <$> index (gamesTied s) k) /\
  (forall k, index (gamesLost s') k =
     at_me k (if get i (score res) <? get (other i) (score res) then incr else id)
       <$> index (gamesLost s) k) /\
  (forall a b, index2 (winLoss s') a b =
     (if decide (a = me /\ b = opp)
      then (if get i (score res) >? get (other i) (score res) then incr else id)
      else id) <$> index2 (winLoss s) a b) /\
  (forall k, index (timeUsed s') k =
     (if decide (k = me) then (fun t => PrimFloat.add t (get i (time res))) else id)
       <$> index (timeUsed s) k) /\
  (forall k, index (timeMax s') k =
     (if decide (k = me)
      then (fun mx => if PrimFloat.ltb mx (get i (time res)) then get i (time res) else mx)
      else id) <$> index (timeMax s) k).
Proof.
  intros H me opp at_me. unfold account in H. fold me opp in H.
  destruct (update (totalPoints s) me _) as [tp|] eqn:Htp; [|discriminate]. cbn in H.
  destruct (update2 (pairScore s) me opp _) as [ps|] eqn:Hps; [|discriminate]. cbn in H.
  destruct (if get i (failed res) then _ else _) as [gf|] eqn:Hgf in H; [|discriminate].
  cbn in H.
  destruct (if get i (score res) >? _ then update _ _ _ else _) as [gw|] eqn:Hgw in H;
    [|discriminate]. cbn in H.
  destruct (if get i (score res) >? _ then update2 _ _ _ _ else _) as [wl|] eqn:Hwl in H;
    [|discriminate]. cbn in H.
  destruct (if get i (score res) =? _ then _ else _) as [gt|] eqn:Hgt in H;
    [|discriminate]. cbn in H.
  destruct (if get i (score res) <? _ then _ else _) as [gl|] eqn:Hgl in H;
    [|discriminate]. cbn in H.
  destruct (update (timeUsed s) me _) as [tu|] eqn:Htu; [|discriminate]. cbn in H.
  destruct (index (timeMax s) me) as [mx|] eqn:Hmx; [|discriminate]. cbn in H.
  destruct (if PrimFloat.ltb mx _ then _ else _) as [tm|] eqn:Htm in H; [|discriminate].
  cbn in H. injection H as <-. cbn.
  repeat split.
  - intros k. apply update_index in Htp as [_ Htp]. rewrite Htp. reflexivity.
  - intros k. unfold at_me. destruct (get i (failed res)).
    + apply update_index in Hgf as [_ Hgf]. rewrite Hgf. reflexivity.
    + injection Hgf as <-. case_decide; rewrite fmap_id_option; reflexivity.
  - intros k. unfold at_me. destruct (_ >? _).
    + apply update_index in Hgw as [_ Hgw]. rewrite Hgw. reflexivity.
    + injection Hgw as <-. case_decide; rewrite fmap_id_option; reflexivity.
  - intros k. unfold at_me. destruct (_ =? _).
    + apply update_index in Hgt as [_ Hgt]. rewrite Hgt. reflexivity.
    + injection Hgt as <-. case_decide; rewrite fmap_id_option; reflexivity.
  - intros k. unfold at_me. destruct (_ <? _).
    + apply update_index in Hgl as [_ Hgl]. rewrite Hgl. reflexivity.
    + injection Hgl as <-. case_decide; rewrite fmap_id_option; reflexivity.
  - intros a b. destruct (_ >? _).
    + apply update2_index2 in Hwl as [_ Hwl]. rewrite Hwl. reflexivity.
    + injection Hwl as <-. case_decide; rewrite fmap_id_option; reflexivity.
  - intros k. apply update_index in Htu as [_ Htu]. rewrite Htu. reflexivity.
  - intros k. destruct (PrimFloat.ltb mx _) eqn:Elt.
    + apply update_index in Htm as [_ Htm]. rewrite Htm.
      case_decide as Hk; [|reflexivity]. subst k. rewrite Hmx. cbn. rewrite Elt. reflexivity.
    + injection Htm as <-. case_decide as Hk; [|rewrite fmap_id_option; reflexivity].
      subst k. rewrite Hmx. cbn. rewrite Elt. reflexivity.
Qed.

Section Aggregator.

Context (w : World).
Context {State Move : Type} {GS : GameState State Move} {G : Game State Move}.

Lemma runMatch_points fuel players commands logPath msgPath tr r tr' i :
  runMatch w fuel players commands logPath msgPath tr = Done r tr' ->
  get i (points r) =
    if get i (failed r) then 0
    else 1 + (if get i (score r) >? get (other i) (score r) then 1 else 0).
Proof.
  intros H. apply runMatch_done in H as (st0 & tr0 & st & tr1 & _ & _ & Hp & _ & ->).
  pose proof (competitionPoints_spec (set_score (Scores (gamestate st)) (result st)) Hp)
    as (_ & Hs & Hf & _ & Hpts).
  rewrite Hpts, Hs, Hf. reflexivity.
Qed.

(** C9.  The statistics classify a game as won, tied or lost, and count
    the head-to-head win, by comparing the two final scores and nothing
    else: the failed flags do not enter.  So a player that failed and
    whose final score is strictly greater than the opponent's has the
    game counted as won, and the win counted against that opponent,
    while its total of competition points grows by 0 for that game. *)
Theorem C9_wins_by_score_alone fuel players commands logPath msgPath tr res tr'
    (s s' : Standings) (i : Slot) :
  runMatch w fuel players commands logPath msgPath tr = Done res tr' ->
  fst players <> snd players ->
  accountResult res s = Some s' ->
  let me := get i players in
  let opp := get (other i) players in
  let won := get i (score res) >? get (other i) (score res) in
  let tied := get i (score res) =? get (other i) (score res) in
  let lost := get i (score res) <? get (other i) (score res) in
  index (gamesWon s') me = (if won then incr else id) <$> index (gamesWon s) me /\
  index (gamesTied s') me = (if tied then incr else id) <$> index (gamesTied s) me /\
  index (gamesLost s') me = (if lost then incr else id) <$> index (gamesLost s) me /\
  index2 (winLoss s') me opp = (if won then incr else id) <$> index2 (winLoss s) me opp /\
  (get i (failed res) = true -> get i (score res) > get (other i) (score res) ->
   index (gamesWon s') me = incr <$> index (gamesWon s) me /\
   index2 (winLoss s') me opp = incr <$> index2 (winLoss s) me opp /\
   index (gamesFailed s') me = incr <$> index (gamesFailed s) me /\
   get i (points res) = 0 /\
   index (totalPoints s') me = (fun v => int_add v 0) <$> index (totalPoints s) me).
Proof.
  intros Hrun Hne Hacc me opp won tied lost.
  pose proof (runMatch_player w _ _ _ _ _ _ _ _ Hrun) as Hpl.
  unfold accountResult in Hacc.
  destruct (account res S0 s) as [s1|] eqn:H0; [|discriminate]. cbn in Hacc.
  pose proof (account_spec _ _ _ _ H0) as (Htp0 & Hgf0 & Hgw0 & Hgt0 & Hgl0 & Hwl0 & _ & _).
  pose proof (account_spec _ _ _ _ Hacc) as (Htp1 & Hgf1 & Hgw1 & Hgt1 & Hgl1 & Hwl1 & _ & _).
  cbv zeta in *. rewrite Hpl in *. change (other S0) with S1 in *.
  change (other S1) with S0 in *.
  assert (Hme : forall (f0 f1 : Z -> Z) (x : option Z),
    (if decide (me = get S1 players) then f1 else id) <$>
      ((if decide (me = get S0 players) then f0 else id) <$> x) =
    (match i with S0 => f0 | S1 => f1 end) <$> x).
  { intros f0 f1 x. subst me. destruct i; cbn [get];
      repeat case_decide; try congruence; destruct x; reflexivity. }
  assert (Hmo : forall (f0 f1 : Z -> Z) (x : option Z),
    (if decide (me = get S1 players /\ opp = get S0 players) then f1 else id) <$>
      ((if decide (me = get S0 players /\ opp = get S1 players) then f0 else id) <$> x) =
    (match i with S0 => f0 | S1 => f1 end) <$> x).
  { intros f0 f1 x. subst me opp. destruct i; cbn [get other];
      repeat case_decide; try tauto; try (destruct x; reflexivity);
      exfalso; intuition congruence. }
  assert (Hwon : index (gamesWon s') me = (if won then incr else id) <$> index (gamesWon s) me).
  { rewrite Hgw1, Hgw0, Hme. subst won. destruct i; reflexivity. }
  assert (Hwl : index2 (winLoss s') me opp =
                (if won then incr else id) <$> index2 (winLoss s) me opp).
  { rewrite Hwl1, Hwl0, Hmo. subst won. destruct i; reflexivity. }
  split; [exact Hwon|]. split; [|split; [|split; [exact Hwl|]]].
  - rewrite Hgt1, Hgt0, Hme. subst tied. destruct i; reflexivity.
  - rewrite Hgl1, Hgl0, Hme. subst lost. destruct i; reflexivity.
  - intros Hfailed Hgt.
    assert (Ew : won = true) by (subst won; apply Z.gtb_gt; exact Hgt).
    rewrite Ew in Hwon, Hwl.
    pose proof (runMatch_points _ _ _ _ _ _ _ _ i Hrun) as Hpts. rewrite Hfailed in Hpts.
    split; [exact Hwon|]. split; [exact Hwl|]. split; [|split; [exact Hpts|]].
    + rewrite Hgf1, Hgf0, Hme. destruct i; cbn [get] in *; rewrite Hfailed; reflexivity.
    + rewrite Htp1, Htp0, Hme. destruct i; cbn [get] in *; rewrite Hpts; reflexivity.
Qed.

End Aggregator.

(** ** The ranking *)

Lemma Less_spec a b :
  Less a b = true <-> first a < first b \/ (first a = first b /\ second a < second b).
Proof.
  unfold Less. rewrite orb_true_iff, andb_true_iff, !Z.ltb_lt, Z.eqb_eq. reflexivity.
Qed.

Lemma notAfter_spec a b :
  notAfter a b <-> first a < first b \/ (first a = first b /\ second a <= second b).
Proof.
  unfold notAfter. destruct (Less b a) eqn:E.
  - apply Less_spec in E. split; [discriminate|lia].
  - split; [intros _|reflexivity].
    destruct (decide (first a < first b \/ first a = first b /\ second a <= second b))
      as [|Hn]; [assumption|].
    assert (Less b a = true) by (apply Less_spec; lia). congruence.
Qed.

#[export] Instance notAfter_trans : Transitive notAfter.
Proof. intros a b c. rewrite !notAfter_spec. lia. Qed.

#[export] Instance notAfter_antisym : AntiSymm (=) notAfter.
Proof.
  intros [a1 a2] [b1 b2]. rewrite !notAfter_spec. simpl. intros ? ?.
  f_equal; lia.
Qed.

Lemma insertPair_Permutation x l : insertPair x l ≡ₚ x :: l.
Proof.
  induction l as [|y l IH]; simpl; [reflexivity|].
  destruct (Less y x); [|reflexivity].
  rewrite IH. apply perm_swap.
Qed.

Lemma Sort_Permutation l : Sort l ≡ₚ l.
Proof.
  induction l as [|x l IH]; simpl; [reflexivity|].
  rewrite insertPair_Permutation, IH. reflexivity.
Qed.

Lemma insertPair_sorted x l :
  StronglySorted notAfter l -> StronglySorted notAfter (insertPair x l).
Proof.
  induction 1 as [|y l Hs IH Hall]; simpl.
  - repeat constructor.
  - destruct (Less y x) eqn:E.
    + constructor; [exact IH|].
      rewrite insertPair_Permutation. constructor; [|exact Hall].
      apply notAfter_spec. apply Less_spec in E. lia.
    + constructor; [constructor; assumption|].
      constructor; [exact E|].
      eapply Forall_impl; [exact Hall|]. intros z Hz. cbn beta in Hz.
      etransitivity; [exact E|exact Hz].
Qed.

Lemma Sort_sorted l : StronglySorted notAfter (Sort l).
Proof.
  induction l as [|x l IH]; simpl; [constructor|]. apply insertPair_sorted, IH.
Qed.

(** Whatever sorts by Less gives the slice [Sort] gives: the order of
    two pairs in a sorted slice is open only when they are equal. *)
Lemma Sort_unique l l' :
  l' ≡ₚ l -> StronglySorted notAfter l' -> l' = Sort l.
Proof.
  intros Hperm Hsorted.
  apply (StronglySorted_unique notAfter); [exact Hsorted|apply Sort_sorted|].
  rewrite Hperm, Sort_Permutation. reflexivity.
Qed.

Lemma StronglySorted_lookup {A} (R : relation A) l a b x y :
  StronglySorted R l -> (a < b)%nat ->
  l !! a = Some x -> l !! b = Some y -> R x y.
Proof.
  intros Hs. revert a b. induction Hs as [|z l Hs IH Hall]; intros a b Hab Ha Hb.
  - discriminate.
  - destruct b as [|b]; [lia|]. simpl in Hb.
    destruct a as [|a].
    + simpl in Ha. injection Ha as ->.
      rewrite Forall_forall in Hall. apply Hall.
      eapply list_elem_of_lookup_2. exact Hb.
    + simpl in Ha. eapply (IH a b); [lia|exact Ha|exact Hb].
Qed.

(** The loop of Reverse turns the middle of the slice around. *)
Ltac list_shape := repeat (rewrite <- app_assoc || cbn [app]); reflexivity.
Lemma reverseLoop_spec fuel (pre mid post : list IntPair) :
  (length mid <= fuel)%nat ->
  reverseLoop fuel (Z.of_nat (length pre))
    (Z.of_nat (length pre) + Z.of_nat (length mid) - 1) (pre ++ mid ++ post) =
  Some (pre ++ reverse mid ++ post).
Proof.
  revert pre mid post. induction fuel as [|fuel IH]; intros pre mid post Hfuel.
  - destruct mid; [|simpl in Hfuel; lia]. simpl.
    destruct (_ <? _) eqn:E; [apply Z.ltb_lt in E; lia|reflexivity].
  - destruct mid as [|x mid].
    { simpl. destruct (_ <? _) eqn:E; [apply Z.ltb_lt in E; lia|reflexivity]. }
    destruct (decide (mid = [])) as [->|Hne].
    { simpl. destruct (_ <? _) eqn:E; [apply Z.ltb_lt in E; lia|reflexivity]. }
    destruct (exists_last Hne) as (mid' & y & ->).
    cbn [reverseLoop].
    destruct (_ <? _) eqn:E.
    2: { apply Z.ltb_ge in E. simpl in E. rewrite length_app in E. simpl in E. lia. }
    assert (Hshape : pre ++ (x :: mid' ++ [y]) ++ post = pre ++ x :: (mid' ++ y :: post))
      by list_shape.
    rewrite Hshape.
    assert (Hi : index (pre ++ x :: (mid' ++ y :: post)) (Z.of_nat (length pre)) = Some x).
    { apply index_Some. split; [lia|]. rewrite Nat2Z.id.
      apply list_lookup_middle. reflexivity. }
    set (j := Z.of_nat (length pre) + Z.of_nat (length (x :: mid' ++ [y])) - 1) in *.
    assert (Ej : Z.to_nat j = length (pre ++ x :: mid')).
    { subst j. rewrite !length_app. simpl. rewrite length_app. simpl. lia. }
    assert (Hj : index (pre ++ x :: (mid' ++ y :: post)) j = Some y).
    { apply index_Some. split; [subst j; lia|]. rewrite Ej.
      replace (pre ++ x :: (mid' ++ y :: post)) with ((pre ++ x :: mid') ++ y :: post)
        by list_shape.
      apply list_lookup_middle. reflexivity. }
    unfold Swap. rewrite Hi, Hj. cbn [mbind option_bind].
    rewrite Nat2Z.id, Ej.
    rewrite (insert_app_r_alt pre) by lia. rewrite Nat.sub_diag. cbn [insert list_insert].
    replace (pre ++ y :: mid' ++ y :: post) with ((pre ++ y :: mid') ++ y :: post)
      by list_shape.
    replace (length (pre ++ x :: mid')) with (length (pre ++ y :: mid') + 0)%nat
      by (rewrite !length_app; simpl; lia).
    rewrite insert_app_r. cbn [insert list_insert].
    replace ((pre ++ y :: mid') ++ x :: post) with ((pre ++ [y]) ++ mid' ++ (x :: post))
      by list_shape.
    replace (Z.of_nat (length pre) + 1) with (Z.of_nat (length (pre ++ [y])))
      by (rewrite length_app; simpl; lia).
    replace (j - 1) with (Z.of_nat (length (pre ++ [y])) + Z.of_nat (length mid') - 1).
    2: { subst j. rewrite !length_app. simpl. rewrite length_app. simpl. lia. }
    rewrite IH.
    2: { simpl in Hfuel. rewrite length_app in Hfuel. simpl in Hfuel. lia. }
    f_equal. rewrite reverse_cons, reverse_app, reverse_singleton. list_shape.
Qed.

Lemma Reverse_reverse ips : Reverse ips = Some (reverse ips).
Proof.
  unfold Reverse.
  pose proof (reverseLoop_spec (length ips) [] ips []) as H.
  rewrite !app_nil_r in H. simpl in H. apply H. lia.
Qed.

Lemma enumerate_lookup_nat {A} (l : list A) i x :
  enumerate l !! i = Some x <-> exists c, l !! i = Some c /\ x = (Z.of_nat i, c).
Proof.
  unfold enumerate. rewrite list_lookup_imap.
  destruct (l !! i) as [c|]; simpl; split.
  - intros [= <-]. eauto.
  - intros (c' & [= <-] & ->). reflexivity.
  - discriminate.
  - intros (c' & ? & _). discriminate.
Qed.

Lemma pointPairs_mapM (tps : list Z) (players : list string) :
  length tps = length players ->
  mapM (fun ic : Z * string => tp ← index tps (fst ic);
                                Some {| first := tp; second := - fst ic |})
       (enumerate players) = Some (pointPairs tps).
Proof.
  intros Hlen. apply mapM_Some_2. apply Forall2_same_length_lookup_2.
  - unfold enumerate, pointPairs. rewrite !length_imap. congruence.
  - intros i x y Hx Hy. apply enumerate_lookup_nat in Hx as (c & _ & ->).
    unfold pointPairs in Hy. rewrite list_lookup_imap in Hy.
    destruct (tps !! i) as [tp|] eqn:Htp; [|discriminate]. injection Hy as <-.
    cbn [fst]. assert (Hi : index tps (Z.of_nat i) = Some tp).
    { apply index_Some. split; [lia|]. rewrite Nat2Z.id. exact Htp. }
    rewrite Hi. reflexivity.
Qed.

Lemma pointPairs_players tps :
  (fun ip : IntPair => - second ip) <$> pointPairs tps = seqZ 0 (Z.of_nat (length tps)).
Proof.
  unfold pointPairs. rewrite fmap_imap.
  apply list_eq. intros i. rewrite list_lookup_imap.
  destruct (decide (i < length tps)%nat) as [Hlt|Hge].
  - rewrite lookup_seqZ_lt by lia.
    destruct (lookup_lt_is_Some_2 tps i Hlt) as (tp & ->). simpl. f_equal. lia.
  - rewrite lookup_seqZ_ge by lia. rewrite lookup_ge_None_2 by lia. reflexivity.
Qed.

Lemma pointPairs_elem tps ip :
  ip ∈ pointPairs tps -> index tps (- second ip) = Some (first ip).
Proof.
  unfold pointPairs. intros Hin. apply elem_of_lookup_imap in Hin as (i & tp & -> & Hlk).
  cbn [first second]. apply index_Some. split; [lia|].
  replace (- - Z.of_nat i) with (Z.of_nat i) by lia. rewrite Nat2Z.id. exact Hlk.
Qed.

(** C7.  The ranking of the verbose report is what building the pairs
    (total points, negated index), sorting them with Less and reversing
    gives: every player stands in it once, a player with more total
    points stands before one with fewer, and of two players with equal
    points the one with the lower index in the player list stands
    first. *)
Theorem C7_ranking_order (s : Standings) (players : list string) :
  length (totalPoints s) = length players ->
  exists ranking,
    pointsPlayers s players = Some ranking /\
    ranking = reverse (Sort (pointPairs (totalPoints s))) /\
    (fun ip : IntPair => - second ip) <$> ranking ≡ₚ seqZ 0 (Z.of_nat (length players)) /\
    (forall ip, ip ∈ ranking -> index (totalPoints s) (- second ip) = Some (first ip)) /\
    (forall a b ip iq,
       (a < b)%nat -> ranking !! a = Some ip -> ranking !! b = Some iq ->
       first ip > first iq \/ (first ip = first iq /\ - second ip < - second iq)) /\
    (forall numGames rows matrix,
       verboseResults s numGames players = Some (Verbose rows matrix) ->
       length rows = length ranking /\
       forall a ip, ranking !! a = Some ip ->
         exists name line,
           rows !! a = Some (Z.of_nat a + 1, shorten name 30, line) /\
           index players (- second ip) = Some name /\
           statLine s numGames (- second ip) = Some line).
Proof.
  intros Hlen. exists (reverse (Sort (pointPairs (totalPoints s)))).
  set (sorted := Sort (pointPairs (totalPoints s))).
  assert (Hperm : reverse sorted ≡ₚ pointPairs (totalPoints s)).
  { rewrite reverse_Permutation. apply Sort_Permutation. }
  assert (Hpp : pointsPlayers s players = Some (reverse sorted)).
  { unfold pointsPlayers. rewrite (pointPairs_mapM _ _ Hlen). cbn.
    apply Reverse_reverse. }
  split; [exact Hpp|split; [reflexivity|split; [|split; [|split]]]].
  - rewrite Hperm, pointPairs_players, Hlen. reflexivity.
  - intros ip Hin. rewrite Hperm in Hin. apply pointPairs_elem, Hin.
  - intros a b ip iq Hab Ha Hb.
    pose proof (lookup_lt_Some _ _ _ Ha) as Hla.
    pose proof (lookup_lt_Some _ _ _ Hb) as Hlb.
    rewrite length_reverse in Hla, Hlb.
    rewrite reverse_lookup in Ha, Hb by assumption.
    assert (Hpos : (length sorted - S b < length sorted - S a)%nat) by lia.
    pose proof (StronglySorted_lookup notAfter sorted _ _ _ _
                  (Sort_sorted _) Hpos Hb Ha) as Hord.
    apply notAfter_spec in Hord.
    assert (Hnd : NoDup (second <$> sorted)).
    { unfold sorted. rewrite Sort_Permutation.
      assert (E : second <$> pointPairs (totalPoints s) =
                  Z.opp <$> seqZ 0 (Z.of_nat (length (totalPoints s)))).
      { rewrite <- pointPairs_players, <- list_fmap_compose.
        apply list_fmap_ext. intros _ [tp i] _. simpl. lia. }
      rewrite E. apply NoDup_fmap_2; [|apply NoDup_seqZ].
      intros x y. lia. }
    assert (Hneq : second ip <> second iq).
    { intros Heq.
      assert (Hia : (second <$> sorted) !! (length sorted - S a)%nat = Some (second ip))
        by (rewrite list_lookup_fmap, Ha; reflexivity).
      assert (Hib : (second <$> sorted) !! (length sorted - S b)%nat = Some (second iq))
        by (rewrite list_lookup_fmap, Hb; reflexivity).
      rewrite <- Heq in Hib.
      pose proof (NoDup_lookup _ _ _ _ Hnd Hia Hib). lia. }
    lia.
  - intros numGames rows matrix Hv. unfold verboseResults in Hv. rewrite Hpp in Hv.
    cbn [mbind option_bind] in Hv.
    apply bind_Some in Hv as (rows' & Hrows & Hv).
    apply bind_Some in Hv as (matrix' & _ & Hv). injection Hv as <- <-.
    apply mapM_Some_1 in Hrows.
    pose proof (Forall2_length _ _ _ Hrows) as Hl.
    unfold enumerate in Hl. rewrite length_imap in Hl.
    split; [congruence|].
    intros a ip Ha.
    assert (He : enumerate (reverse sorted) !! a = Some (Z.of_nat a, ip)).
    { apply enumerate_lookup_nat. eauto. }
    destruct (Forall2_lookup_l _ _ _ _ _ Hrows He) as (row & Hrow & Hrank).
    unfold rankRow in Hrank. cbn [fst snd] in Hrank.
    apply bind_Some in Hrank as (name & Hname & Hrank).
    apply bind_Some in Hrank as (line & Hline & Hrank). injection Hrank as <-.
    exists name, line. auto.
Qed.

(** ** The brief report *)

Lemma accountResult_timeUsed res s s' p :
  accountResult res s = Some s' ->
  index (timeUsed s') p = (fun t => addElapsed p t res) <$> index (timeUsed s) p.
Proof.
  unfold accountResult. intros H.
  destruct (account res S0 s) as [s1|] eqn:H0; [|discriminate]. cbn in H.
  pose proof (account_spec _ _ _ _ H0) as (_ & _ & _ & _ & _ & _ & Ht0 & _).
  pose proof (account_spec _ _ _ _ H) as (_ & _ & _ & _ & _ & _ & Ht1 & _).
  cbv zeta in *. rewrite Ht1, Ht0. unfold addElapsed. cbn [get].
  destruct (index (timeUsed s) p) as [t|]; [|reflexivity]. cbn.
  repeat case_decide; subst;
    repeat match goal with
    | |- context [?a =? ?b] =>
        let E := fresh in destruct (a =? b) eqn:E;
        [apply Z.eqb_eq in E|apply Z.eqb_neq in E]
    end; try congruence; reflexivity.
Qed.

Lemma aggregate_timeUsed results s s' p :
  aggregate results s = Some s' ->
  index (timeUsed s') p =
  (fun t => fold_left (addElapsed p) results t) <$> index (timeUsed s) p.
Proof.
  revert s. induction results as [|res results IH]; intros s H; simpl in H.
  - injection H as <-. destruct (index (timeUsed s) p); reflexivity.
  - destruct (accountResult res s) as [s1|] eqn:H1; [|discriminate]. cbn in H.
    rewrite (IH _ H), (accountResult_timeUsed _ _ _ p H1).
    destruct (index (timeUsed s) p); reflexivity.
Qed.

Lemma filter_takesPart p results :
  length (List.filter (takesPart p) results) =
  length (List.filter (involves p) (map player results)).
Proof.
  induction results as [|r results IH]; simpl; [reflexivity|].
  unfold takesPart at 1. destruct (involves p (player r)); simpl; rewrite IH; reflexivity.
Qed.

Section Report.

Context (w : World).
Context {State Move : Type} {GS : GameState State Move} {G : Game State Move}.
Context (flags : Flags).

(** C8.  The brief report has one line for each player, in the order of
    the player list; the values of a line are, in this order, the
    player's total points, games won, tied and lost, its failures, its
    average time and its greatest time.  The average time is the time
    the player used in all its games divided by numGames, which is the
    number of games the player took part in: rounds * (n - 1) * 2, or 1
    for a single game. *)
Theorem C8_brief_report fuel rounds single players tr lines tr' :
  main w flags fuel rounds single players tr = Done (Brief lines) tr' ->
  let n := Z.of_nat (length players) in
  let numGames := numGamesOf rounds players single in
  exists results s,
    quiet flags = true /\
    runTournament w flags fuel players rounds single tr = Done results tr' /\
    aggregate results (newStandings (length players)) = Some s /\
    length lines = length players /\
    numGames = (if single then 1 else rounds * (n - 1) * 2) /\
    forall p, 0 <= p < n ->
      Z.of_nat (length (List.filter (takesPart p) results)) = numGames /\
      exists tp gw gt gl gf tm,
        index (totalPoints s) p = Some tp /\
        index (gamesWon s) p = Some gw /\
        index (gamesTied s) p = Some gt /\
        index (gamesLost s) p = Some gl /\
        index (gamesFailed s) p = Some gf /\
        index (timeUsed s) p = Some (elapsedOf p results) /\
        index (timeMax s) p = Some tm /\
        index lines p =
          Some (tp, gw, gt, gl, gf,
                PrimFloat.div (elapsedOf p results) (float64_of_int numGames), tm).
Proof.
  intros H n numGames. unfold main in H. fold n in H.
  destruct (n <? 2) eqn:En; [discriminate|]. apply Z.ltb_ge in En.
  destruct (rounds <? 1) eqn:Er; [discriminate|]. apply Z.ltb_ge in Er.
  destruct (single && ((n >? 2) || (rounds >? 1))) eqn:Es; [discriminate|].
  inv_bind H. rename a into results, Hm into Hrun.
  destruct (report flags rounds single players results) as [out|] eqn:Hrep; [|discriminate].
  inv_ret H. unfold report in Hrep.
  destruct (aggregate results (newStandings (length players))) as [s|] eqn:Hagg;
    [|discriminate]. cbn in Hrep.
  destruct (quiet flags) eqn:Hq.
  2: { unfold verboseResults in Hrep.
       apply bind_Some in Hrep as (ranking & _ & Hrep).
       apply bind_Some in Hrep as (rows & _ & Hrep).
       apply bind_Some in Hrep as (matrix & _ & Hrep). discriminate. }
  destruct (briefResults s (numGamesOf rounds players single) players) as [ls|] eqn:Hbrief;
    [|discriminate]. cbn in Hrep. injection Hrep as ->.
  fold numGames in Hbrief.
  exists results, s. split; [reflexivity|]. split; [exact Hrun|]. split; [exact Hagg|].
  unfold briefResults in Hbrief. apply mapM_Some_1 in Hbrief.
  pose proof (Forall2_length _ _ _ Hbrief) as Hlen.
  unfold enumerate in Hlen. rewrite length_imap in Hlen.
  split; [congruence|].
  (* the number of games and who played them *)
  assert (Hgames : numGames = (if single then 1 else rounds * (n - 1) * 2) /\
            forall p, 0 <= p < n ->
              Z.of_nat (length (List.filter (takesPart p) results)) = numGames).
  { subst numGames. unfold numGamesOf. fold n. destruct single.
    - split; [reflexivity|]. intros p Hp.
      rewrite andb_true_l, orb_false_iff in Es. destruct Es as [E2 _].
      assert (n = 2) by (destruct (n >? 2) eqn:E; [discriminate|];
                         pose proof (Zgt_cases n 2) as Hc; rewrite E in Hc; lia).
      destruct players as [|c0 [|c1 [|c2 rest]]]; simpl in *; try lia.
      destruct (runTournament_single_done w flags fuel c0 c1 [] rounds tr _ _ Er Hrun)
        as (_ & res & Hm & ->).
      apply runMatch_player in Hm. simpl. unfold takesPart, involves. rewrite Hm. simpl.
      assert (p = 0 \/ p = 1) as [-> | ->] by lia; reflexivity.
    - pose proof (runTournament_done w flags fuel players rounds tr results tr'
                    ltac:(lia) Hrun) as (Hsched & Hcount & Hexact). fold n in Hsched, Hcount, Hexact.
      pose proof (wrap_range (int_mul rounds n * (n - 1))) as Hrange.
      fold (int_mul (int_mul rounds n) (n - 1)) in Hrange. rewrite Hexact in Hrange.
      assert (Hng : int_mul (int_mul rounds (n - 1)) 2 = rounds * (n - 1) * 2).
      { unfold int_mul. rewrite (wrap_small (rounds * (n - 1))).
        - apply wrap_small. unfold minInt, maxInt in *. nia.
        - unfold minInt, maxInt in *. nia. }
      split; [exact Hng|]. intros p Hp.
      rewrite filter_takesPart, Hsched, Hng. apply involves_schedule; lia. }
  destruct Hgames as (Hng & Hpart). split; [exact Hng|].
  intros p Hp. split; [apply Hpart, Hp|].
  assert (Hpl : enumerate players !! Z.to_nat p = Some (p, default "" (players !! Z.to_nat p))).
  { apply enumerate_lookup_nat.
    destruct (lookup_lt_is_Some_2 players (Z.to_nat p) ltac:(lia)) as (c & Hc).
    exists c. rewrite Hc. split; [reflexivity|]. simpl. f_equal. lia. }
  destruct (Forall2_lookup_l _ _ _ _ _ Hbrief Hpl) as (line & Hline & Hstat).
  cbn [fst] in Hstat. unfold statLine in Hstat.
  destruct (index (totalPoints s) p) as [tp|]; [|discriminate]. cbn in Hstat.
  destruct (index (gamesWon s) p) as [gw|]; [|discriminate]. cbn in Hstat.
  destruct (index (gamesTied s) p) as [gt|]; [|discriminate]. cbn in Hstat.
  destruct (index (gamesLost s) p) as [gl|]; [|discriminate]. cbn in Hstat.
  destruct (index (gamesFailed s) p) as [gf|]; [|discriminate]. cbn in Hstat.
  destruct (index (timeUsed s) p) as [tu|] eqn:Htu; [|discriminate]. cbn in Hstat.
  destruct (index (timeMax s) p) as [tm|]; [|discriminate]. cbn in Hstat.
  injection Hstat as <-.
  assert (Etu : tu = elapsedOf p results).
  { rewrite (aggregate_timeUsed _ _ _ p Hagg) in Htu.
    assert (H0 : index (timeUsed (newStandings (length players))) p = Some 0%float).
    { apply index_Some. split; [lia|]. simpl. apply lookup_replicate_2. lia. }
    rewrite H0 in Htu. cbn in Htu. injection Htu as <-. reflexivity. }
  subst tu. exists tp, gw, gt, gl, gf, tm. repeat split; try reflexivity.
  apply index_Some. split; [lia|exact Hline].
Qed.

End Report.

Section Schedule.

Context (w : World).
Context {State Move : Type} {GS : GameState State Move} {G : Game State Move}.
Context (flags : Flags).


End Schedule.

(** ** The type IntPairSlice by itself *)

(** X1.  Less is a strict total order on the pairs: first by [first],
    then by [second]. *)
Theorem Less_strict_total_order :
  (forall a, Less a a = false) /\
  (forall a b, Less a b = true -> Less b a = false) /\
  (forall a b c, Less a b = true -> Less b c = true -> Less a c = true) /\
  (forall a b, Less a b = false -> Less b a = false -> a = b).
Proof.
  repeat split.
  - intros a. destruct (Less a a) eqn:E; [|reflexivity]. apply Less_spec in E. lia.
  - intros a b Hab. destruct (Less b a) eqn:E; [|reflexivity].
    apply Less_spec in Hab, E. lia.
  - intros a b c Hab Hbc. apply Less_spec in Hab, Hbc. apply Less_spec. lia.
  - intros [a1 a2] [b1 b2] Hab Hba.
    assert (Ha : notAfter {| first := a1; second := a2 |} {| first := b1; second := b2 |})
      by exact Hba.
    assert (Hb : notAfter {| first := b1; second := b2 |} {| first := a1; second := a2 |})
      by exact Hab.
    apply notAfter_spec in Ha, Hb. simpl in *. f_equal; lia.
Qed.

Lemma index_lookup {A} (l : list A) i :
  0 <= i -> index l i = l !! Z.to_nat i.
Proof. intros Hi. unfold index. destruct (i <? 0) eqn:E; [apply Z.ltb_lt in E; lia|done]. Qed.

Lemma index_None {A} (l : list A) i :
  index l i = None <-> ~ (0 <= i < Z.of_nat (length l)).
Proof.
  unfold index. destruct (i <? 0) eqn:E.
  - apply Z.ltb_lt in E. split; [lia|reflexivity].
  - apply Z.ltb_ge in E. rewrite lookup_ge_None. lia.
Qed.

(** X2.  Swap panics exactly when an index is out of range; in range it
    exchanges the two elements, leaves the others, and undoes itself. *)
Theorem Swap_exchanges (ips : list IntPair) (i j : Z) :
  (Swap ips i j = None <->
   ~ (0 <= i < Z.of_nat (length ips) /\ 0 <= j < Z.of_nat (length ips))) /\
  forall l, Swap ips i j = Some l ->
    length l = length ips /\
    index l i = index ips j /\ index l j = index ips i /\
    (forall k, k <> i -> k <> j -> index l k = index ips k) /\
    Swap l i j = Some ips.
Proof.
  unfold Swap. split.
  - destruct (index ips i) as [x|] eqn:Hi; cbn.
    + destruct (index ips j) as [y|] eqn:Hj; cbn.
      * split; [discriminate|]. intros Hn. exfalso. apply Hn.
        split; [destruct (decide (0 <= i < Z.of_nat (length ips))) as [|Hc]; [assumption|]
               |destruct (decide (0 <= j < Z.of_nat (length ips))) as [|Hc]; [assumption|]];
          apply index_None in Hc; congruence.
      * split; [intros _|reflexivity]. apply index_None in Hj. tauto.
    + split; [intros _|reflexivity]. apply index_None in Hi. tauto.
  - intros l H.
    destruct (index ips i) as [x|] eqn:Hi; [|discriminate]. cbn in H.
    destruct (index ips j) as [y|] eqn:Hj; [|discriminate]. cbn in H.
    injection H as <-.
    apply index_Some in Hi as [Hi0 Hi], Hj as [Hj0 Hj].
    pose proof (lookup_lt_Some _ _ _ Hi) as Hli.
    pose proof (lookup_lt_Some _ _ _ Hj) as Hlj.
    assert (Hlook : forall k, 0 <= k ->
      (<[Z.to_nat j := x]> (<[Z.to_nat i := y]> ips)) !! Z.to_nat k =
      if decide (k = j) then Some x else if decide (k = i) then Some y
      else ips !! Z.to_nat k).
    { intros k Hk. case_decide as Ekj.
      - subst k. apply list_lookup_insert_eq. rewrite length_insert. exact Hlj.
      - rewrite list_lookup_insert_ne by lia. case_decide as Eki.
        + subst k. apply list_lookup_insert_eq. exact Hli.
        + apply list_lookup_insert_ne. lia. }
    split; [rewrite !length_insert; reflexivity|].
    assert (Hi' : index (<[Z.to_nat j := x]> (<[Z.to_nat i := y]> ips)) i = Some y).
    { rewrite index_lookup, Hlook by lia. case_decide; [|rewrite decide_True by done; done].
      subst j. congruence. }
    assert (Hj' : index (<[Z.to_nat j := x]> (<[Z.to_nat i := y]> ips)) j = Some x).
    { rewrite index_lookup, Hlook by lia. rewrite decide_True by done. done. }
    split; [exact Hi'|].
    split; [exact Hj'|].
    split.
    + intros k Hki Hkj. unfold index. destruct (k <? 0) eqn:E; [reflexivity|].
      apply Z.ltb_ge in E. rewrite Hlook by lia. rewrite !decide_False by done. reflexivity.
    + rewrite Hi', Hj'. cbn. f_equal. apply list_eq. intros k.
      destruct (decide (k = Z.to_nat j)) as [->|Ekj].
      * rewrite list_lookup_insert_eq by (rewrite !length_insert; exact Hlj). congruence.
      * rewrite list_lookup_insert_ne by done.
        destruct (decide (k = Z.to_nat i)) as [->|Eki].
        -- rewrite list_lookup_insert_eq by (rewrite !length_insert; exact Hli). congruence.
        -- rewrite !list_lookup_insert_ne by done. reflexivity.
Qed.

(** X3.  Reverse never panics, turns the slice around, and undoes itself. *)
Theorem Reverse_involutive (ips : list IntPair) :
  exists r, Reverse ips = Some r /\
    length r = length ips /\
    (forall k, (k < length ips)%nat -> r !! k = ips !! (length ips - 1 - k)%nat) /\
    Reverse r = Some ips.
Proof.
  exists (reverse ips). split; [apply Reverse_reverse|].
  split; [apply length_reverse|]. split.
  - intros k Hk. rewrite reverse_lookup by exact Hk. f_equal. lia.
  - rewrite Reverse_reverse, reverse_involutive. reflexivity.
Qed.

(** ** Shortened names *)

Lemma length_substring s n m :
  (n + m <= String.length s)%nat -> String.length (String.substring n m s) = m.
Proof.
  revert n m. induction s as [|c s IH]; intros n m H; simpl in *.
  - destruct n, m; simpl; lia.
  - destruct n as [|n].
    + destruct m as [|m]; [reflexivity|]. simpl. rewrite IH by lia. reflexivity.
    + apply IH. lia.
Qed.

Lemma substring_0_all s : String.substring 0 (String.length s) s = s.
Proof. induction s as [|c s IH]; simpl; [reflexivity|]. rewrite IH. reflexivity. Qed.

Lemma substring_split s n m1 m2 :
  String.substring n (m1 + m2) s =
  String.substring n m1 s +:+ String.substring (n + m1) m2 s.
Proof.
  revert n m1. induction s as [|c s IH]; intros n m1; simpl.
  - destruct n, m1; simpl; destruct m2; reflexivity.
  - destruct n as [|n]; simpl.
    + destruct m1 as [|m1]; simpl; [reflexivity|].
      rewrite (IH 0%nat m1). reflexivity.
    + apply IH.
Qed.

(** X4.  A name shortened to n bytes has min(len, n) bytes: it fits its
    column, and shortening it again changes nothing. *)
Theorem shorten_length (s : string) (n : Z) :
  0 <= n ->
  Z.of_nat (String.length (shorten s n)) = Z.min (Z.of_nat (String.length s)) n /\
  shorten (shorten s n) n = shorten s n.
Proof.
  intros Hn.
  assert (Hlen : Z.of_nat (String.length (shorten s n)) = Z.min (Z.of_nat (String.length s)) n).
  { unfold shorten. destruct (_ <=? n) eqn:E1.
    - apply Z.leb_le in E1. lia.
    - apply Z.leb_gt in E1. destruct (n <? 5) eqn:E2.
      + rewrite length_substring by lia. lia.
      + apply Z.ltb_ge in E2.
        assert (Hq : 0 <= (n - 2) `quot` 2 <= n - 2).
        { rewrite Z.quot_div_nonneg by lia. split; [apply Z.div_pos; lia|].
          apply Z.div_le_upper_bound; lia. }
        rewrite !length_append, !length_substring by lia. simpl. lia. }
  split; [exact Hlen|].
  unfold shorten at 1.
  destruct (_ <=? n) eqn:E; [reflexivity|]. apply Z.leb_gt in E. lia.
Qed.

(** X5.  A name longer than n >= 5 bytes is shortened by replacing its
    middle with two dots: (n - 2) / 2 bytes of its start and the other
    n - 2 - (n - 2) / 2 bytes from its end are kept. *)
Theorem shorten_keeps_ends (s : string) (n : Z) :
  5 <= n < Z.of_nat (String.length s) ->
  exists before middle behind,
    s = before +:+ middle +:+ behind /\
    shorten s n = before +:+ ".." +:+ behind /\
    Z.of_nat (String.length before) = (n - 2) `div` 2 /\
    Z.of_nat (String.length behind) = n - 2 - (n - 2) `div` 2.
Proof.
  intros [H5 Hlen].
  assert (Hq : (n - 2) `quot` 2 = (n - 2) `div` 2) by (apply Z.quot_div_nonneg; lia).
  assert (Hd : 0 <= (n - 2) `div` 2 <= n - 2).
  { split; [apply Z.div_pos; lia|]. apply Z.div_le_upper_bound; lia. }
  set (a := Z.to_nat ((n - 2) `div` 2)).
  set (b := Z.to_nat (n - 2 - (n - 2) `div` 2)).
  set (len := String.length s) in *.
  exists (String.substring 0 a s), (String.substring a (len - a - b) s),
         (String.substring (len - b) b s).
  split; [|split; [|split]].
  - rewrite <- (substring_0_all s) at 1. fold len.
    replace len with (a + ((len - a - b) + b))%nat at 1 by lia.
    rewrite substring_split, substring_split. simpl. do 3 f_equal. lia.
  - unfold shorten. fold len.
    destruct (_ <=? n) eqn:E1; [apply Z.leb_le in E1; lia|].
    destruct (n <? 5) eqn:E2; [apply Z.ltb_lt in E2; lia|].
    rewrite Hq. fold a. fold b.
    replace (Z.to_nat (Z.of_nat len - (n - 2 - (n - 2) `div` 2))) with (len - b)%nat by lia.
    reflexivity.
  - rewrite length_substring by lia. lia.
  - rewrite length_substring by lia. lia.
Qed.

(** ** The numbers in the names of the log files *)

Lemma append_inj_l (s a b : string) : s +:+ a = s +:+ b -> a = b.
Proof. induction s as [|c s IH]; simpl; [done|]. intros [= H]. auto. Qed.

Lemma append_inj_r (a b t : string) : a +:+ t = b +:+ t -> a = b.
Proof.
  intros H.
  assert (Hl : String.length a = String.length b).
  { apply (f_equal String.length) in H. rewrite !length_append in H. lia. }
  revert b H Hl. induction a as [|c a IH]; intros [|d b] H Hl; simpl in *; try lia.
  - reflexivity.
  - injection H as -> H. f_equal. apply IH; [exact H|lia].
Qed.

Lemma zeros_S k :
  String.concat "" (replicate (S k) "0") =
  "0" +:+ String.concat "" (replicate k "0").
Proof. simpl. destruct (replicate k "0") eqn:E; simpl; reflexivity. Qed.

(** Reading a padded number back. *)
Lemma read_zeros k (u : Decimal.uint) :
  option_map N.of_uint
    (NilEmpty.uint_of_string
       (String.concat "" (replicate k "0") +:+ NilEmpty.string_of_uint u)) =
  Some (N.of_uint u).
Proof.
  induction k as [|k IH].
  - change (option_map N.of_uint
              (NilEmpty.uint_of_string (NilEmpty.string_of_uint u)) = Some (N.of_uint u)).
    rewrite NilEmpty.usu. reflexivity.
  - rewrite zeros_S. simpl.
    destruct (NilEmpty.uint_of_string _) as [d|]; [|discriminate]. simpl in *. exact IH.
Qed.

Lemma digits_of_N (m : N) :
  NilZero.string_of_uint (N.to_uint m) = NilEmpty.string_of_uint (N.to_uint m).
Proof.
  unfold NilZero.string_of_uint. destruct (N.to_uint m) eqn:E; try reflexivity.
  destruct m; simpl in E; [discriminate|].
  exfalso. revert E. apply (DecimalPos.Unsigned.to_uint_nonnil p).
Qed.

Lemma fmt04d_read n :
  0 <= n ->
  option_map N.of_uint (NilEmpty.uint_of_string (fmt04d n)) = Some (Z.to_N n).
Proof.
  intros Hn. unfold fmt04d. destruct (n <? 0) eqn:E; [apply Z.ltb_lt in E; lia|].
  unfold zeroPad. rewrite digits_of_N.
  rewrite read_zeros, DecimalN.Unsigned.of_to. f_equal. lia.
Qed.

(** X6.  %04d gives different texts for different numbers that are not
    negative, so no two matches of a tournament share the name of a log
    file or of a message file. *)
Theorem log_names_distinct (path : string) (n m : Z) :
  0 <= n < maxInt -> 0 <= m < maxInt ->
  (fmt04d (int_add n 1) = fmt04d (int_add m 1) -> n = m) /\
  (forall ending, path +:+ fmt04d (int_add n 1) +:+ ending =
                  path +:+ fmt04d (int_add m 1) +:+ ending -> n = m).
Proof.
  intros Hn Hm.
  assert (Ha : forall k, 0 <= k < maxInt -> int_add k 1 = k + 1).
  { intros k Hk. unfold int_add. apply wrap_small. unfold minInt, maxInt in *. lia. }
  assert (Hinj : fmt04d (int_add n 1) = fmt04d (int_add m 1) -> n = m).
  { rewrite !Ha by assumption. intros H.
    pose proof (fmt04d_read (n + 1) ltac:(lia)) as H1.
    pose proof (fmt04d_read (m + 1) ltac:(lia)) as H2.
    rewrite H in H1. rewrite H1 in H2. injection H2 as H2. lia. }
  split; [exact Hinj|].
  intros ending H. apply append_inj_l, append_inj_r in H. auto.
Qed.

(** ** Running a player's command *)

Lemma flushField_nonempty cur : Forall (fun f => f <> "") (flushField cur).
Proof.
  unfold flushField. destruct (String.eqb cur "") eqn:E; [constructor|].
  apply String.eqb_neq in E. repeat constructor. exact E.
Qed.

Lemma fieldsFrom_nonempty s skip cur : Forall (fun f => f <> "") (fieldsFrom s skip cur).
Proof.
  revert skip cur. induction s as [|c s IH]; intros skip cur; simpl.
  - apply flushField_nonempty.
  - destruct skip as [|k]; [|apply IH].
    destruct (spaceWidth (String c s)); [apply IH|].
    apply Forall_app. split; [apply flushField_nonempty|apply IH].
Qed.

Section Spawn.

Context (w : World).

Ltac spawn_step H :=
  match type of H with
  | bind (ask ?o ?e) ?k ?t = _ =>
      change (bind (ask o e) k t) with (k (o t) (t ++ [e (o t)])) in H; cbv beta in H
  end.

Ltac spawn_finish H :=
  destruct (osStart _ _ _); [exists true|exists false];
  inv_ret H; (split; [|reflexivity]); rewrite <- ?app_assoc; reflexivity.

(** What runPlayer does, step by step. *)
Lemma runPlayer_steps command msgPath tr r tr' :
  runPlayer w command msgPath tr = Done r tr' ->
  match Fields command with
  | [] => r = inl ErrInvalid /\ tr' = tr
  | arg0 :: args =>
      exists found, let tr1 := tr ++ [EvLookPath arg0 found] in
      found = osLookPath w tr arg0 /\
      match found with
      | None => r = inl ErrLookPath /\ tr' = tr1
      | Some name =>
          exists wd, let tr2 := tr1 ++ [EvGetwd wd] in
          match wd with
          | None => r = inl ErrGetwd /\ tr' = tr2
          | Some dir =>
              exists okIn, let tr3 := tr2 ++ [EvStdinPipe okIn] in
              if negb okIn then r = inl ErrStdinPipe /\ tr' = tr3 else
              exists okOut, let tr4 := tr3 ++ [EvStdoutPipe okOut] in
              if negb okOut then r = inl ErrStdoutPipe /\ tr' = tr4 else
              exists target d,
                (if String.eqb msgPath "-" then target = StderrArbiter /\ d = []
                 else if String.eqb msgPath "" then target = StderrUnset /\ d = []
                 else (target = StderrFile msgPath /\ d = [EvCreate msgPath true]) \/
                      (target = StderrArbiter /\
                       d = [EvCreate msgPath false; EvDiag (CreateFailed msgPath)])) /\
                let cmd := {| Path := name; Args := arg0 :: args; Dir := dir;
                              Stderr := target |} in
                exists started, tr' = tr4 ++ d ++ [EvStart cmd started] /\
                  r = if started then inr cmd else inl ErrStart
          end
      end
  end.
Proof.
  unfold runPlayer. intros H.
  destruct (Fields command) as [|arg0 args]; [inv_ret H; auto|].
  spawn_step H. eexists. cbv zeta. split; [reflexivity|].
  destruct (osLookPath w tr arg0) as [name|]; [|inv_ret H; auto].
  spawn_step H.
  destruct (osGetwd w _) as [dir|]; [exists (Some dir)|exists None; inv_ret H; auto].
  cbv zeta. spawn_step H.
  destruct (osStdinPipe w _); [exists true|exists false; inv_ret H; cbn; auto].
  cbv zeta. cbn [negb] in *. spawn_step H.
  destruct (osStdoutPipe w _); [exists true|exists false; inv_ret H; cbn; auto].
  cbv zeta. cbn [negb] in *.
  set (tr4 := ((((tr ++ _) ++ _) ++ _) ++ _)) in *.
  destruct (String.eqb msgPath "-") eqn:Edash.
  { unfold bind at 1, ret at 1 in H. spawn_step H.
    exists StderrArbiter, []. split; [auto|]. cbv zeta. spawn_finish H. }
  destruct (String.eqb msgPath "") eqn:Eempty; cbn [negb] in H.
  { unfold bind at 1, ret at 1 in H. spawn_step H.
    exists StderrUnset, []. split; [auto|]. cbv zeta. spawn_finish H. }
  unfold bind at 1 in H. unfold bind at 1 in H. unfold ask at 1 in H.
  cbv beta iota zeta in H.
  destruct (osCreate w tr4 msgPath).
  - unfold ret at 1 in H. cbv beta iota in H. spawn_step H.
    exists (StderrFile msgPath), [EvCreate msgPath true]. split; [auto|]. cbv zeta.
    spawn_finish H.
  - unfold bind at 1, emit, ret at 1 in H. cbv beta iota in H. spawn_step H.
    exists StderrArbiter, [EvCreate msgPath false; EvDiag (CreateFailed msgPath)].
    split; [auto|]. cbv zeta. spawn_finish H.
Qed.

(** X7.  A command that cannot be run leaves no process behind: the error
    is that of the last step taken, no process was started, and no
    message file was made unless it was the start itself that failed. *)
Theorem runPlayer_failure command msgPath tr err tr' :
  runPlayer w command msgPath tr = Done (inl err) tr' ->
  exists d, tr' = tr ++ d /\
    Forall (fun e => forall cmd, e <> EvStart cmd true) d /\
    match err with
    | ErrInvalid => Fields command = [] /\ d = []
    | ErrLookPath =>
        exists arg0, head (Fields command) = Some arg0 /\ d = [EvLookPath arg0 None]
    | ErrGetwd => last d = Some (EvGetwd None)
    | ErrStdinPipe => last d = Some (EvStdinPipe false)
    | ErrStdoutPipe => last d = Some (EvStdoutPipe false)
    | ErrStart =>
        exists cmd, last d = Some (EvStart cmd false) /\ Args cmd = Fields command
    end /\
    (err <> ErrStart -> Forall (fun e => isCreate e = false) d).
Proof.
  intros H. apply runPlayer_steps in H.
  destruct (Fields command) as [|arg0 args].
  { destruct H as [[= ->] ->]. exists []. rewrite app_nil_r. repeat split; auto. }
  destruct H as (found & _ & H). cbv zeta in H.
  destruct found as [name|].
  2: { destruct H as [[= ->] ->]. eexists. split; [reflexivity|].
       split; [repeat constructor; discriminate|]. split; [eauto|].
       intros _. repeat constructor. }
  destruct H as (wd & H). cbv zeta in H. destruct wd as [dir|].
  2: { destruct H as [[= ->] ->]. eexists. split; [rewrite <- app_assoc; reflexivity|].
       split; [repeat constructor; discriminate|]. split; [reflexivity|].
       intros _. repeat constructor. }
  destruct H as ([|] & H); cbv zeta in H; cbn [negb] in H.
  2: { destruct H as [[= ->] ->]. eexists. split; [rewrite <- !app_assoc; reflexivity|].
       split; [repeat constructor; discriminate|]. split; [reflexivity|].
       intros _. repeat constructor. }
  destruct H as ([|] & H); cbv zeta in H; cbn [negb] in H.
  2: { destruct H as [[= ->] ->]. eexists. split; [rewrite <- !app_assoc; reflexivity|].
       split; [repeat constructor; discriminate|]. split; [reflexivity|].
       intros _. repeat constructor. }
  destruct H as (target & d & Hd & started & -> & Hr).
  destruct started; [discriminate|]. injection Hr as ->.
  eexists. split; [rewrite <- !app_assoc; reflexivity|].
  assert (Hcases : d = [] \/ d = [EvCreate msgPath true] \/
                   d = [EvCreate msgPath false; EvDiag (CreateFailed msgPath)]).
  { destruct (String.eqb msgPath "-"); [tauto|].
    destruct (String.eqb msgPath ""); tauto. }
  split; [|split; [|congruence]].
  - destruct Hcases as [->|[->| ->]]; repeat constructor; discriminate.
  - exists {| Path := name; Args := arg0 :: args; Dir := dir; Stderr := target |}.
    split; [|reflexivity].
    destruct Hcases as [->|[->| ->]]; reflexivity.
Qed.

(** X8.  A command that was run: its process was started last, and once;
    its arguments are the fields of the command, none of them empty; its
    program is what LookPath found for the first field; and its standard
    error is the arbiter's own for the message path "-", left unset for
    no message path, and otherwise the message file, or the arbiter's
    own, with a complaint, when that file cannot be made. *)
Theorem runPlayer_success command msgPath tr cmd tr' :
  runPlayer w command msgPath tr = Done (inr cmd) tr' ->
  exists d, tr' = tr ++ d ++ [EvStart cmd true] /\
    Forall (fun e => isStart e = false) d /\
    Args cmd = Fields command /\
    Forall (fun a => a <> "") (Args cmd) /\
    (exists arg0, head (Args cmd) = Some arg0 /\
                  osLookPath w tr arg0 = Some (Path cmd)) /\
    match Stderr cmd with
    | StderrArbiter =>
        msgPath = "-" \/
        (msgPath <> "" /\ In (EvCreate msgPath false) d /\
         In (EvDiag (CreateFailed msgPath)) d)
    | StderrUnset => msgPath = ""
    | StderrFile path =>
        path = msgPath /\ msgPath <> "-" /\ msgPath <> "" /\
        In (EvCreate msgPath true) d
    end.
Proof.
  intros H. apply runPlayer_steps in H.
  pose proof (fieldsFrom_nonempty command 0 "") as Hne. fold (Fields command) in Hne.
  destruct (Fields command) as [|arg0 args]; [destruct H; discriminate|].
  destruct H as (found & Hfound & H). cbv zeta in H.
  destruct found as [name|]; [|destruct H; discriminate].
  destruct H as (wd & H). cbv zeta in H. destruct wd as [dir|]; [|destruct H; discriminate].
  destruct H as ([|] & H); cbv zeta in H; cbn [negb] in H; [|destruct H; discriminate].
  destruct H as ([|] & H); cbv zeta in H; cbn [negb] in H; [|destruct H; discriminate].
  destruct H as (target & d & Hd & started & -> & Hr).
  destruct started; [|discriminate]. injection Hr as ->. cbn [Args Path Stderr].
  exists ([EvLookPath arg0 (Some name); EvGetwd (Some dir);
           EvStdinPipe true; EvStdoutPipe true] ++ d).
  split; [rewrite <- !app_assoc; reflexivity|].
  split; [|split; [reflexivity|split; [exact Hne|split]]].
  - apply Forall_app. split; [repeat constructor|].
    destruct (String.eqb msgPath "-"); [destruct Hd as [_ ->]; constructor|].
    destruct (String.eqb msgPath ""); [destruct Hd as [_ ->]; constructor|].
    destruct Hd as [[_ ->]|[_ ->]]; repeat constructor.
  - exists arg0. split; [reflexivity|]. symmetry. exact Hfound.
  - destruct (String.eqb msgPath "-") eqn:Edash.
    { destruct Hd as [-> _]. left. apply String.eqb_eq, Edash. }
    apply String.eqb_neq in Edash.
    destruct (String.eqb msgPath "") eqn:Eempty.
    { destruct Hd as [-> _]. apply String.eqb_eq, Eempty. }
    apply String.eqb_neq in Eempty.
    destruct Hd as [[-> ->]|[-> ->]].
    + repeat split; auto. apply in_or_app. right. left. reflexivity.
    + right. split; [exact Eempty|].
      split; apply in_or_app; right; simpl; auto.
Qed.

End Spawn.

(** ** The anatomy of a pass of the loop *)

Section TurnAnatomy.

Context (w : World).
Context {State Move : Type} {GS : GameState State Move} {G : Game State Move}.

Lemma with_game_same (st : MatchState State) :
  with_game (gamestate st) (over st) st = st.
Proof. destruct st; reflexivity. Qed.

(** A pass of the loop is the mover's part, then the passing on. *)
Lemma turn_cases commands (st st' : MatchState State) tr tr' :
  turn w commands st tr = Done st' tr' ->
  exists p st1 moveStr tr1,
    slot_of_int (Next (gamestate st)) = Some p /\
    (if get p (failed (result st)) then fallbackMove w st
     else clientMove w commands p st) tr = Done (st1, moveStr) tr1 /\
    forwardMove w commands p moveStr st1 tr1 = Done st' tr'.
Proof.
  unfold turn. intros H.
  destruct (slot_of_int (Next (gamestate st))) as [p|]; [|discriminate].
  inv_bind H. destruct a as [st1 moveStr]. exists p, st1, moveStr, tr0. auto.
Qed.

(** The mover's part: a move drawn for a player that failed before; or a
    line read, and then a move applied or the mover marked failed. *)
Lemma mover_cases commands p (st st1 : MatchState State) tr moveStr tr1 :
  (if get p (failed (result st)) then fallbackMove w st
   else clientMove w commands p st) tr = Done (st1, moveStr) tr1 ->
  (get p (failed (result st)) = true /\
   exists n k move,
     tr1 = tr ++ [EvRand n k] /\
     snd (Execute (gamestate st) move) = true /\
     st1 = with_game (fst (Execute (gamestate st) move))
                     (Over (fst (Execute (gamestate st) move))) st /\
     moveStr = MoveString move) \/
  (get p (failed (result st)) = false /\
   exists q line ns,
     get p (readers st) = Some q /\
     ((exists move,
         snd (Execute (gamestate st) move) = true /\
         st1 = with_game (fst (Execute (gamestate st) move))
                         (Over (fst (Execute (gamestate st) move)))
                         (addTime p ns st) /\
         moveStr = MoveString move /\ tr1 = tr ++ [EvRead q line ns]) \/
      (exists gs d,
         st1 = markFailed p (with_game gs (over st) (addTime p ns st)) /\
         moveStr = "" /\ tr1 = tr ++ [EvRead q line ns; EvDiag d]))).
Proof.
  intros H. destruct (get p (failed (result st))) eqn:Hf.
  - left. split; [reflexivity|]. unfold fallbackMove, Intn in H.
    destruct (_ <=? 0); [discriminate|].
    unfold bind at 1, ask in H. cbv beta iota zeta in H.
    destruct (ListMoves (gamestate st) !! _) as [move|]; [|discriminate].
    destruct (snd (Execute (gamestate st) move)) eqn:Hex; [|discriminate].
    cbn [negb] in H. inv_ret H. eexists _, _, move. auto.
  - right. split; [reflexivity|].
    destruct (get p (readers st)) as [q|] eqn:Hrd.
    2: { rewrite clientMove_nil_reader in H by done. discriminate. }
    rewrite (clientMove_cases w commands p q st tr Hrd) in H. cbv zeta in H.
    assert (Hsame : forall ns, addTime p ns st =
                      with_game (gamestate st) (over st) (addTime p ns st)).
    { intros ns. symmetry. apply (with_game_same (addTime p ns st)). }
    destruct (pipeRead w tr q) as [body|].
    + destruct (ParseMove body) as [move|].
      * destruct (snd (Execute (gamestate st) move)) eqn:Hex.
        -- inv_ret H. eexists q, _, _. split; [reflexivity|]. left. exists move. auto.
        -- inv_ret H. eexists q, _, _. split; [reflexivity|]. right.
           eexists _, _. rewrite <- app_assoc. auto.
      * inv_ret H. eexists q, _, _. split; [reflexivity|]. right.
        exists (gamestate st). eexists. rewrite <- app_assoc, <- Hsame. auto.
    + inv_ret H. eexists q, _, _. split; [reflexivity|]. right.
      exists (gamestate st). eexists. rewrite <- app_assoc, <- Hsame. auto.
Qed.

(** The passing on: nothing, or a line written to the other player's
    pipe, and that player marked failed when the write fails. *)
Lemma forward_cases commands p moveStr (st1 st' : MatchState State) tr1 tr' :
  forwardMove w commands p moveStr st1 tr1 = Done st' tr' ->
  (st' = st1 /\ tr' = tr1 /\
   (moveStr = "" \/ get (other p) (failed (result st1)) = true \/ over st1 = true)) \/
  (moveStr <> "" /\ get (other p) (failed (result st1)) = false /\ over st1 = false /\
   exists q, get (other p) (writers st1) = Some q /\
     ((st' = st1 /\ tr' = tr1 ++ [EvWrite SiteMove q moveStr true]) \/
      (st' = markFailed (other p) st1 /\
       tr' = tr1 ++ [EvWrite SiteMove q moveStr false;
                     EvDiag (CouldNotWrite (get (other p) commands))]))).
Proof.
  unfold forwardMove. intros H.
  destruct (String.eqb moveStr "") eqn:Em; cbn [negb andb] in H.
  { inv_ret H. left. apply String.eqb_eq in Em. auto. }
  apply String.eqb_neq in Em.
  destruct (get (other p) (failed (result st1))) eqn:Hf; cbn [negb andb] in H.
  { inv_ret H. left. auto. }
  destruct (over st1) eqn:Hov; cbn [negb andb] in H.
  { inv_ret H. left. auto. }
  right. split; [exact Em|]. split; [reflexivity|]. split; [reflexivity|].
  unfold Fprintln in H. destruct (get (other p) (writers st1)) as [q|]; [|discriminate].
  exists q. split; [reflexivity|].
  unfold bind at 1, ask in H. cbv beta iota zeta in H.
  destruct (pipeWrite w tr1 q moveStr).
  - inv_ret H. left. auto.
  - unfold bind, emit, ret in H. cbv beta iota in H. injection H as <- <-.
    right. rewrite <- app_assoc. auto.
Qed.

(** What the mover's part leaves alone. *)
Lemma mover_frame commands p (st st1 : MatchState State) tr moveStr tr1 :
  (if get p (failed (result st)) then fallbackMove w st
   else clientMove w commands p st) tr = Done (st1, moveStr) tr1 ->
  writers st1 = writers st /\
  get (other p) (failed (result st1)) = get (other p) (failed (result st)) /\
  get (other p) (time (result st1)) = get (other p) (time (result st)).
Proof.
  intros H. apply mover_cases in H as [(_ & n & k & move & _ & _ & -> & _)|
    (_ & q & line & ns & _ & [(move & _ & -> & _)|(gs & d & -> & _)])];
    cbn; rewrite ?get_set_other; auto.
Qed.

(** X9.  A pass of the loop writes at most one line, a move that is not
    empty, to the pipe of the player who did not move, and only when that
    player has not failed; the move that ends the game is not passed
    on. *)
Theorem turn_forwards_to_opponent commands (st st' : MatchState State) tr tr' p :
  turn w commands st tr = Done st' tr' ->
  slot_of_int (Next (gamestate st)) = Some p ->
  exists ws,
    List.filter isWrite tr' = List.filter isWrite tr ++ ws /\
    (ws = [] \/
     exists q line ok,
       ws = [EvWrite SiteMove q line ok] /\
       get (other p) (writers st) = Some q /\ line <> "" /\
       get (other p) (failed (result st)) = false /\ over st' = false) /\
    (over st' = true -> ws = []).
Proof.
  intros H Hp. apply turn_cases in H as (p' & st1 & moveStr & tr1 & Hp' & Hmv & Hfw).
  rewrite Hp in Hp'. injection Hp' as <-.
  pose proof (mover_frame _ _ _ _ _ _ _ Hmv) as (Hwr & Hfo & _).
  assert (Htr1 : List.filter isWrite tr1 = List.filter isWrite tr).
  { apply mover_cases in Hmv as [(_ & n & k & move & -> & _)|
      (_ & q & line & ns & _ & [(move & _ & _ & _ & ->)|(gs & d & _ & _ & ->)])];
      rewrite List.filter_app; simpl; apply app_nil_r. }
  apply forward_cases in Hfw as [(-> & -> & _)|(Hne & Hof & Hov & q & Hq & Hw)].
  - exists []. rewrite app_nil_r. auto.
  - rewrite Hwr in Hq. rewrite Hfo in Hof.
    destruct Hw as [(-> & ->)|(-> & ->)].
    + exists [EvWrite SiteMove q moveStr true].
      rewrite List.filter_app, Htr1. split; [reflexivity|].
      split; [right; eauto 10|]. congruence.
    + exists [EvWrite SiteMove q moveStr false].
      rewrite List.filter_app, Htr1. split; [reflexivity|].
      split; [right; eexists _, _, _; repeat split; eauto|]. cbn. congruence.
Qed.

(** X10.  No failure is silent and no complaint is idle: a pass of the loop
    either leaves the failed flags and prints no diagnostic, or sets the
    flag of exactly one player who had not failed and prints exactly one
    diagnostic. *)
Theorem turn_reports_failures commands (st st' : MatchState State) tr tr' :
  turn w commands st tr = Done st' tr' ->
  (failed (result st') = failed (result st) /\
   List.filter isDiag tr' = List.filter isDiag tr) \/
  (exists q d,
     get q (failed (result st)) = false /\
     failed (result st') = set q true (failed (result st)) /\
     List.filter isDiag tr' = List.filter isDiag tr ++ [EvDiag d]).
Proof.
  intros H. apply turn_cases in H as (p & st1 & moveStr & tr1 & Hp & Hmv & Hfw).
  pose proof (mover_frame _ _ _ _ _ _ _ Hmv) as (_ & Hfo & _).
  assert (Hmover :
    (failed (result st1) = failed (result st) /\
     List.filter isDiag tr1 = List.filter isDiag tr) \/
    (moveStr = "" /\ get p (failed (result st)) = false /\
     failed (result st1) = set p true (failed (result st)) /\
     exists d, List.filter isDiag tr1 = List.filter isDiag tr ++ [EvDiag d])).
  { apply mover_cases in Hmv as [(_ & n & k & move & -> & _ & -> & _)|
      (Hf & q & line & ns & _ & [(move & _ & -> & _ & ->)|(gs & d & -> & -> & ->)])].
    - left. rewrite List.filter_app. simpl. rewrite app_nil_r. auto.
    - left. rewrite List.filter_app. simpl. rewrite app_nil_r. auto.
    - right. split; [reflexivity|]. split; [exact Hf|]. split; [reflexivity|].
      exists d. rewrite List.filter_app. reflexivity. }
  destruct Hmover as [(Hsame & Hd)|(-> & Hf & Hset & d & Hd)].
  - apply forward_cases in Hfw as [(-> & -> & _)|(_ & Hof & _ & q & _ & Hw)].
    + left. auto.
    + destruct Hw as [(-> & ->)|(-> & ->)].
      * left. rewrite List.filter_app. simpl. rewrite app_nil_r. auto.
      * right. exists (other p), (CouldNotWrite (get (other p) commands)).
        split; [congruence|]. split; [cbn; congruence|].
        rewrite List.filter_app, Hd. reflexivity.
  - rewrite forwardMove_nothing in Hfw. inv_ret Hfw. right. eauto.
Qed.

(** A player that failed before: a pass of the loop neither reads from
    it nor writes a move to it, and its time stays. *)
Lemma turn_leaves_failed commands (st st' : MatchState State) tr tr' p :
  ownPipes st -> get p (failed (result st)) = true ->
  turn w commands st tr = Done st' tr' ->
  List.filter (isExchange p) tr' = List.filter (isExchange p) tr /\
  get p (time (result st')) = get p (time (result st)).
Proof.
  intros Hown Hfp H.
  apply turn_cases in H as (p0 & st1 & moveStr & tr1 & Hp & Hmv & Hfw).
  pose proof (mover_frame _ _ _ _ _ _ _ Hmv) as (Hwr & Hfo & Hto).
  assert (Hmover : List.filter (isExchange p) tr1 = List.filter (isExchange p) tr /\
                   get p (time (result st1)) = get p (time (result st)) /\
                   get p (failed (result st1)) = true).
  { apply mover_cases in Hmv as [(_ & n & k & move & -> & _ & -> & _)|
      (Hf & q & line & ns & Hq & Hc)].
    - rewrite List.filter_app. simpl. rewrite app_nil_r. auto.
    - assert (q = p0) as ->
        by (destruct (Hown p0) as [[Hn|Hs] _]; congruence).
      assert (p0 <> p) by congruence.
      destruct Hc as [(move & _ & -> & _ & ->)|(gs & d & -> & _ & ->)];
        rewrite List.filter_app; simpl; rewrite bool_decide_false by done;
        rewrite app_nil_r; cbn; rewrite !get_set, ?decide_False by done; auto. }
  destruct Hmover as (Htr1 & Htime & Hf1).
  apply forward_cases in Hfw as [(-> & -> & _)|(_ & Hof & _ & q & Hq & Hw)];
    [auto|].
  assert (q = other p0) as ->.
  { rewrite Hwr in Hq. destruct (Hown (other p0)) as [_ [Hn|Hs]]; congruence. }
  assert (other p0 <> p) by congruence.
  destruct Hw as [(-> & ->)|(-> & ->)];
    rewrite List.filter_app; simpl; rewrite bool_decide_false by done;
    rewrite app_nil_r; auto.
Qed.

Lemma ownPipes_evolves (st st' : MatchState State) :
  evolves st st' -> ownPipes st -> ownPipes st'.
Proof. intros (_ & Hr & Hw & _) Hown i. rewrite Hr, Hw. apply Hown. Qed.

(** X11.  Once a player has failed the loop of the match leaves it alone:
    to its end it reads no line from that player and writes no move to
    it, and the player's time no longer grows. *)
Theorem failed_player_left_alone fuel commands (st st' : MatchState State) tr tr' p :
  ownPipes st -> get p (failed (result st)) = true ->
  loop w fuel commands st tr = Done st' tr' ->
  List.filter (isExchange p) tr' = List.filter (isExchange p) tr /\
  get p (time (result st')) = get p (time (result st)) /\
  get p (failed (result st')) = true.
Proof.
  revert st tr. induction fuel as [|fuel IH]; intros st tr Hown Hf H; simpl in H.
  - destruct (over st); [|discriminate]. inv_ret H. auto.
  - destruct (over st); [inv_ret H; auto|].
    inv_bind H. rename a into st1, tr0 into tr1.
    pose proof (turn_evolves w _ _ _ _ _ Hm) as Hev.
    pose proof (turn_leaves_failed _ _ _ _ _ _ Hown Hf Hm) as (Htr & Htime).
    assert (Hf1 : get p (failed (result st1)) = true).
    { destruct Hev as (_&_&_&_&_&_&Hmono). apply Hmono, Hf. }
    destruct (IH st1 tr1 (ownPipes_evolves _ _ Hev Hown) Hf1 H) as (Htr' & Htime' & Hf').
    split; [congruence|]. split; [congruence|exact Hf'].
Qed.

End TurnAnatomy.

(** ** The clock of a match *)

Lemma addsNoRead_ret {A} (a : A) : addsNoRead (ret a).
Proof. intros tr a' tr' [= <- <-]. exists []. rewrite app_nil_r. auto. Qed.

Lemma addsNoRead_panic {A} msg : addsNoRead (@panic A msg).
Proof. intros tr a tr' H. discriminate. Qed.

Lemma addsNoRead_emit e : isRead e = false -> addsNoRead (emit e).
Proof. intros He tr a tr' [= <-]. exists [e]. auto. Qed.

Lemma addsNoRead_ask {A} (oracle : Trace -> A) ev :
  (forall a, isRead (ev a) = false) -> addsNoRead (ask oracle ev).
Proof. intros He tr a tr' [= <- <-]. eexists. split; [reflexivity|]. auto. Qed.

Lemma addsNoRead_bind {A B} (m : M A) (k : A -> M B) :
  addsNoRead m -> (forall a, addsNoRead (k a)) -> addsNoRead (bind m k).
Proof.
  intros Hm Hk tr b tr' H. inv_bind H.
  apply Hm in Hm0 as (d1 & -> & H1). apply Hk in H as (d2 & -> & H2).
  exists (d1 ++ d2). rewrite app_assoc. split; [reflexivity|].
  apply Forall_app. auto.
Qed.

Lemma tick_noRead p d t :
  Forall (fun e => isRead e = false) d -> fold_left (tick p) d t = t.
Proof.
  induction 1 as [|e d He _ IH]; simpl; [reflexivity|].
  rewrite <- IH at 2. f_equal. destruct e; try reflexivity. discriminate.
Qed.

Section Clock.

Context (w : World).
Context {State Move : Type} {GS : GameState State Move} {G : Game State Move}.

Lemma runPlayer_noRead command msgPath : addsNoRead (runPlayer w command msgPath).
Proof.
  unfold runPlayer.
  destruct (Fields command) as [|arg0 argv]; [apply addsNoRead_ret|].
  apply addsNoRead_bind; [apply addsNoRead_ask; reflexivity|].
  intros [name|]; [|apply addsNoRead_ret].
  apply addsNoRead_bind; [apply addsNoRead_ask; reflexivity|].
  intros [dir|]; [|apply addsNoRead_ret].
  apply addsNoRead_bind; [apply addsNoRead_ask; reflexivity|].
  intros [|]; [|apply addsNoRead_ret].
  apply addsNoRead_bind; [apply addsNoRead_ask; reflexivity|].
  intros [|]; [|apply addsNoRead_ret].
  cbn [negb]. apply addsNoRead_bind.
  - destruct (String.eqb msgPath "-"); [apply addsNoRead_ret|].
    destruct (negb (String.eqb msgPath "")); [|apply addsNoRead_ret].
    apply addsNoRead_bind; [apply addsNoRead_ask; reflexivity|].
    intros [|]; [apply addsNoRead_ret|].
    apply addsNoRead_bind; [apply addsNoRead_emit; reflexivity|].
    intros _. apply addsNoRead_ret.
  - intros target. apply addsNoRead_bind; [apply addsNoRead_ask; reflexivity|].
    intros [|]; apply addsNoRead_ret.
Qed.

Lemma Fprintln_noRead site wr line : addsNoRead (Fprintln w site wr line).
Proof.
  unfold Fprintln. destruct wr; [|apply addsNoRead_panic].
  apply addsNoRead_ask. reflexivity.
Qed.

Lemma startPlayer_noRead commands msgPath i (st : MatchState State) :
  addsNoRead (startPlayer w commands msgPath i st).
Proof.
  unfold startPlayer. apply addsNoRead_bind; [apply runPlayer_noRead|].
  intros [err|cmd].
  - apply addsNoRead_bind; [apply addsNoRead_emit; reflexivity|].
    intros _. apply addsNoRead_ret.
  - destruct i; [|apply addsNoRead_ret].
    apply addsNoRead_bind; [apply Fprintln_noRead|]. intros _. apply addsNoRead_ret.
Qed.

Lemma startPlayers_noRead commands msgPath (st : MatchState State) :
  addsNoRead (startPlayers w commands msgPath st).
Proof.
  unfold startPlayers. apply addsNoRead_bind; [apply startPlayer_noRead|].
  intros st1. apply startPlayer_noRead.
Qed.

Lemma quitPlayers_noRead (st : MatchState State) : addsNoRead (quitPlayers w st).
Proof.
  unfold quitPlayers, quitWriter, Close, Wait.
  repeat (apply addsNoRead_bind; [|intros ?]);
    try apply Fprintln_noRead;
    repeat case_match; try apply addsNoRead_panic; apply addsNoRead_emit; reflexivity.
Qed.

Lemma writeMatchLog_noRead logPath : addsNoRead (writeMatchLog w logPath).
Proof.
  unfold writeMatchLog. destruct (negb _); [|apply addsNoRead_ret].
  apply addsNoRead_bind; [apply addsNoRead_ask; reflexivity|].
  intros [|]; apply addsNoRead_emit; reflexivity.
Qed.

Lemma startPlayer_time commands msgPath i (st st' : MatchState State) tr tr' :
  startPlayer w commands msgPath i st tr = Done st' tr' ->
  time (result st') = time (result st).
Proof.
  unfold startPlayer. intros H. inv_bind H. destruct a as [err|cmd].
  - inv_bind H. inv_ret H. reflexivity.
  - destruct i; [inv_bind H|]; inv_ret H; reflexivity.
Qed.

(** A pass of the loop: the time of a player grows by the reads from
    it. *)
Lemma turn_clock commands (st st' : MatchState State) tr tr' :
  ownPipes st ->
  turn w commands st tr = Done st' tr' ->
  exists d, tr' = tr ++ d /\
    forall p, get p (time (result st')) =
              fold_left (tick p) d (get p (time (result st))).
Proof.
  intros Hown H.
  apply turn_cases in H as (p0 & st1 & moveStr & tr1 & Hp & Hmv & Hfw).
  assert (Hmover : exists d1, tr1 = tr ++ d1 /\
    forall p, get p (time (result st1)) =
              fold_left (tick p) d1 (get p (time (result st)))).
  { apply mover_cases in Hmv as [(_ & n & k & move & -> & _ & -> & _)|
      (Hf & q & line & ns & Hq & Hc)].
    - eexists. split; [reflexivity|]. intros p. reflexivity.
    - assert (q = p0) as ->
        by (destruct (Hown p0) as [[Hn|Hs] _]; congruence).
      destruct Hc as [(move & _ & -> & _ & ->)|(gs & d & -> & _ & ->)];
        (eexists; split; [reflexivity|]); intros p; cbn;
        rewrite get_set; destruct p, p0; reflexivity. }
  destruct Hmover as (d1 & -> & Ht1).
  apply forward_cases in Hfw as [(-> & -> & _)|(_ & _ & _ & q & _ & Hw)].
  - exists d1. auto.
  - destruct Hw as [(-> & ->)|(-> & ->)];
      (eexists; split; [rewrite <- app_assoc; reflexivity|]);
      intros p; rewrite fold_left_app; cbn; apply Ht1.
Qed.

Lemma loop_clock fuel commands (st st' : MatchState State) tr tr' :
  ownPipes st ->
  loop w fuel commands st tr = Done st' tr' ->
  exists d, tr' = tr ++ d /\
    forall p, get p (time (result st')) =
              fold_left (tick p) d (get p (time (result st))).
Proof.
  revert st tr. induction fuel as [|fuel IH]; intros st tr Hown H; simpl in H.
  - destruct (over st); [|discriminate]. inv_ret H. exists []. rewrite app_nil_r. auto.
  - destruct (over st).
    { inv_ret H. exists []. rewrite app_nil_r. auto. }
    inv_bind H. rename a into st1, tr0 into tr1.
    pose proof (turn_evolves w _ _ _ _ _ Hm) as Hev.
    apply turn_clock in Hm as (d1 & -> & Ht1); [|exact Hown].
    apply IH in H as (d2 & -> & Ht2); [|eapply ownPipes_evolves; eauto].
    exists (d1 ++ d2). rewrite app_assoc. split; [reflexivity|].
    intros p. rewrite fold_left_app, <- Ht1. apply Ht2.
Qed.

Lemma slotStarted_ownPipes (st : MatchState State) :
  slotStarted S0 st -> slotStarted S1 st -> ownPipes st.
Proof.
  intros H0 H1 i.
  destruct i; [destruct H0 as [(_&_&->&->)|(_&_&->&->)]
              |destruct H1 as [(_&_&->&->)|(_&_&->&->)]]; auto.
Qed.

(** X12.  The time a result gives a player is the time of the reads from
    that player, added up in the order of the reads: seconds by float64
    division of the nanoseconds each read took. *)
Theorem match_time_is_read_time fuel players commands logPath msgPath tr r tr' :
  runMatch w fuel players commands logPath msgPath tr = Done r tr' ->
  exists d, tr' = tr ++ d /\
    forall p, get p (time r) = fold_left (tick p) d 0%float.
Proof.
  intros H.
  pose proof (runMatch_done w _ _ _ _ _ _ _ _ H)
    as (st0 & tr0 & st & tr1 & Hstart & Hloop & Hpts & _ & Hr).
  unfold runMatch in H.
  erewrite bind_eq_done in H by exact Hstart.
  erewrite bind_eq_done in H by exact Hloop.
  inv_bind H. rename Hm into Hquit. inv_bind H. rename Hm into Hlog. inv_ret H.
  pose proof (startPlayers_started w _ _ _ _ _ _ Hstart) as (Hs0 & Hs1 & _).
  assert (Htime0 : time (result st0) = (0%float, 0%float)).
  { unfold startPlayers in Hstart. inv_bind Hstart.
    apply startPlayer_time in Hm, Hstart. rewrite Hstart, Hm. reflexivity. }
  apply startPlayers_noRead in Hstart as (d0 & -> & Hd0).
  apply loop_clock in Hloop as (d1 & -> & Ht1);
    [|apply slotStarted_ownPipes; assumption].
  apply quitPlayers_noRead in Hquit as (d2 & -> & Hd2).
  apply writeMatchLog_noRead in Hlog as (d3 & -> & Hd3).
  exists (d0 ++ d1 ++ d2 ++ d3). split; [rewrite <- !app_assoc; reflexivity|].
  intros p.
  pose proof (competitionPoints_spec (set_score (Scores (gamestate st)) (result st)) Hpts)
    as (_ & _ & _ & Htm & _).
  rewrite Htm. cbn [time set_score].
  rewrite !fold_left_app, (tick_noRead p d0) by exact Hd0.
  rewrite (tick_noRead p d3) by exact Hd3. rewrite (tick_noRead p d2) by exact Hd2.
  rewrite Ht1, Htime0. destruct p; reflexivity.
Qed.

End Clock.

(** ** The panics of a match *)

Section NoOtherPanic.

Context (w : World).
Context {State Move : Type} {GS : GameState State Move} {G : Game State Move}.

Lemma startPlayer_returns commands msgPath i (st : MatchState State) tr :
  exists st' tr', startPlayer w commands msgPath i st tr = Done st' tr'.
Proof.
  unfold startPlayer.
  destruct (runPlayer_done w (get i commands) (get i msgPath) tr) as (r & tr0 & Hr).
  erewrite bind_eq_done by exact Hr.
  destruct r as [err|cmd].
  - unfold bind, emit, ret. eauto.
  - destruct i; [|unfold ret; eauto].
    cbn [attach writers]. rewrite get_set_same. unfold Fprintln, bind, ask, ret. eauto.
Qed.

Lemma startPlayers_returns commands msgPath (st : MatchState State) tr :
  exists st' tr', startPlayers w commands msgPath st tr = Done st' tr'.
Proof.
  unfold startPlayers.
  destruct (startPlayer_returns commands msgPath S0 st tr) as (st1 & tr1 & H1).
  erewrite bind_eq_done by exact H1. apply startPlayer_returns.
Qed.

Lemma ready_evolves (st st' : MatchState State) :
  evolves st st' -> ready st -> ready st'.
Proof.
  intros (_ & Hr & Hw & _ & _ & _ & Hmono) Hready i Hi. rewrite Hr, Hw.
  apply Hready. destruct (get i (failed (result st))) eqn:E; [|reflexivity].
  rewrite (Hmono i E) in Hi. discriminate.
Qed.

(** Under the engine's contract a pass of the loop returns when the
    pipes of the players that have not failed are there. *)
Lemma turn_returns `{!EngineContract State Move} commands (st : MatchState State) tr :
  over st = Over (gamestate st) -> over st = false -> ready st ->
  exists st' tr', turn w commands st tr = Done st' tr'.
Proof.
  intros Hinv Hov Hready.
  assert (Hfw : forall p s (st1 : MatchState State) tr1,
     writers st1 = writers st ->
     get (other p) (failed (result st1)) = get (other p) (failed (result st)) ->
     exists st' tr', forwardMove w commands p s st1 tr1 = Done st' tr').
  { intros p s st1 tr1 Hw Hf. unfold forwardMove.
    destruct (negb (String.eqb s "")); cbn [andb]; [|unfold ret; eauto].
    destruct (get (other p) (failed (result st1))) eqn:Hf1; cbn [negb andb];
      [unfold ret; eauto|].
    destruct (over st1); cbn [negb]; [unfold ret; eauto|].
    rewrite Hw. destruct (Hready (other p)) as [_ ->]; [congruence|].
    unfold Fprintln, bind, ask. destruct (pipeWrite _ _ _ _); unfold emit, ret; eauto. }
  assert (exists p, slot_of_int (Next (gamestate st)) = Some p) as (p & Hp).
  { destruct (next_in_range (gamestate st)) as [-> | ->]; [congruence| |]; eauto. }
  destruct (get p (failed (result st))) eqn:Hf.
  - destruct (turn_fallback w commands p st tr Hinv Hov Hp Hf) as (mv & _ & _ & ->).
    apply Hfw; reflexivity.
  - unfold turn. rewrite Hp, Hf.
    destruct (Hready p Hf) as [Hrd _].
    unfold bind at 1.
    rewrite (clientMove_cases w commands p p st tr Hrd). cbv zeta.
    destruct (pipeRead w tr p) as [body|].
    + destruct (ParseMove body) as [move|].
      * destruct (snd (Execute (gamestate st) move)).
        -- cbn [fst snd]. apply Hfw; reflexivity.
        -- cbn [fst snd]. rewrite forwardMove_nothing. eauto.
      * cbn [fst snd]. rewrite forwardMove_nothing. eauto.
    + cbn [fst snd]. rewrite forwardMove_nothing. eauto.
Qed.

Lemma loop_no_panic `{!EngineContract State Move} fuel commands
    (st : MatchState State) tr msg tr' :
  over st = Over (gamestate st) -> ready st ->
  loop w fuel commands st tr <> Panic msg tr'.
Proof.
  revert st tr. induction fuel as [|fuel IH]; intros st tr Hinv Hready; simpl.
  - destruct (over st); discriminate.
  - destruct (over st) eqn:Hov; [discriminate|].
    destruct (turn_returns commands st tr ltac:(congruence) Hov Hready)
      as (st1 & tr1 & Ht).
    erewrite bind_eq_done by exact Ht.
    apply IH.
    + apply (turn_over w commands st st1 tr tr1); [congruence|exact Ht].
    + eapply ready_evolves; [|exact Hready]. eapply turn_evolves; eauto.
Qed.

(** Under the engine's contract a match panics in one way only. *)
Lemma runMatch_panic_cases `{!EngineContract State Move}
    fuel players commands logPath msgPath tr msg tr' :
  runMatch w fuel players commands logPath msgPath tr = Panic msg tr' ->
  msg = nilDeref /\
  exists st0 tr0 st tr1 i,
    startPlayers w commands msgPath (initialState players) tr = Done st0 tr0 /\
    loop w fuel commands st0 tr0 = Done st tr1 /\
    get i (failed (result st0)) = true /\ get i (writers st) = None.
Proof.
  intros H. unfold runMatch in H.
  destruct (startPlayers_returns commands msgPath (initialState players) tr)
    as (st0 & tr0 & Hstart).
  erewrite bind_eq_done in H by exact Hstart.
  pose proof (startPlayers_started w _ _ _ _ _ _ Hstart) as (Hs0 & Hs1 & _).
  pose proof (startPlayers_result w _ _ _ _ _ _ Hstart) as (_ & _ & _ & Hgs & Hov).
  assert (Hinv : over st0 = Over (gamestate st0)) by (rewrite Hov, Hgs; reflexivity).
  assert (Hready : ready st0).
  { intros i Hi.
    destruct i; [destruct Hs0 as [(_&_&?&?)|(?&_)]|destruct Hs1 as [(_&_&?&?)|(?&_)]];
      solve [auto|congruence]. }
  unfold bind at 1 in H.
  destruct (loop w fuel commands st0 tr0) as [st tr1|m1 tr1|tr1] eqn:Hloop.
  - pose proof (loop_evolves w _ _ _ _ _ _ Hloop) as [(Hc & _ & Hw & _) _].
    assert (Hnil : exists i, get i (failed (result st0)) = true /\ get i (writers st) = None).
    { destruct Hs0 as [(_&Hc0&_&Hw0)|(Hf0&_&_&Hw0)]; [|exists S0; rewrite Hw; auto].
      destruct Hs1 as [(_&Hc1&_&Hw1)|(Hf1&_&_&Hw1)]; [|exists S1; rewrite Hw; auto].
      exfalso.
      destruct (quitPlayers_attached w st tr1) as (ok0 & ok1 & Hq);
        [rewrite Hw; exact Hw0|rewrite Hw; exact Hw1
        |rewrite Hc; exact Hc0|rewrite Hc; exact Hc1|].
      erewrite bind_eq_done in H by exact Hq.
      unfold writeMatchLog, bind, ask, emit, ret in H.
      repeat case_match; discriminate. }
    destruct Hnil as (i & Hfi & Hwi).
    destruct (quitPlayers_nil w st tr1) as (trq & Hq).
    { destruct i; auto. }
    unfold bind at 1 in H. rewrite Hq in H. injection H as <- <-.
    split; [reflexivity|]. exists st0, tr0, st, tr1, i. auto.
  - exfalso. injection H as -> ->. eapply loop_no_panic; eauto.
  - discriminate.
Qed.

(** X13.  With an engine that keeps its contract a match panics in one
    way only: the game was played to its end and then the Quit line met
    the nil pipe of a player whose command could not be run.  And a match
    in which a command could not be run never returns a result. *)
Theorem match_panics_only_at_quit `{!EngineContract State Move}
    fuel players commands logPath msgPath tr :
  (forall msg tr',
     runMatch w fuel players commands logPath msgPath tr = Panic msg tr' ->
     msg = nilDeref /\
     exists st0 tr0 st tr1 i,
       startPlayers w commands msgPath (initialState players) tr = Done st0 tr0 /\
       loop w fuel commands st0 tr0 = Done st tr1 /\
       get i (failed (result st0)) = true /\ get i (writers st) = None) /\
  (forall st0 tr0 i,
     startPlayers w commands msgPath (initialState players) tr = Done st0 tr0 ->
     get i (failed (result st0)) = true ->
     forall r tr', runMatch w fuel players commands logPath msgPath tr <> Done r tr').
Proof.
  split.
  - intros msg tr'. apply runMatch_panic_cases.
  - intros st0 tr0 i Hstart Hf.
    apply (spawn_failure_never_returns w fuel players commands logPath msgPath
             st0 tr tr0 i Hstart Hf).
Qed.

End NoOtherPanic.

(** ** The counters of the statistics *)

Lemma wrap_add_l a b : wrap (wrap a + b) = wrap (a + b).
Proof.
  unfold wrap. f_equal.
  replace ((a + 2 ^ 63) `mod` 2 ^ 64 - 2 ^ 63 + b + 2 ^ 63)
    with ((a + 2 ^ 63) `mod` 2 ^ 64 + b) by lia.
  rewrite Zplus_mod_idemp_l. f_equal. lia.
Qed.

Lemma update_Some {A} (l : list A) i f :
  0 <= i < Z.of_nat (length l) -> exists l', update l i f = Some l'.
Proof.
  intros Hi. unfold update.
  destruct (index l i) as [x|] eqn:E; [cbn; eauto|].
  apply index_None in E. lia.
Qed.

Lemma update_in_range {A} (l l' : list A) i f :
  update l i f = Some l' -> 0 <= i < Z.of_nat (length l) /\ length l' = length l.
Proof.
  intros H. split; [|apply update_index in H as [H _]; exact H].
  unfold update in H. destruct (index l i) as [x|] eqn:E; [|discriminate].
  destruct (decide (0 <= i < Z.of_nat (length l))) as [|Hn]; [assumption|].
  apply index_None in Hn. congruence.
Qed.

Lemma update2_Some {A} (m : list (list A)) i j f n :
  Forall (fun row => length row = n) m ->
  0 <= i < Z.of_nat (length m) -> 0 <= j < Z.of_nat n ->
  exists m', update2 m i j f = Some m'.
Proof.
  intros Hrows Hi Hj. unfold update2.
  destruct (index m i) as [row|] eqn:E; [|apply index_None in E; lia]. cbn.
  apply index_Some in E as [_ E].
  assert (length row = n).
  { rewrite Forall_forall in Hrows. apply Hrows. eapply list_elem_of_lookup_2, E. }
  destruct (update_Some row j f) as (row' & ->); [lia|]. cbn. eauto.
Qed.

Lemma update2_in_range {A} (m m' : list (list A)) i j f n :
  Forall (fun row => length row = n) m ->
  update2 m i j f = Some m' ->
  (0 <= i < Z.of_nat (length m) /\ 0 <= j < Z.of_nat n) /\
  length m' = length m /\ Forall (fun row => length row = n) m'.
Proof.
  intros Hrows H. unfold update2 in H.
  destruct (index m i) as [row|] eqn:E; [|discriminate]. cbn in H.
  destruct (update row j f) as [row'|] eqn:Er; [|discriminate]. cbn in H.
  injection H as <-.
  apply index_Some in E as [Hi0 E].
  assert (Hlen : length row = n).
  { rewrite Forall_forall in Hrows. apply Hrows. eapply list_elem_of_lookup_2, E. }
  apply update_in_range in Er as [Hj Hl'].
  split; [|split].
  - apply lookup_lt_Some in E. lia.
  - apply length_insert.
  - apply Forall_insert; [exact Hrows|]. congruence.
Qed.

Lemma newStandings_sized n : sized n (newStandings n).
Proof.
  unfold sized, newStandings; cbn. rewrite !length_replicate.
  repeat split; try reflexivity; apply Forall_replicate, length_replicate.
Qed.

Ltac account_steps H :=
  unfold account in H;
  match type of H with context [update (totalPoints _) ?me _] => set (me_ := me) in * end;
  destruct (update (totalPoints _) _ _) as [tp|] eqn:Htp; [|discriminate]; cbn in H;
  destruct (update2 (pairScore _) _ _ _) as [ps|] eqn:Hps; [|discriminate]; cbn in H;
  destruct (if get _ (failed _) then _ else _) as [gf|] eqn:Hgf in H; [|discriminate];
  cbn in H;
  destruct (if get _ (score _) >? _ then update _ _ _ else _) as [gw|] eqn:Hgw in H;
    [|discriminate]; cbn in H;
  destruct (if get _ (score _) >? _ then update2 _ _ _ _ else _) as [wl|] eqn:Hwl in H;
    [|discriminate]; cbn in H;
  destruct (if get _ (score _) =? _ then _ else _) as [gt|] eqn:Hgt in H;
    [|discriminate]; cbn in H;
  destruct (if get _ (score _) <? _ then _ else _) as [gl|] eqn:Hgl in H;
    [|discriminate]; cbn in H;
  destruct (update (timeUsed _) _ _) as [tu|] eqn:Htu; [|discriminate]; cbn in H;
  destruct (index (timeMax _) _) as [mx|] eqn:Hmx; [|discriminate]; cbn in H;
  destruct (if PrimFloat.ltb mx _ then _ else _) as [tm|] eqn:Htm in H; [|discriminate];
  cbn in H; injection H as <-.

(** A side can be accounted for exactly when its player and the
    opponent are indices of the player list. *)
Lemma account_in_range n res i s s' :
  sized n s -> account res i s = Some s' ->
  0 <= get i (player res) < Z.of_nat n /\
  0 <= get (other i) (player res) < Z.of_nat n /\ sized n s'.
Proof.
  intros (Ltp & Lgw & Lgt & Lgl & Lgf & Ltu & Ltm & (Lwl & Rwl) & (Lps & Rps)) H.
  account_steps H.
  apply update_in_range in Htp as [Hme Ltp'].
  apply (update2_in_range _ _ _ _ _ n Rps) in Hps as ([_ Hopp] & Lps' & Rps').
  apply update_in_range in Htu as [_ Ltu'].
  assert (Lgf' : length gf = n).
  { destruct (get i (failed res)); [apply update_in_range in Hgf as [_ ->]
                                   |injection Hgf as <-]; exact Lgf. }
  assert (Lgw' : length gw = n).
  { destruct (_ >? _); [apply update_in_range in Hgw as [_ ->]|injection Hgw as <-];
      exact Lgw. }
  assert (Lwl' : length wl = n /\ Forall (fun row => length row = n) wl).
  { destruct (_ >? _); [|injection Hwl as <-; auto].
    apply (update2_in_range _ _ _ _ _ n Rwl) in Hwl as (_ & -> & ?). auto. }
  assert (Lgt' : length gt = n).
  { destruct (_ =? _); [apply update_in_range in Hgt as [_ ->]|injection Hgt as <-];
      exact Lgt. }
  assert (Lgl' : length gl = n).
  { destruct (_ <? _); [apply update_in_range in Hgl as [_ ->]|injection Hgl as <-];
      exact Lgl. }
  assert (Ltm' : length tm = n).
  { destruct (PrimFloat.ltb _ _); [apply update_in_range in Htm as [_ ->]
                                  |injection Htm as <-]; exact Ltm. }
  split; [lia|]. split; [exact Hopp|].
  unfold sized; cbn. repeat split; try congruence; tauto.
Qed.

Lemma account_Some n res i s :
  sized n s ->
  0 <= get i (player res) < Z.of_nat n ->
  0 <= get (other i) (player res) < Z.of_nat n ->
  exists s', account res i s = Some s'.
Proof.
  intros (Ltp & Lgw & Lgt & Lgl & Lgf & Ltu & Ltm & (Lwl & Rwl) & (Lps & Rps)) Hme Hopp.
  unfold account.
  set (me := get i (player res)) in *. set (opp := get (other i) (player res)) in *.
  destruct (update_Some (totalPoints s) me
              (fun v => int_add v (get i (points res)))) as (tp & ->); [lia|].
  destruct (update2_Some (pairScore s) me opp
              (fun v => int_add v (get i (score res))) n Rps) as (ps & ->); [lia|lia|].
  destruct (update_Some (gamesFailed s) me incr) as (gf & Egf); [lia|].
  destruct (update_Some (gamesWon s) me incr) as (gw & Egw); [lia|].
  destruct (update2_Some (winLoss s) me opp incr n Rwl) as (wl & Ewl); [lia|lia|].
  destruct (update_Some (gamesTied s) me incr) as (gt & Egt); [lia|].
  destruct (update_Some (gamesLost s) me incr) as (gl & Egl); [lia|].
  destruct (update_Some (timeUsed s) me
              (fun t => PrimFloat.add t (get i (time res)))) as (tu & ->); [lia|].
  destruct (index (timeMax s) me) as [mx|] eqn:Emx; [|apply index_None in Emx; lia].
  destruct (update_Some (timeMax s) me (fun _ => get i (time res))) as (tm & Etm); [lia|].
  rewrite Egf, Egw, Ewl, Egt, Egl, Etm. cbn.
  destruct (get i (failed res)), (_ >? _), (_ =? _), (_ <? _), (PrimFloat.ltb _ _);
    cbn; eauto.
Qed.

Lemma aggregate_sized n results s s' :
  sized n s -> aggregate results s = Some s' -> sized n s'.
Proof.
  revert s. induction results as [|res results IH]; intros s Hs H; simpl in H.
  - injection H as <-. exact Hs.
  - destruct (accountResult res s) as [s1|] eqn:H1; [|discriminate]. cbn in H.
    unfold accountResult in H1.
    destruct (account res S0 s) as [s0|] eqn:H0; [|discriminate]. cbn in H1.
    apply (account_in_range n) in H0 as (_ & _ & Hs0); [|exact Hs].
    apply (account_in_range n) in H1 as (_ & _ & Hs1); [|exact Hs0].
    eapply IH; eauto.
Qed.

(** Results that were gathered name players of the player list only. *)
Lemma aggregate_players n results s s' :
  sized n s -> aggregate results s = Some s' ->
  Forall (fun r => forall i, 0 <= get i (player r) < Z.of_nat n) results.
Proof.
  revert s. induction results as [|res results IH]; intros s Hs H; simpl in H.
  - constructor.
  - destruct (accountResult res s) as [s1|] eqn:H1; [|discriminate]. cbn in H.
    unfold accountResult in H1.
    destruct (account res S0 s) as [s0|] eqn:H0; [|discriminate]. cbn in H1.
    apply (account_in_range n) in H0 as (Hme & Hopp & Hs0); [|exact Hs].
    apply (account_in_range n) in H1 as (_ & _ & Hs1); [|exact Hs0].
    constructor; [intros []; assumption|]. eapply IH; eauto.
Qed.

(** ... and such results can be gathered. *)
Lemma aggregate_in_range' (results : list Result) (n : nat) :
  is_Some (aggregate results (newStandings n)) <->
  Forall (fun r => forall i, 0 <= get i (player r) < Z.of_nat n) results.
Proof.
  split.
  - intros [s' H]. eapply aggregate_players; [apply newStandings_sized|exact H].
  - pose proof (newStandings_sized n) as Hs. revert Hs.
    generalize (newStandings n) as s.
    induction results as [|res results IH]; intros s Hs Hall; simpl; [eauto|].
    apply Forall_cons in Hall as [Hres Hall].
    destruct (account_Some n res S0 s Hs (Hres S0) (Hres S1)) as (s0 & H0).
    pose proof (account_in_range n _ _ _ _ Hs H0) as (_ & _ & Hs0).
    destruct (account_Some n res S1 s0 Hs0 (Hres S1) (Hres S0)) as (s1 & H1).
    pose proof (account_in_range n _ _ _ _ Hs0 H1) as (_ & _ & Hs1).
    unfold accountResult. rewrite H0. cbn. rewrite H1. cbn.
    apply (IH s1 Hs1), Hall.
Qed.

(** A counter of the statistics, after the results were gathered: the
    sum of what each side added, with the wrap-around of int. *)
Lemma aggregate_counter (F : Standings -> list Z) (f : Result -> Slot -> Z) :
  (forall res i s s' k a, account res i s = Some s' ->
     index (F s) k = Some (wrap a) ->
     index (F s') k =
     Some (wrap (a + (if get i (player res) =? k then f res i else 0)))) ->
  forall results s s' k a, aggregate results s = Some s' ->
    index (F s) k = Some (wrap a) ->
    index (F s') k = Some (wrap (a + tally f k results)).
Proof.
  intros Hstep. induction results as [|res results IH]; intros s s' k a H Hk; simpl in *.
  - injection H as <-. rewrite Z.add_0_r. exact Hk.
  - destruct (accountResult res s) as [s1|] eqn:H1; [|discriminate]. cbn in H.
    unfold accountResult in H1.
    destruct (account res S0 s) as [s0|] eqn:H0; [|discriminate]. cbn in H1.
    pose proof (Hstep _ _ _ _ _ _ H0 Hk) as Hk0.
    pose proof (Hstep _ _ _ _ _ _ H1 Hk0) as Hk1.
    rewrite (IH _ _ _ _ H Hk1). do 2 f_equal. cbn [get]. lia.
Qed.

Lemma counter_step (me k a : Z) (g : Z -> Z) (v : Z) (x : option Z) :
  x = Some (wrap a) ->
  (forall a, g (wrap a) = wrap (a + v)) ->
  (if decide (k = me) then g else id) <$> x =
  Some (wrap (a + (if me =? k then v else 0))).
Proof.
  intros -> Hg. cbn. f_equal. case_decide as E.
  - subst k. rewrite Z.eqb_refl. apply Hg.
  - destruct (me =? k) eqn:E'; [apply Z.eqb_eq in E'; congruence|].
    rewrite Z.add_0_r. reflexivity.
Qed.

Lemma incr_wrap a : incr (wrap a) = wrap (a + 1).
Proof. unfold incr, int_add. apply wrap_add_l. Qed.

Lemma id_wrap a : id (wrap a) = wrap (a + 0).
Proof. rewrite Z.add_0_r. reflexivity. Qed.

Lemma replicate_index {A} (n : nat) (x : A) p :
  0 <= p < Z.of_nat n -> index (replicate n x) p = Some x.
Proof.
  intros Hp. apply index_Some. split; [lia|]. apply lookup_replicate_2. lia.
Qed.

Section Counters.

Context (results : list Result) (n : nat) (s : Standings) (p : Z).
Hypothesis Hagg : aggregate results (newStandings n) = Some s.
Hypothesis Hp : 0 <= p < Z.of_nat n.

Lemma counter_start (F : Standings -> list Z) :
  F (newStandings n) = replicate n 0 -> index (F (newStandings n)) p = Some (wrap 0).
Proof. intros ->. apply replicate_index, Hp. Qed.

Lemma totalPoints_tally :
  index (totalPoints s) p = Some (wrap (tally pointsSide p results)).
Proof.
  apply (aggregate_counter totalPoints pointsSide) with (a := 0) (s := newStandings n);
    [|exact Hagg|apply counter_start; reflexivity].
  intros res i s0 s1 k a Hacc Hk.
  pose proof (account_spec _ _ _ _ Hacc) as (E & _). cbv zeta in E. rewrite E.
  apply counter_step; [exact Hk|]. intros a'. unfold int_add. apply wrap_add_l.
Qed.

Lemma gamesWon_tally :
  index (gamesWon s) p = Some (wrap (tally wonSide p results)).
Proof.
  apply (aggregate_counter gamesWon wonSide) with (a := 0) (s := newStandings n);
    [|exact Hagg|apply counter_start; reflexivity].
  intros res i s0 s1 k a Hacc Hk.
  pose proof (account_spec _ _ _ _ Hacc) as (_ & _ & E & _). cbv zeta in E. rewrite E.
  apply counter_step; [exact Hk|]. intros a'. unfold wonSide.
  destruct (_ >? _); [apply incr_wrap|apply id_wrap].
Qed.

Lemma gamesTied_tally :
  index (gamesTied s) p = Some (wrap (tally tiedSide p results)).
Proof.
  apply (aggregate_counter gamesTied tiedSide) with (a := 0) (s := newStandings n);
    [|exact Hagg|apply counter_start; reflexivity].
  intros res i s0 s1 k a Hacc Hk.
  pose proof (account_spec _ _ _ _ Hacc) as (_ & _ & _ & E & _). cbv zeta in E. rewrite E.
  apply counter_step; [exact Hk|]. intros a'. unfold tiedSide.
  destruct (_ =? _); [apply incr_wrap|apply id_wrap].
Qed.

Lemma gamesLost_tally :
  index (gamesLost s) p = Some (wrap (tally lostSide p results)).
Proof.
  apply (aggregate_counter gamesLost lostSide) with (a := 0) (s := newStandings n);
    [|exact Hagg|apply counter_start; reflexivity].
  intros res i s0 s1 k a Hacc Hk.
  pose proof (account_spec _ _ _ _ Hacc) as (_ & _ & _ & _ & E & _). cbv zeta in E.
  rewrite E.
  apply counter_step; [exact Hk|]. intros a'. unfold lostSide.
  destruct (_ <? _); [apply incr_wrap|apply id_wrap].
Qed.

Lemma gamesFailed_tally :
  index (gamesFailed s) p = Some (wrap (tally failedSide p results)).
Proof.
  apply (aggregate_counter gamesFailed failedSide) with (a := 0) (s := newStandings n);
    [|exact Hagg|apply counter_start; reflexivity].
  intros res i s0 s1 k a Hacc Hk.
  pose proof (account_spec _ _ _ _ Hacc) as (_ & E & _). cbv zeta in E. rewrite E.
  apply counter_step; [exact Hk|]. intros a'. unfold failedSide.
  destruct (get i (failed res)); [apply incr_wrap|apply id_wrap].
Qed.

End Counters.

(** X14.  What the five counters of a player hold once the results are
    gathered: the points, the wins, ties and losses by score, and the
    failures of the sides that player played, each summed in int. *)
Theorem standings_tallies (results : list Result) (n : nat) (s : Standings) (p : Z) :
  aggregate results (newStandings n) = Some s ->
  0 <= p < Z.of_nat n ->
  index (totalPoints s) p = Some (wrap (tally pointsSide p results)) /\
  index (gamesWon s) p = Some (wrap (tally wonSide p results)) /\
  index (gamesTied s) p = Some (wrap (tally tiedSide p results)) /\
  index (gamesLost s) p = Some (wrap (tally lostSide p results)) /\
  index (gamesFailed s) p = Some (wrap (tally failedSide p results)).
Proof.
  intros H Hp. split; [|split; [|split; [|split]]].
  - eapply totalPoints_tally; eauto.
  - eapply gamesWon_tally; eauto.
  - eapply gamesTied_tally; eauto.
  - eapply gamesLost_tally; eauto.
  - eapply gamesFailed_tally; eauto.
Qed.

Lemma sumZ_cons x l : sumZ (x :: l) = x + sumZ l.
Proof. reflexivity. Qed.

Lemma sumZ_fmap_add {A} (g h : A -> Z) (l : list A) :
  sumZ ((fun k => g k + h k) <$> l) = sumZ (g <$> l) + sumZ (h <$> l).
Proof.
  induction l as [|x l IH]; [reflexivity|].
  rewrite !fmap_cons, !sumZ_cons, IH. lia.
Qed.

Lemma sumZ_fmap_ext {A} (g h : A -> Z) (l : list A) :
  (forall x, x ∈ l -> g x = h x) -> sumZ (g <$> l) = sumZ (h <$> l).
Proof.
  intros H. induction l as [|x l IH]; [reflexivity|].
  rewrite !fmap_cons, !sumZ_cons. rewrite H by left.
  rewrite IH; [reflexivity|]. intros y Hy. apply H. right. exact Hy.
Qed.

Lemma sumZ_zero {A} (l : list A) : sumZ ((fun _ => 0) <$> l) = 0.
Proof.
  induction l as [|x l IH]; [reflexivity|]. rewrite fmap_cons, sumZ_cons, IH. reflexivity.
Qed.

(** A sum in which one index counts. *)
Lemma sumZ_indicator (p v : Z) (l : list Z) :
  NoDup l ->
  sumZ ((fun k => if p =? k then v else 0) <$> l) = if decide (p ∈ l) then v else 0.
Proof.
  induction 1 as [|x l Hx Hnd IH].
  - rewrite decide_False by apply not_elem_of_nil. reflexivity.
  - rewrite fmap_cons, sumZ_cons, IH. destruct (p =? x) eqn:E.
    + apply Z.eqb_eq in E. subst x. rewrite decide_False by exact Hx.
      rewrite decide_True by left. lia.
    + apply Z.eqb_neq in E. destruct (decide (p ∈ l)) as [Hin|Hin].
      * rewrite decide_True by (right; exact Hin). lia.
      * rewrite decide_False; [lia|]. intros Hc. apply elem_of_cons in Hc as [|]; tauto.
Qed.

Lemma sumZ_indicator_range (p v n : Z) :
  0 <= p < n -> sumZ ((fun k => if p =? k then v else 0) <$> seqZ 0 n) = v.
Proof.
  intros Hp. rewrite sumZ_indicator by apply NoDup_seqZ.
  rewrite decide_True; [reflexivity|]. apply elem_of_seqZ. lia.
Qed.

(** A slice is the list of its entries. *)
Lemma slice_entries (l : list Z) :
  l = (fun k => default 0 (index l k)) <$> seqZ 0 (Z.of_nat (length l)).
Proof.
  apply list_eq. intros i. rewrite list_lookup_fmap.
  destruct (decide (i < length l)%nat) as [Hlt|Hge].
  - rewrite lookup_seqZ_lt by lia. cbn.
    rewrite index_lookup by lia. rewrite Z.add_0_l, Nat2Z.id.
    destruct (lookup_lt_is_Some_2 l i Hlt) as (x & ->). reflexivity.
  - rewrite lookup_seqZ_ge by lia. apply lookup_ge_None_2. lia.
Qed.

Lemma tally_bounds (f : Result -> Slot -> Z) k results :
  (forall r i, 0 <= f r i <= 1) ->
  0 <= tally f k results <= 2 * Z.of_nat (length results).
Proof.
  intros Hf. induction results as [|r results IH]; simpl; [lia|].
  pose proof (Hf r S0). pose proof (Hf r S1).
  destruct (_ =? k), (_ =? k); lia.
Qed.

Lemma tally2_bounds (f : Result -> Slot -> Z) k opp results :
  (forall r i, 0 <= f r i <= 1) ->
  0 <= tally2 f k opp results <= 2 * Z.of_nat (length results).
Proof.
  intros Hf. induction results as [|r results IH]; simpl; [lia|].
  pose proof (Hf r S0). pose proof (Hf r S1).
  destruct (_ && _), (_ && _); lia.
Qed.

Lemma side_outcome r i : wonSide r i + tiedSide r i + lostSide r i = anySide r i.
Proof.
  unfold wonSide, tiedSide, lostSide, anySide.
  set (a := get i (score r)). set (b := get (other i) (score r)).
  pose proof (Zgt_cases a b). pose proof (Zlt_cases a b).
  destruct (Z.eqb_spec a b); destruct (a >? b), (a <? b); lia.
Qed.

Lemma tally_add (f g h : Result -> Slot -> Z) k results :
  (forall r i, f r i + g r i = h r i) ->
  tally f k results + tally g k results = tally h k results.
Proof.
  intros H. induction results as [|r results IH]; simpl; [reflexivity|].
  rewrite <- IH, <- !H. destruct (_ =? k), (_ =? k); lia.
Qed.

Lemma tally_le (f g : Result -> Slot -> Z) k results :
  (forall r i, f r i <= g r i) -> tally f k results <= tally g k results.
Proof.
  intros H. induction results as [|r results IH]; simpl; [reflexivity|].
  pose proof (H r S0). pose proof (H r S1). destruct (_ =? k), (_ =? k); lia.
Qed.

Lemma wrap_tally (f : Result -> Slot -> Z) k results :
  (forall r i, 0 <= f r i <= 1) -> 2 * Z.of_nat (length results) <= maxInt ->
  wrap (tally f k results) = tally f k results.
Proof.
  intros Hf Hlen. pose proof (tally_bounds f k results Hf).
  apply wrap_small. unfold minInt, maxInt in *. lia.
Qed.

Ltac side01 := intros r i; unfold wonSide, tiedSide, lostSide, failedSide, anySide;
  repeat case_match; lia.

(** X15.  Every game a player played is counted once as won, tied or lost,
    and a failure only in a game that was played: the three counters add
    up to the number of sides the player had in the results. *)
Theorem games_accounted (results : list Result) (n : nat) (s : Standings) (p : Z) :
  aggregate results (newStandings n) = Some s ->
  0 <= p < Z.of_nat n ->
  2 * Z.of_nat (length results) <= maxInt ->
  exists gw gt gl gf,
    index (gamesWon s) p = Some gw /\ index (gamesTied s) p = Some gt /\
    index (gamesLost s) p = Some gl /\ index (gamesFailed s) p = Some gf /\
    0 <= gw /\ 0 <= gt /\ 0 <= gl /\ 0 <= gf <= gw + gt + gl /\
    gw + gt + gl = tally anySide p results.
Proof.
  intros H Hp Hlen.
  pose proof (gamesWon_tally results n s p H Hp) as Hw.
  pose proof (gamesTied_tally results n s p H Hp) as Ht.
  pose proof (gamesLost_tally results n s p H Hp) as Hl.
  pose proof (gamesFailed_tally results n s p H Hp) as Hf.
  rewrite wrap_tally in Hw, Ht, Hl, Hf by (try exact Hlen; side01).
  eexists _, _, _, _. repeat (split; [eassumption|]).
  pose proof (tally_bounds wonSide p results ltac:(side01)).
  pose proof (tally_bounds tiedSide p results ltac:(side01)).
  pose proof (tally_bounds lostSide p results ltac:(side01)).
  pose proof (tally_bounds failedSide p results ltac:(side01)).
  pose proof (tally_le failedSide anySide p results ltac:(side01)).
  assert (Hsum : tally wonSide p results + tally tiedSide p results +
                 tally lostSide p results = tally anySide p results).
  { rewrite (tally_add wonSide tiedSide (fun r i => wonSide r i + tiedSide r i))
      by reflexivity.
    apply tally_add. apply side_outcome. }
  lia.
Qed.

(** ** The win/loss matrix *)

Lemma aggregate_counter2 (F : Standings -> list (list Z)) (f : Result -> Slot -> Z) :
  (forall res i s s' a b x, account res i s = Some s' ->
     index2 (F s) a b = Some (wrap x) ->
     index2 (F s') a b =
     Some (wrap (x + (if (get i (player res) =? a) && (get (other i) (player res) =? b)
                      then f res i else 0)))) ->
  forall results s s' a b x, aggregate results s = Some s' ->
    index2 (F s) a b = Some (wrap x) ->
    index2 (F s') a b = Some (wrap (x + tally2 f a b results)).
Proof.
  intros Hstep. induction results as [|res results IH]; intros s s' a b x H Hk; simpl in *.
  - injection H as <-. rewrite Z.add_0_r. exact Hk.
  - destruct (accountResult res s) as [s1|] eqn:H1; [|discriminate]. cbn in H.
    unfold accountResult in H1.
    destruct (account res S0 s) as [s0|] eqn:H0; [|discriminate]. cbn in H1.
    pose proof (Hstep _ _ _ _ _ _ _ H0 Hk) as Hk0.
    pose proof (Hstep _ _ _ _ _ _ _ H1 Hk0) as Hk1.
    rewrite (IH _ _ _ _ _ H Hk1). do 2 f_equal. cbn [get other]. lia.
Qed.

Lemma winLoss_tally results n s a b :
  aggregate results (newStandings n) = Some s ->
  0 <= a < Z.of_nat n -> 0 <= b < Z.of_nat n ->
  index2 (winLoss s) a b = Some (wrap (tally2 wonSide a b results)).
Proof.
  intros H Ha Hb.
  apply (aggregate_counter2 winLoss wonSide) with (x := 0) (s := newStandings n);
    [|exact H|].
  - intros res i s0 s1 a' b' x Hacc Hk.
    pose proof (account_spec _ _ _ _ Hacc) as (_ & _ & _ & _ & _ & E & _).
    cbv zeta in E. rewrite E, Hk. cbn. f_equal.
    case_decide as Hd.
    + destruct Hd as [-> ->]. rewrite !Z.eqb_refl. cbn. unfold wonSide.
      destruct (_ >? _); [apply incr_wrap|apply id_wrap].
    + destruct (_ && _) eqn:Eb; [|rewrite Z.add_0_r; reflexivity].
      apply andb_true_iff in Eb as [E1 E2]. apply Z.eqb_eq in E1, E2. subst. tauto.
  - unfold index2. cbn. rewrite replicate_index by exact Ha. cbn.
    apply replicate_index, Hb.
Qed.

(** The sides a player played against each opponent are the sides it
    played. *)
Lemma tally2_sum_opponents (f : Result -> Slot -> Z) (n p : Z) results :
  Forall (fun r => forall i, 0 <= get i (player r) < n) results ->
  sumZ ((fun q => tally2 f p q results) <$> seqZ 0 n) = tally f p results.
Proof.
  induction 1 as [|r results Hr _ IH]; [apply sumZ_zero|].
  change (tally f p (r :: results)) with
    ((if get S0 (player r) =? p then f r S0 else 0) +
     (if get S1 (player r) =? p then f r S1 else 0) + tally f p results).
  rewrite <- IH.
  rewrite (sumZ_fmap_ext _ (fun q =>
    ((if (get S0 (player r) =? p) && (get S1 (player r) =? q) then f r S0 else 0) +
     (if (get S1 (player r) =? p) && (get S0 (player r) =? q) then f r S1 else 0)) +
    tally2 f p q results)) by (intros; reflexivity).
  rewrite (sumZ_fmap_add _ (fun q => tally2 f p q results)).
  rewrite (sumZ_fmap_add
    (fun q => if (get S0 (player r) =? p) && (get S1 (player r) =? q) then f r S0 else 0)
    (fun q => if (get S1 (player r) =? p) && (get S0 (player r) =? q) then f r S1 else 0)).
  f_equal. f_equal.
  - rewrite <- (sumZ_indicator_range (get S1 (player r))
                 (if get S0 (player r) =? p then f r S0 else 0) n) by apply Hr.
    apply sumZ_fmap_ext. intros q _. destruct (_ =? p), (_ =? q); reflexivity.
  - rewrite <- (sumZ_indicator_range (get S0 (player r))
                 (if get S1 (player r) =? p then f r S1 else 0) n) by apply Hr.
    apply sumZ_fmap_ext. intros q _. destruct (_ =? p), (_ =? q); reflexivity.
Qed.

(** X16.  The matrix of wins: the entry of player p against q counts the
    sides p played against q with the greater score, and the entries of
    p's row add up to the games p won. *)
Theorem winLoss_counts_wins (results : list Result) (n : nat) (s : Standings) (p : Z) :
  aggregate results (newStandings n) = Some s ->
  0 <= p < Z.of_nat n ->
  2 * Z.of_nat (length results) <= maxInt ->
  exists row gw,
    index (winLoss s) p = Some row /\ index (gamesWon s) p = Some gw /\
    length row = n /\
    (forall q, 0 <= q < Z.of_nat n ->
       index row q = Some (tally2 wonSide p q results)) /\
    sumZ row = gw.
Proof.
  intros H Hp Hlen.
  pose proof (aggregate_sized n _ _ _ (newStandings_sized n) H)
    as (_ & _ & _ & _ & _ & _ & _ & (Lwl & Rwl) & _).
  pose proof (aggregate_players n _ _ _ (newStandings_sized n) H) as Hrange.
  destruct (index (winLoss s) p) as [row|] eqn:Erow.
  2: { apply index_None in Erow. lia. }
  assert (Lrow : length row = n).
  { apply index_Some in Erow as [_ Erow]. rewrite Forall_forall in Rwl.
    apply Rwl. eapply list_elem_of_lookup_2, Erow. }
  assert (Hcells : forall q, 0 <= q < Z.of_nat n ->
            index row q = Some (tally2 wonSide p q results)).
  { intros q Hq. pose proof (winLoss_tally results n s p q H Hp Hq) as E.
    unfold index2 in E. rewrite Erow in E. cbn in E. rewrite E. f_equal.
    pose proof (tally2_bounds wonSide p q results ltac:(side01)).
    apply wrap_small. unfold minInt, maxInt in *. lia. }
  exists row, (tally wonSide p results).
  split; [reflexivity|]. split.
  { rewrite (gamesWon_tally results n s p H Hp). f_equal.
    apply wrap_tally; [side01|exact Hlen]. }
  split; [exact Lrow|]. split; [exact Hcells|].
  rewrite (slice_entries row), Lrow.
  rewrite <- (tally2_sum_opponents wonSide (Z.of_nat n) p results Hrange).
  apply sumZ_fmap_ext. intros q Hq. apply elem_of_seqZ in Hq.
  rewrite Hcells by lia. reflexivity.
Qed.

(** The sides of a player, summed over the players, are all the sides. *)
Lemma tally_sum_players (f : Result -> Slot -> Z) (n : Z) results :
  Forall (fun r => forall i, 0 <= get i (player r) < n) results ->
  sumZ ((fun k => tally f k results) <$> seqZ 0 n) =
  sumZ ((fun r => f r S0 + f r S1) <$> results).
Proof.
  induction 1 as [|r results Hr _ IH]; [apply sumZ_zero|].
  rewrite fmap_cons, sumZ_cons, <- IH.
  rewrite (sumZ_fmap_ext _ (fun k =>
    ((if get S0 (player r) =? k then f r S0 else 0) +
     (if get S1 (player r) =? k then f r S1 else 0)) + tally f k results))
    by (intros; reflexivity).
  rewrite (sumZ_fmap_add _ (fun k => tally f k results)).
  rewrite (sumZ_fmap_add (fun k => if get S0 (player r) =? k then f r S0 else 0)
                         (fun k => if get S1 (player r) =? k then f r S1 else 0)).
  rewrite !sumZ_indicator_range by apply Hr. reflexivity.
Qed.

(** X17.  Over all the players as many games were won as were lost. *)
Theorem wins_equal_losses (results : list Result) (n : nat) (s : Standings) :
  aggregate results (newStandings n) = Some s ->
  2 * Z.of_nat (length results) <= maxInt ->
  sumZ (gamesWon s) = sumZ (gamesLost s).
Proof.
  intros H Hlen.
  pose proof (aggregate_sized n _ _ _ (newStandings_sized n) H)
    as (_ & Lgw & _ & Lgl & _).
  pose proof (aggregate_players n _ _ _ (newStandings_sized n) H) as Hrange.
  rewrite (slice_entries (gamesWon s)), (slice_entries (gamesLost s)), Lgw, Lgl.
  transitivity (sumZ ((fun k => tally wonSide k results) <$> seqZ 0 (Z.of_nat n))).
  { apply sumZ_fmap_ext. intros k Hk. apply elem_of_seqZ in Hk.
    rewrite (gamesWon_tally results n s k H) by lia. cbn.
    apply wrap_tally; [side01|exact Hlen]. }
  transitivity (sumZ ((fun k => tally lostSide k results) <$> seqZ 0 (Z.of_nat n))).
  2: { apply sumZ_fmap_ext. intros k Hk. apply elem_of_seqZ in Hk.
       rewrite (gamesLost_tally results n s k H) by lia. cbn. symmetry.
       apply wrap_tally; [side01|exact Hlen]. }
  rewrite !tally_sum_players by exact Hrange.
  apply sumZ_fmap_ext. intros r _. unfold wonSide, lostSide. cbn [get other].
  set (a := fst (score r)). set (b := snd (score r)).
  pose proof (Zgt_cases a b). pose proof (Zgt_cases b a).
  pose proof (Zlt_cases a b). pose proof (Zlt_cases b a).
  destruct (a >? b), (b >? a), (a <? b), (b <? a); lia.
Qed.

(** ** The report is total *)

Lemma statLine_Some n s numGames p :
  sized n s -> 0 <= p < Z.of_nat n -> is_Some (statLine s numGames p).
Proof.
  intros (Ltp & Lgw & Lgt & Lgl & Lgf & Ltu & Ltm & _) Hp. unfold statLine.
  destruct (index (totalPoints s) p) eqn:E1; [|apply index_None in E1; lia].
  destruct (index (gamesWon s) p) eqn:E2; [|apply index_None in E2; lia].
  destruct (index (gamesTied s) p) eqn:E3; [|apply index_None in E3; lia].
  destruct (index (gamesLost s) p) eqn:E4; [|apply index_None in E4; lia].
  destruct (index (gamesFailed s) p) eqn:E5; [|apply index_None in E5; lia].
  destruct (index (timeUsed s) p) eqn:E6; [|apply index_None in E6; lia].
  destruct (index (timeMax s) p) eqn:E7; [|apply index_None in E7; lia].
  cbn. eauto.
Qed.

Lemma enumerate_elem {A} (l : list A) i c :
  (i, c) ∈ enumerate l -> 0 <= i < Z.of_nat (length l).
Proof.
  intros Hin. apply enumerate_lookup, index_Some in Hin as [H0 Hl].
  apply lookup_lt_Some in Hl. lia.
Qed.

Lemma briefResults_Some n s numGames players :
  sized n s -> length players = n -> is_Some (briefResults s numGames players).
Proof.
  intros Hs Hlen. unfold briefResults. apply mapM_is_Some, Forall_forall.
  intros [i c] Hin. apply enumerate_elem in Hin. apply (statLine_Some n); [exact Hs|].
  cbn. lia.
Qed.

(** The ranking names players of the player list. *)
Lemma ranking_players (tps : list Z) ip :
  ip ∈ reverse (Sort (pointPairs tps)) ->
  0 <= - second ip < Z.of_nat (length tps).
Proof.
  rewrite reverse_Permutation, Sort_Permutation. intros Hin.
  assert (Hp : - second ip ∈ (fun ip : IntPair => - second ip) <$> pointPairs tps)
    by (apply (list_elem_of_fmap_2 (fun ip : IntPair => - second ip)); exact Hin).
  rewrite pointPairs_players in Hp. apply elem_of_seqZ in Hp. lia.
Qed.

Lemma verboseResults_Some n s numGames players :
  sized n s -> length players = n -> is_Some (verboseResults s numGames players).
Proof.
  intros Hs Hlen.
  pose proof Hs as (Ltp & _ & _ & _ & _ & _ & _ & (Lwl & Rwl) & _).
  unfold verboseResults, pointsPlayers.
  rewrite (pointPairs_mapM (totalPoints s) players) by congruence. cbn.
  rewrite Reverse_reverse. cbn.
  set (ranking := reverse (Sort (pointPairs (totalPoints s)))).
  assert (Hrank : forall ip, ip ∈ ranking -> 0 <= - second ip < Z.of_nat n).
  { intros ip Hin. apply ranking_players in Hin. lia. }
  assert (Hname : forall ip, ip ∈ ranking -> is_Some (index players (- second ip))).
  { intros ip Hin. apply Hrank in Hin.
    destruct (index players (- second ip)) eqn:E; [eauto|]. apply index_None in E. lia. }
  assert (Hrows : is_Some (mapM (rankRow s numGames players) (enumerate ranking))).
  { apply mapM_is_Some, Forall_forall. intros [a ip] Hin.
    assert (ip ∈ ranking).
    { apply enumerate_lookup, index_Some in Hin as [_ Hin].
      eapply list_elem_of_lookup_2, Hin. }
    unfold compose, rankRow. cbv beta zeta. cbn [fst snd].
    destruct (Hname ip) as (name & ->); [assumption|]. cbn.
    destruct (statLine_Some n s numGames (- second ip) Hs) as (line & ->); [auto|].
    cbn. eauto. }
  destruct Hrows as (rows & ->). cbn.
  destruct (Z.of_nat (length players) >? 2); [|cbn; eauto].
  assert (Hm : is_Some (mapM (matrixRow s players ranking) (enumerate ranking))).
  { apply mapM_is_Some, Forall_forall. intros [a ip] Hin.
    assert (Hip : ip ∈ ranking).
    { apply enumerate_lookup, index_Some in Hin as [_ Hin].
      eapply list_elem_of_lookup_2, Hin. }
    unfold compose, matrixRow. cbv beta zeta. cbn [fst snd].
    destruct (Hname ip Hip) as (name & ->). cbn.
    assert (Hcells : is_Some (mapM (fun jp : IntPair =>
               if - second ip =? - second jp then Some None
               else row ← index (winLoss s) (- second ip);
                    v ← index row (- second jp); Some (Some v)) ranking)).
    { apply mapM_is_Some, Forall_forall. intros jp Hjp. unfold compose. cbv beta.
      destruct (_ =? _); [eauto|].
      pose proof (Hrank ip Hip). pose proof (Hrank jp Hjp).
      destruct (index (winLoss s) (- second ip)) as [row|] eqn:Er;
        [|apply index_None in Er; lia]. cbn.
      assert (length row = n).
      { apply index_Some in Er as [_ Er]. rewrite Forall_forall in Rwl.
        apply Rwl. eapply list_elem_of_lookup_2, Er. }
      destruct (index row (- second jp)) eqn:Ev; [cbn; eauto|].
      apply index_None in Ev. lia. }
    destruct Hcells as (cells & ->). cbn. eauto. }
  destruct Hm as (m & ->). cbn. eauto.
Qed.

(** Results whose players are indices of the player list have a report. *)
Lemma report_Some (flags : Flags) (rounds : Z) (single : bool)
    (players : list string) (results : list Result) :
  Forall (fun r => forall i, 0 <= get i (player r) < Z.of_nat (length players)) results ->
  is_Some (report flags rounds single players results).
Proof.
  intros Hall. unfold report.
  destruct (proj2 (aggregate_in_range' results (length players)) Hall) as (s & Hagg).
  rewrite Hagg. cbn.
  pose proof (aggregate_sized _ _ _ _ (newStandings_sized _) Hagg) as Hs.
  destruct (quiet flags).
  - destruct (briefResults_Some _ s (numGamesOf rounds players single) players Hs eq_refl)
      as (ls & ->). cbn. eauto.
  - apply (verboseResults_Some (length players)); auto.
Qed.

(** X18.  The statistics and the report index their slices out of range
    exactly when a result names a player that is not in the player list:
    for results whose players are indices of the list, main has a report
    to print. *)
Theorem report_in_range (flags : Flags) (rounds : Z) (single : bool)
    (players : list string) (results : list Result) :
  is_Some (report flags rounds single players results) <->
  Forall (fun r => forall i, 0 <= get i (player r) < Z.of_nat (length players)) results.
Proof.
  split; [|apply report_Some].
  unfold report. intros [out H].
  destruct (aggregate results (newStandings (length players))) as [s|] eqn:Hagg;
    [|discriminate].
  eapply aggregate_players; [apply newStandings_sized|exact Hagg].
Qed.

(** ** The panics of the whole program *)

Lemma schedule_players rounds n pr :
  pr ∈ schedule rounds n -> 0 <= fst pr < n /\ 0 <= snd pr < n.
Proof.
  unfold schedule, pairings. intros Hin.
  apply list_elem_of_In, in_flat_map in Hin as (_ & _ & Hin).
  apply in_flat_map in Hin as (i & Hi & Hin).
  apply in_flat_map in Hin as (j & Hj & Hin).
  apply list_elem_of_In, elem_of_seqZ in Hi, Hj.
  destruct (i =? j); [destruct Hin|]. destruct Hin as [<-|[]]. cbn. lia.
Qed.

Section MainPanics.

Context (w : World).
Context {State Move : Type} {GS : GameState State Move} {G : Game State Move}.
Context (flags : Flags).

(** The results of a tournament name players of the player list. *)
Lemma tournament_players fuel players rounds single tr results tr' :
  2 <= Z.of_nat (length players) -> 1 <= rounds ->
  runTournament w flags fuel players rounds single tr = Done results tr' ->
  Forall (fun r => forall i, 0 <= get i (player r) < Z.of_nat (length players)) results.
Proof.
  intros Hn Hr H. destruct single.
  - destruct players as [|c0 [|c1 rest]]; [simpl in Hn; lia|simpl in Hn; lia|].
    destruct (runTournament_single_done w flags fuel c0 c1 rest rounds tr _ _ Hr H)
      as (_ & res & Hm & ->).
    apply runMatch_player in Hm. apply Forall_cons. split; [|constructor].
    intros i. rewrite Hm. destruct i; cbn [get fst snd length]; lia.
  - apply runTournament_done in H as (Hsched & _); [|lia].
    apply Forall_forall. intros r Hr' i.
    assert (Hin : player r ∈ schedule rounds (Z.of_nat (length players))).
    { rewrite <- Hsched. apply list_elem_of_In, in_map, list_elem_of_In, Hr'. }
    apply schedule_players in Hin. destruct i; cbn [get]; lia.
Qed.

(** The matches of a list, under the engine's contract: the only panic
    is that of a match. *)
Lemma play_all_panic `{!EngineContract State Move} fuel ms
    (played rest : list Result) tr msg tr' :
  (forall m, m ∈ ms -> fst (fst m) <> fst (snd m)) ->
  Z.of_nat (length (played ++ rest)) <= maxInt ->
  (length ms <= length rest)%nat ->
  forEach ms (fun m => playPair w flags fuel false (fst m) (snd m))
    (played ++ rest, Z.of_nat (length played)) tr = Panic msg tr' ->
  msg = nilDeref.
Proof.
  revert played rest tr.
  induction ms as [|m ms IH]; intros played rest tr Hne Hlen Hroom H; [discriminate|].
  simpl in H. unfold bind at 1 in H.
  destruct (playPair w flags fuel false (fst m) (snd m)
              (played ++ rest, Z.of_nat (length played)) tr) as [r tr1|m1 tr1|tr1] eqn:Hp.
  - apply playPair_done in Hp as (res & Hpl & Hn & ->); [|apply Hne; left|exact Hlen].
    cbn [fst snd] in H. rewrite Nat2Z.id in H.
    destruct rest as [|x rest]; [simpl in Hroom; lia|].
    rewrite insert_app_r_alt in H by lia. rewrite Nat.sub_diag in H. simpl in H.
    replace (played ++ res :: rest) with ((played ++ [res]) ++ rest) in H
      by (rewrite <- app_assoc; reflexivity).
    replace (Z.of_nat (length played) + 1) with (Z.of_nat (length (played ++ [res]))) in H
      by (rewrite length_app; simpl; lia).
    apply IH in H; [exact H| | |].
    + intros m' Hm'. apply Hne. right. exact Hm'.
    + rewrite !length_app in *. simpl in *. lia.
    + simpl in Hroom. lia.
  - injection H as -> ->. unfold playPair in Hp. cbn [fst snd] in Hp.
    destruct (fst (fst m) =? fst (snd m)) eqn:E; [discriminate|]. cbn [negb] in Hp.
    unfold bind at 1 in Hp.
    destruct (runMatch w fuel _ _ _ _ tr) as [res tr2|m2 tr2|tr2] eqn:Hrun.
    + exfalso. unfold update, index in Hp.
      destruct (Z.of_nat (length played) <? 0) eqn:En; [apply Z.ltb_lt in En; lia|].
      rewrite Nat2Z.id in Hp.
      destruct rest as [|x rest]; [simpl in Hroom; lia|].
      rewrite lookup_app_r in Hp by lia. rewrite Nat.sub_diag in Hp. cbn in Hp.
      unfold ret in Hp. discriminate Hp.
    + injection Hp as -> ->. pose proof (runMatch_panic_cases w _ _ _ _ _ _ _ _ Hrun) as [-> _]. reflexivity.
    + discriminate.
  - discriminate.
Qed.

(** X19.  With an engine that keeps its contract, and a number of matches
    that fits an int, the whole program panics in two ways only.  Before
    any player is started, when the slice for the results cannot be
    made: it is longer than the runtime allows, or the system has not
    the memory.  Or through the nil pipe of a player whose command could
    not be run.  Nothing else indexes out of range, neither the schedule
    nor the report. *)
Theorem main_panics_only_at_quit `{!EngineContract State Move}
    fuel (rounds : Z) (single : bool) (players : list string) tr msg tr' :
  let n := Z.of_nat (length players) in
  let numResults := if single then 1 else rounds * n * (n - 1) in
  rounds * n * (n - 1) <= maxInt ->
  main w flags fuel rounds single players tr = Panic msg tr' ->
  msg = nilDeref \/
  (tr' = tr /\
   ((msg = lenOutOfRange /\ maxAlloc < sizeofResult * numResults) \/
    (msg = outOfMemory /\ sizeofResult * numResults <= maxAlloc /\
     memory w tr (sizeofResult * numResults) = false))).
Proof.
  intros n numResults Hfit H. unfold main in H. fold n in H.
  destruct (n <? 2) eqn:En; [discriminate|]. apply Z.ltb_ge in En.
  destruct (rounds <? 1) eqn:Er; [discriminate|]. apply Z.ltb_ge in Er.
  destruct (single && ((n >? 2) || (rounds >? 1))) eqn:Es; [discriminate|].
  unfold bind at 1 in H.
  destruct (runTournament w flags fuel players rounds single tr)
    as [results tr1|m1 tr1|tr1] eqn:Ht; [| |discriminate].
  - exfalso. apply tournament_players in Ht; [|exact En|exact Er].
    destruct (report_Some flags rounds single players results Ht) as (out & Hout).
    rewrite Hout in H. discriminate.
  - injection H as -> ->. destruct single.
    + destruct players as [|c0 [|c1 rest]]; [simpl in n; lia|simpl in n; lia|].
      rewrite runTournament_single in Ht by exact Er. unfold bind at 1 in Ht.
      destruct (makeResults w 1 tr) as [results tr1|m1 tr1|tr1] eqn:Hmk.
      * apply makeResults_done in Hmk as (_ & _ & _ & _ & ->). unfold bind in Ht.
        destruct (runMatch w fuel (0, 1) (c0, c1) (logFileOf flags 1) (msgFilesOf flags 1) tr)
          as [res tr2|m2 tr2|tr2] eqn:Hrun; try discriminate.
        injection Ht as -> ->.
        pose proof (runMatch_panic_cases w _ _ _ _ _ _ _ _ Hrun) as [-> _]. left. reflexivity.
      * injection Ht as -> ->. right. subst numResults.
        apply makeResults_panic in Hmk as (-> & [(-> & Hbig)|(-> & _ & Hfits & Hmem)]).
        -- split; [reflexivity|]. left. split; [reflexivity|].
           unfold sizeofResult, maxAlloc in *. lia.
        -- split; [reflexivity|]. right. auto.
      * discriminate.
    + unfold runTournament in Ht. fold n in Ht. cbv zeta in Ht.
      assert (Hexact : int_mul (int_mul rounds n) (n - 1) = rounds * n * (n - 1)).
      { unfold int_mul. rewrite (wrap_small (rounds * n)).
        - apply wrap_small. unfold minInt, maxInt in *. nia.
        - unfold minInt, maxInt in *. nia. }
      rewrite Hexact in Ht. unfold bind at 1 in Ht.
      destruct (makeResults w (rounds * n * (n - 1)) tr) as [results tr1|m1 tr1|tr1] eqn:Hmk.
      * apply makeResults_done in Hmk as (_ & _ & _ & -> & ->).
        unfold bind at 1 in Ht. rewrite tournament_loops in Ht.
        destruct (forEach _ _ _ tr) as [r tr2|m2 tr2|tr2] eqn:Hall; try discriminate.
        injection Ht as -> ->. left.
        pose proof (length_matchups players rounds ltac:(lia)) as Hlen. fold n in Hlen.
        apply (play_all_panic fuel (matchups players rounds) []
                 (replicate (Z.to_nat (rounds * n * (n - 1))) (newResult (0, 0))) tr msg tr').
        -- intros m. apply matchups_distinct.
        -- simpl. rewrite length_replicate. nia.
        -- rewrite length_replicate. lia.
        -- exact Hall.
      * injection Ht as -> ->. right. subst numResults.
        apply makeResults_panic in Hmk as (-> & [(-> & Hbig)|(-> & _ & Hfits & Hmem)]).
        -- split; [reflexivity|]. left. split; [reflexivity|].
           destruct Hbig as [Hneg|Hbig]; [nia|exact Hbig].
        -- split; [reflexivity|]. right. auto.
      * discriminate.
Qed.

(** X20.  The three complaints of main, in the order they are tried: too
    few players; then the number of rounds; then a single game asked for
    more than two players or more than one round.  A complaint is all
    that happens: no player is started.  Everything else runs the
    tournament. *)
Theorem main_complaints fuel rounds single players tr :
  let n := Z.of_nat (length players) in
  ((exists tr', main w flags fuel rounds single players tr = Done TooFewPlayers tr') <->
   n < 2) /\
  ((exists tr', main w flags fuel rounds single players tr = Done InvalidRounds tr') <->
   2 <= n /\ rounds < 1) /\
  ((exists tr', main w flags fuel rounds single players tr = Done SingleNeedsTwoPlayers tr')
   <-> 2 <= n /\ 1 <= rounds /\ single = true /\ (2 < n \/ 1 < rounds)) /\
  (forall out tr', main w flags fuel rounds single players tr = Done out tr' ->
     match out with
     | TooFewPlayers | InvalidRounds | SingleNeedsTwoPlayers => tr' = tr
     | Brief _ => quiet flags = true
     | Verbose _ _ => quiet flags = false
     end).
Proof.
  intros n.
  assert (Hrep : forall results out,
    report flags rounds single players results = Some out ->
    match out with
    | Brief _ => quiet flags = true
    | Verbose _ _ => quiet flags = false
    | _ => False
    end).
  { intros results out H. unfold report in H.
    destruct (aggregate _ _) as [s|]; [|discriminate]. cbn in H.
    destruct (quiet flags).
    - destruct (briefResults _ _ _); [|discriminate]. injection H as <-. reflexivity.
    - unfold verboseResults in H.
      apply bind_Some in H as (ranking & _ & H).
      apply bind_Some in H as (rows & _ & H).
      apply bind_Some in H as (matrix & _ & H). injection H as <-. reflexivity. }
  assert (Hrun : forall out tr',
    (n <? 2) = false -> (rounds <? 1) = false ->
    single && ((n >? 2) || (rounds >? 1)) = false ->
    main w flags fuel rounds single players tr = Done out tr' ->
    match out with
    | Brief _ => quiet flags = true
    | Verbose _ _ => quiet flags = false
    | _ => False
    end).
  { intros out tr' E1 E2 E3 H. unfold main in H. fold n in H. rewrite E1, E2, E3 in H.
    inv_bind H. destruct (report _ _ _ _ a) as [o|] eqn:Ho; [|discriminate].
    inv_ret H. eapply Hrep, Ho. }
  assert (Hcases :
    (n < 2 /\ main w flags fuel rounds single players tr = Done TooFewPlayers tr) \/
    (2 <= n /\ rounds < 1 /\
     main w flags fuel rounds single players tr = Done InvalidRounds tr) \/
    (2 <= n /\ 1 <= rounds /\ single = true /\ (2 < n \/ 1 < rounds) /\
     main w flags fuel rounds single players tr = Done SingleNeedsTwoPlayers tr) \/
    (2 <= n /\ 1 <= rounds /\ (single = true -> ~ (2 < n \/ 1 < rounds)) /\
     forall out tr', main w flags fuel rounds single players tr = Done out tr' ->
       match out with
       | Brief _ => quiet flags = true
       | Verbose _ _ => quiet flags = false
       | _ => False
       end)).
  { destruct (n <? 2) eqn:E1.
    { left. apply Z.ltb_lt in E1. split; [exact E1|]. unfold main. fold n.
      rewrite (proj2 (Z.ltb_lt _ _) E1). reflexivity. }
    right. destruct (rounds <? 1) eqn:E2.
    { left. apply Z.ltb_ge in E1. apply Z.ltb_lt in E2. split; [exact E1|].
      split; [exact E2|]. unfold main. fold n.
      rewrite (proj2 (Z.ltb_ge _ _) E1), (proj2 (Z.ltb_lt _ _) E2). reflexivity. }
    right. apply Z.ltb_ge in E1, E2.
    destruct (single && ((n >? 2) || (rounds >? 1))) eqn:E3.
    { left. split; [exact E1|]. split; [exact E2|].
      apply andb_true_iff in E3 as [-> E3]. split; [reflexivity|].
      split.
      - apply orb_true_iff in E3 as [E3|E3]; apply Z.gtb_gt in E3; lia.
      - unfold main. fold n.
        rewrite (proj2 (Z.ltb_ge _ _) E1), (proj2 (Z.ltb_ge _ _) E2), E3. reflexivity. }
    right. split; [exact E1|]. split; [exact E2|]. split.
    - intros -> Hc. cbn in E3. apply orb_false_iff in E3 as [E3 E4].
      pose proof (Zgt_cases n 2) as H1. pose proof (Zgt_cases rounds 1) as H2.
      rewrite E3 in H1. rewrite E4 in H2. lia.
    - intros out tr'. apply Hrun; reflexivity. }
  destruct Hcases as [(H1 & Hm)|[(H1 & H2 & Hm)|[(H1 & H2 & H3 & H4 & Hm)|(H1 & H2 & H3 & Hm)]]].
  - split; [split; [intros _; exact H1|intros _; eauto]|].
    split; [split; [intros [tr' E]; rewrite Hm in E; discriminate E|intros [? _]; lia]|].
    split; [split; [intros [tr' E]; rewrite Hm in E; discriminate E|intros [? _]; lia]|].
    intros out tr' E. rewrite Hm in E. injection E as <- <-. reflexivity.
  - split; [split; [intros [tr' E]; rewrite Hm in E; discriminate E|intros ?; lia]|].
    split; [split; [intros _; auto|intros _; eauto]|].
    split; [split; [intros [tr' E]; rewrite Hm in E; discriminate E|intros (_ & ? & _); lia]|].
    intros out tr' E. rewrite Hm in E. injection E as <- <-. reflexivity.
  - split; [split; [intros [tr' E]; rewrite Hm in E; discriminate E|intros ?; lia]|].
    split; [split; [intros [tr' E]; rewrite Hm in E; discriminate E|intros [_ ?]; lia]|].
    split; [split; [intros _; auto|intros _; eauto]|].
    intros out tr' E. rewrite Hm in E. injection E as <- <-. reflexivity.
  - split; [split; [intros [tr' E]; apply Hm in E; destruct E|intros ?; lia]|].
    split; [split; [intros [tr' E]; apply Hm in E; destruct E|intros [_ ?]; lia]|].
    split; [split; [intros [tr' E]; apply Hm in E; destruct E
                   |intros (_ & _ & Hs & Hc); destruct (H3 Hs Hc)]|].
    intros out tr' E. apply Hm in E. destruct out; tauto.
Qed.

End MainPanics.

(** ** The printed matrix and the verdict of the log *)

(** No player stands twice in the ranking. *)
Lemma ranking_NoDup (tps : list Z) :
  NoDup (second <$> reverse (Sort (pointPairs tps))).
Proof.
  rewrite reverse_Permutation, Sort_Permutation.
  assert (E : second <$> pointPairs tps = Z.opp <$> seqZ 0 (Z.of_nat (length tps))).
  { rewrite <- pointPairs_players, <- list_fmap_compose.
    apply list_fmap_ext. intros _ [tp i] _. simpl. lia. }
  rewrite E. apply NoDup_fmap_2; [|apply NoDup_seqZ]. intros x y. lia.
Qed.

(** X21.  The matrix of wins is printed for more than two players only; it
    has a row for each player and in each row a cell for each player, in
    the order of the ranking both ways, and the blank cell of a row is
    the one on the diagonal. *)
Theorem matrix_shape (s : Standings) (numGames : Z) (players : list string)
    (rows : list RankRow) (matrix : option (list (Z * string * list (option Z)))) :
  length (totalPoints s) = length players ->
  verboseResults s numGames players = Some (Verbose rows matrix) ->
  (matrix = None <-> (length players <= 2)%nat) /\
  forall m, matrix = Some m ->
    length m = length players /\
    forall a row, m !! a = Some row ->
      fst (fst row) = Z.of_nat a + 1 /\
      length (snd row) = length players /\
      forall b, (b < length players)%nat -> (snd row !! b = Some None <-> b = a).
Proof.
  intros Hlen H. unfold verboseResults, pointsPlayers in H.
  rewrite (pointPairs_mapM (totalPoints s) players Hlen) in H. cbn in H.
  rewrite Reverse_reverse in H. cbn in H.
  set (ranking := reverse (Sort (pointPairs (totalPoints s)))) in *.
  assert (Lrank : length ranking = length players).
  { unfold ranking. rewrite length_reverse.
    rewrite (Permutation_length (Sort_Permutation _)).
    unfold pointPairs. rewrite length_imap. exact Hlen. }
  apply bind_Some in H as (rows' & _ & H).
  apply bind_Some in H as (matrix' & Hm & H). injection H as <- <-.
  destruct (Z.of_nat (length players) >? 2) eqn:En.
  2: { injection Hm as <-. pose proof (Zgt_cases (Z.of_nat (length players)) 2) as Hc.
       rewrite En in Hc. split; [split; [lia|reflexivity]|discriminate]. }
  apply Z.gtb_gt in En.
  apply fmap_Some in Hm as (m & Hm & ->).
  split; [split; [discriminate|lia]|].
  intros m' [= <-]. apply mapM_Some_1 in Hm.
  pose proof (Forall2_length _ _ _ Hm) as Lm.
  unfold enumerate in Lm. rewrite length_imap in Lm.
  split; [congruence|].
  intros a row Ha.
  destruct (Forall2_lookup_r _ _ _ _ _ Hm Ha) as ([a' ip] & He & Hrow).
  apply enumerate_lookup_nat in He as (ip' & Hip & [= -> ->]).
  unfold matrixRow in Hrow. cbv zeta in Hrow. cbn [fst snd] in Hrow.
  apply bind_Some in Hrow as (name & _ & Hrow).
  apply bind_Some in Hrow as (cells & Hcells & Hrow). injection Hrow as <-.
  cbn [fst snd]. split; [reflexivity|].
  apply mapM_Some_1 in Hcells.
  pose proof (Forall2_length _ _ _ Hcells) as Lc.
  split; [congruence|].
  intros b Hb.
  destruct (lookup_lt_is_Some_2 ranking b ltac:(lia)) as (jp & Hjp).
  destruct (Forall2_lookup_l _ _ _ _ _ Hcells Hjp) as (cell & Hcell & Hval).
  rewrite Hcell.
  assert (Hsame : second ip' = second jp <-> b = a).
  { split.
    - intros Heq. pose proof (ranking_NoDup (totalPoints s)) as Hnd. fold ranking in Hnd.
      eapply (NoDup_lookup _ _ _ (second jp) Hnd);
        rewrite list_lookup_fmap; [rewrite Hjp|rewrite Hip; cbn; rewrite Heq]; reflexivity.
    - intros ->. congruence. }
  destruct (- second ip' =? - second jp) eqn:E.
  - injection Hval as <-. apply Z.eqb_eq in E. split; [intros _|reflexivity].
    apply Hsame. lia.
  - apply Z.eqb_neq in E.
    apply bind_Some in Hval as (r & _ & Hval).
    apply bind_Some in Hval as (v & _ & Hval). injection Hval as <-.
    split; [discriminate|]. intros Hba. apply Hsame in Hba. lia.
Qed.

Section Verdict.

Context (w : World).
Context {State Move : Type} {GS : GameState State Move} {G : Game State Move}.

(** X22.  When neither player failed, the verdict of the log and the
    competition points agree: the player the log calls the winner has 2
    points and the other 1, and a tie gives both 1. *)
Theorem verdict_matches_points fuel players commands logPath msgPath tr r tr' :
  runMatch w fuel players commands logPath msgPath tr = Done r tr' ->
  failed r = (false, false) ->
  (logVerdict r = "Player 1 won!" <-> points r = (2, 1)) /\
  (logVerdict r = "Player 2 won!" <-> points r = (1, 2)) /\
  (logVerdict r = "It's a tie!" <-> points r = (1, 1)).
Proof.
  intros H Hf.
  pose proof (runMatch_points w _ _ _ _ _ _ _ _ S0 H) as H0.
  pose proof (runMatch_points w _ _ _ _ _ _ _ _ S1 H) as H1.
  rewrite Hf in H0, H1. cbn [get other fst snd] in H0, H1.
  unfold logVerdict. cbn [get].
  destruct (points r) as [p0 p1], (score r) as [s0 s1]. cbn [fst snd] in *.
  pose proof (Zgt_cases s0 s1) as C0. pose proof (Zgt_cases s1 s0) as C1.
  destruct (s0 >? s1), (s1 >? s0); subst p0 p1; try lia;
    repeat split; try discriminate; try reflexivity; intros [= ].
Qed.

End Verdict.

(** ** The files and processes of a tournament *)

Lemma createdPaths_app d1 d2 : createdPaths (d1 ++ d2) = createdPaths d1 ++ createdPaths d2.
Proof. apply omap_app. Qed.

Lemma play_quiet d :
  Forall (fun e => isPlay e = true) d ->
  createdPaths d = [] /\ List.filter isStart d = [] /\ List.filter isWait d = [].
Proof.
  induction 1 as [|e d He _ (IH1 & IH2 & IH3)]; [auto|].
  destruct e; try discriminate; cbn; auto.
Qed.

Section MatchHistory.

Context (w : World).
Context {State Move : Type} {GS : GameState State Move} {G : Game State Move}.

Lemma runPlayer_history command msgPath tr cmd tr' :
  runPlayer w command msgPath tr = Done (inr cmd) tr' ->
  exists d, tr' = tr ++ d /\
    createdPaths d = msgFile msgPath /\
    List.filter isStart d = [EvStart cmd true] /\ List.filter isWait d = [].
Proof.
  intros H. apply runPlayer_steps in H.
  destruct (Fields command) as [|arg0 args]; [destruct H; discriminate|].
  destruct H as (found & Hfound & H). cbv zeta in H.
  destruct found as [name|]; [|destruct H; discriminate].
  destruct H as (wd & H). cbv zeta in H. destruct wd as [dir|]; [|destruct H; discriminate].
  destruct H as ([|] & H); cbv zeta in H; cbn [negb] in H; [|destruct H; discriminate].
  destruct H as ([|] & H); cbv zeta in H; cbn [negb] in H; [|destruct H; discriminate].
  destruct H as (target & d & Hd & started & -> & Hr).
  destruct started; [|discriminate]. injection Hr as ->.
  exists ([EvLookPath arg0 (Some name); EvGetwd (Some dir);
           EvStdinPipe true; EvStdoutPipe true] ++ d ++
          [EvStart {| Path := name; Args := arg0 :: args; Dir := dir;
                      Stderr := target |} true]).
  split; [rewrite <- !app_assoc; reflexivity|].
  unfold msgFile.
  destruct (String.eqb msgPath "-"); [destruct Hd as [_ ->]; cbn; auto|].
  destruct (String.eqb msgPath ""); [destruct Hd as [_ ->]; cbn; auto|].
  destruct Hd as [[_ ->]|[_ ->]]; cbn; auto.
Qed.

(** Starting a player whose command can be run. *)
Lemma startPlayer_history commands msgPath i (st st' : MatchState State) tr tr' :
  startPlayer w commands msgPath i st tr = Done st' tr' ->
  get i (failed (result st)) = false ->
  get i (failed (result st')) = false ->
  exists d cmd, tr' = tr ++ d /\
    createdPaths d = msgFile (get i msgPath) /\
    List.filter isStart d = [EvStart cmd true] /\ List.filter isWait d = [].
Proof.
  unfold startPlayer. intros H Hf Hf'. inv_bind H. destruct a as [err|cmd].
  { inv_bind H. inv_ret H. cbn in Hf'. rewrite get_set_same in Hf'. discriminate. }
  apply runPlayer_history in Hm as (d & -> & Hc & Hs & Hw).
  destruct i.
  - inv_bind H. inv_ret H. cbn [attach writers] in Hm. rewrite get_set_same in Hm.
    unfold Fprintln, ask in Hm. injection Hm as _ <-.
    exists (d ++ [EvWrite SiteStart S0 "Start" (pipeWrite w (tr ++ d) S0 "Start")]), cmd.
    split; [rewrite app_assoc; reflexivity|].
    rewrite createdPaths_app, !List.filter_app, Hc, Hs, Hw. cbn.
    rewrite !app_nil_r. auto.
  - inv_ret H. exists d, cmd. auto.
Qed.

Lemma turn_plays commands (st st' : MatchState State) tr tr' :
  turn w commands st tr = Done st' tr' ->
  exists d, tr' = tr ++ d /\ Forall (fun e => isPlay e = true) d.
Proof.
  intros H. apply turn_cases in H as (p & st1 & moveStr & tr1 & _ & Hmv & Hfw).
  assert (H1 : exists d1, tr1 = tr ++ d1 /\ Forall (fun e => isPlay e = true) d1).
  { apply mover_cases in Hmv as [(_ & n & k & move & -> & _)|
      (_ & q & line & ns & _ & [(move & _ & _ & _ & ->)|(gs & d & _ & _ & ->)])];
      (eexists; split; [reflexivity|repeat constructor]). }
  destruct H1 as (d1 & -> & Hd1).
  apply forward_cases in Hfw as [(_ & -> & _)|(_ & _ & _ & q & _ & [(_ & ->)|(_ & ->)])].
  - exists d1. auto.
  - eexists. split; [rewrite <- app_assoc; reflexivity|].
    apply Forall_app. split; [exact Hd1|repeat constructor].
  - eexists. split; [rewrite <- app_assoc; reflexivity|].
    apply Forall_app. split; [exact Hd1|repeat constructor].
Qed.

Lemma loop_plays fuel commands (st st' : MatchState State) tr tr' :
  loop w fuel commands st tr = Done st' tr' ->
  exists d, tr' = tr ++ d /\ Forall (fun e => isPlay e = true) d.
Proof.
  revert st tr. induction fuel as [|fuel IH]; intros st tr H; simpl in H.
  - destruct (over st); [|discriminate]. inv_ret H. exists []. rewrite app_nil_r. auto.
  - destruct (over st).
    { inv_ret H. exists []. rewrite app_nil_r. auto. }
    inv_bind H. apply turn_plays in Hm as (d1 & -> & Hd1).
    apply IH in H as (d2 & -> & Hd2).
    exists (d1 ++ d2). rewrite app_assoc. split; [reflexivity|].
    apply Forall_app. auto.
Qed.

(** The files and the processes of a match that returns: the message
    files of the two players, then the log; two processes started, and
    the two waited for at the end. *)
Lemma runMatch_history fuel players commands logPath msgPath tr r tr' :
  runMatch w fuel players commands logPath msgPath tr = Done r tr' ->
  exists d, tr' = tr ++ d /\ matchEvents logPath msgPath d.
Proof.
  intros H. pose proof H as H'. unfold runMatch in H'.
  inv_bind H'. rename a into st0, tr0 into tr0', Hm into Hstart.
  inv_bind H'. rename a into st, Hm into Hloop.
  inv_bind H'. rename Hm into Hquit. inv_bind H'. rename Hm into Hlog. inv_ret H'.
  assert (Hnf : forall i, get i (failed (result st0)) = false).
  { intros i. destruct (get i (failed (result st0))) eqn:E; [|reflexivity].
    destruct (spawn_failure_never_returns w fuel players commands logPath msgPath
                st0 tr tr0' i Hstart E) as [Hno _].
    destruct (Hno _ _ H). }
  pose proof (startPlayers_started w _ _ _ _ _ _ Hstart) as (Hs0 & Hs1 & _).
  pose proof (loop_evolves w _ _ _ _ _ _ Hloop) as [(Hc & _ & Hw & _) _].
  destruct Hs0 as [(_&Hc0&_&Hw0)|(Hf0&_)]; [|rewrite Hnf in Hf0; discriminate].
  destruct Hs1 as [(_&Hc1&_&Hw1)|(Hf1&_)]; [|rewrite Hnf in Hf1; discriminate].
  destruct (quitPlayers_attached w st tr0) as (ok0 & ok1 & Hq);
    [rewrite Hw; exact Hw0|rewrite Hw; exact Hw1|rewrite Hc; exact Hc0|rewrite Hc; exact Hc1|].
  rewrite Hq in Hquit. injection Hquit as _ Htr1. subst tr1.
  (* the start *)
  unfold startPlayers in Hstart. apply bind_done in Hstart as (sta & tra & Hm & Hstart).
  pose proof (startPlayer_started w commands msgPath S0 (initialState players) sta tr tra
                eq_refl eq_refl eq_refl eq_refl Hm)
    as (_ & _ & Hf1a & Hc1a & Hr1a & Hw1a).
  change (other S0) with S1 in *.
  assert (Hfa1 : get S1 (failed (result sta)) = false) by (rewrite Hf1a; reflexivity).
  assert (Hca1 : get S1 (cmds sta) = None) by (rewrite Hc1a; reflexivity).
  assert (Hra1 : get S1 (readers sta) = None) by (rewrite Hr1a; reflexivity).
  assert (Hwa1 : get S1 (writers sta) = None) by (rewrite Hw1a; reflexivity).
  pose proof (startPlayer_started w _ _ _ _ _ _ _ Hfa1 Hca1 Hra1 Hwa1 Hstart)
    as (_ & _ & Hf0b & _).
  change (other S1) with S0 in *.
  assert (Hfa : get S0 (failed (result sta)) = false) by (rewrite <- Hf0b; apply Hnf).
  apply startPlayer_history in Hm as (da & ca & -> & Hca & Hsa & Hwa);
    [|reflexivity|exact Hfa].
  apply startPlayer_history in Hstart as (db & cb & -> & Hcb & Hsb & Hwb);
    [|exact Hfa1|apply Hnf].
  apply loop_plays in Hloop as (d1 & -> & Hd1).
  apply play_quiet in Hd1 as (Hc1' & Hs1' & Hw1').
  set (dq := [EvWrite SiteQuit S0 "Quit" ok0; EvClose S0;
              EvWrite SiteQuit S1 "Quit" ok1; EvClose S1; EvWait S0; EvWait S1]) in *.
  assert (Hl : exists dl, tr' = (((tr ++ da) ++ db) ++ d1) ++ dq ++ dl /\
             createdPaths dl = (if String.eqb logPath "" then [] else [logPath]) /\
             List.filter isStart dl = [] /\ List.filter isWait dl = []).
  { unfold writeMatchLog in Hlog. destruct (String.eqb logPath "") eqn:E; cbn [negb] in Hlog.
    - inv_ret Hlog. exists []. rewrite app_nil_r. auto.
    - unfold bind, ask, emit in Hlog.
      destruct (osCreate w _ logPath); injection Hlog as _ <-.
      + exists [EvCreate logPath true; EvLog logPath].
        split; [rewrite <- !app_assoc; reflexivity|cbn; auto].
      + exists [EvCreate logPath false; EvDiag (CreateFailed logPath)].
        split; [rewrite <- !app_assoc; reflexivity|cbn; auto]. }
  destruct Hl as (dl & -> & Hcl & Hsl & Hwl).
  exists (da ++ db ++ d1 ++ dq ++ dl). split; [rewrite <- !app_assoc; reflexivity|].
  unfold matchEvents.
  rewrite !createdPaths_app, !List.filter_app, Hca, Hcb, Hc1', Hcl, Hsa, Hsb, Hs1', Hsl,
    Hwa, Hwb, Hw1', Hwl.
  cbn. rewrite ?app_nil_r. eauto.
Qed.

End MatchHistory.

Lemma named_file (path number ending : string) :
  (2 <= String.length ending)%nat ->
  msgFile (path +:+ number +:+ ending) = [path +:+ number +:+ ending] /\
  String.eqb (path +:+ number +:+ ending) "" = false.
Proof.
  intros Hlen.
  assert (Hl : (2 <= String.length (path +:+ number +:+ ending))%nat)
    by (rewrite !length_append; lia).
  assert (E1 : String.eqb (path +:+ number +:+ ending) "-" = false).
  { apply String.eqb_neq. intros E. rewrite E in Hl. simpl in Hl. lia. }
  assert (E2 : String.eqb (path +:+ number +:+ ending) "" = false).
  { apply String.eqb_neq. intros E. rewrite E in Hl. simpl in Hl. lia. }
  unfold msgFile. rewrite E1, E2. auto.
Qed.

Section TournamentHistory.

Context (w : World).
Context {State Move : Type} {GS : GameState State Move} {G : Game State Move}.
Context (flags : Flags).

(** The match played when n matches were played before: its files are
    those of match number n + 1. *)
Lemma playPair_history fuel firstOnly ic jc results n r tr tr' :
  fst ic <> fst jc -> 0 <= n < maxInt ->
  playPair w flags fuel firstOnly ic jc (results, n) tr = Done r tr' ->
  exists d, tr' = tr ++ d /\
    createdPaths d = filesOf flags (n + 1) /\
    (exists c0 c1, List.filter isStart d = [EvStart c0 true; EvStart c1 true]) /\
    List.filter isWait d = [EvWait S0; EvWait S1].
Proof.
  intros Hne Hn H. unfold playPair in H. cbn [fst snd] in H.
  destruct (fst ic =? fst jc) eqn:E; [apply Z.eqb_eq in E; contradiction|].
  cbn [negb] in H. inv_bind H.
  destruct (update results n _) as [results'|]; [|discriminate]. inv_ret H.
  apply runMatch_history in Hm as (d & -> & Hfiles & Hstart & Hwait).
  exists d. split; [reflexivity|]. split; [|auto].
  rewrite Hfiles. unfold filesOf.
  assert (Ea : int_add n 1 = n + 1)
    by (unfold int_add; apply wrap_small; unfold minInt, maxInt in *; lia).
  rewrite Ea. cbn [get fst snd].
  rewrite app_assoc. f_equal.
  - destruct (String.eqb (msgPath flags) "") eqn:E1; cbn [negb andb]; [reflexivity|].
    destruct (String.eqb (msgPath flags) "-") eqn:E2; cbn [negb andb fst snd];
      [reflexivity|].
    rewrite (proj1 (named_file (msgPath flags) (fmt04d (n + 1)) ".1.log" ltac:(simpl; lia))).
    rewrite (proj1 (named_file (msgPath flags) (fmt04d (n + 1)) ".2.log" ltac:(simpl; lia))).
    reflexivity.
  - destruct (String.eqb (logPath flags) "") eqn:E1; cbn [negb]; [reflexivity|].
    rewrite (proj2 (named_file (logPath flags) (fmt04d (n + 1)) ".log" ltac:(simpl; lia))).
    reflexivity.
Qed.

Lemma play_all_history fuel ms (played rest : list Result) r tr tr' :
  (forall m, m ∈ ms -> fst (fst m) <> fst (snd m)) ->
  Z.of_nat (length (played ++ rest)) <= maxInt ->
  forEach ms (fun m => playPair w flags fuel false (fst m) (snd m))
    (played ++ rest, Z.of_nat (length played)) tr = Done r tr' ->
  exists d, tr' = tr ++ d /\
    createdPaths d =
      flat_map (filesOf flags) (seqZ (Z.of_nat (length played) + 1) (Z.of_nat (length ms))) /\
    Forall (fun e => exists c, e = EvStart c true) (List.filter isStart d) /\
    length (List.filter isStart d) = (2 * length ms)%nat /\
    length (List.filter isWait d) = (2 * length ms)%nat.
Proof.
  revert played rest tr. induction ms as [|m ms IH]; intros played rest tr Hne Hlen H.
  - simpl in H. inv_ret H. exists []. rewrite app_nil_r. cbn. auto.
  - simpl in H. inv_bind H.
    pose proof Hm as Hm'.
    apply playPair_done in Hm' as (res & Hpl & Hn & ->); [|apply Hne; left|exact Hlen].
    apply playPair_history in Hm as (d1 & -> & Hf1 & (c0 & c1 & Hs1) & Hw1);
      [|apply Hne; left|lia].
    cbn [fst snd] in H. rewrite Nat2Z.id in H.
    rewrite length_app in Hn.
    destruct rest as [|x rest]; [simpl in Hn; lia|].
    rewrite insert_app_r_alt in H by lia. rewrite Nat.sub_diag in H. simpl in H.
    replace (played ++ res :: rest) with ((played ++ [res]) ++ rest) in H
      by (rewrite <- app_assoc; reflexivity).
    replace (Z.of_nat (length played) + 1) with (Z.of_nat (length (played ++ [res]))) in H
      by (rewrite length_app; simpl; lia).
    apply IH in H as (d2 & -> & Hf2 & Hok2 & Hs2 & Hw2).
    + exists (d1 ++ d2). split; [rewrite app_assoc; reflexivity|].
      rewrite createdPaths_app, !List.filter_app, !length_app, Hf1, Hf2, Hs1, Hw1, Hs2, Hw2.
      split; [|split; [|split; simpl; lia]].
      * rewrite (seqZ_cons (Z.of_nat (length played) + 1)) by (cbn [length]; lia).
        cbn [flat_map]. f_equal. f_equal.
        rewrite length_app. cbn [length].
        replace (Z.pred (Z.of_nat (S (length ms)))) with (Z.of_nat (length ms)) by lia.
        replace (Z.of_nat (length played + 1)%nat + 1)
          with (Z.succ (Z.of_nat (length played) + 1)) by lia.
        reflexivity.
      * apply Forall_app. split; [|exact Hok2]. repeat constructor; eauto.
    + intros m' Hm'. apply Hne. right. exact Hm'.
    + rewrite !length_app in *. simpl in *. lia.
Qed.

(** X24.  A tournament that returns: the files it tried to create are
    those of its matches in the order of play, match number k (counted
    from 1) giving the message files k.1 and k.2 of its players and then
    its log k, as far as the flags ask for them; every process it
    started did start, two for each match, and two were waited for in
    each match. *)
Theorem tournament_files_and_processes fuel commands rounds tr results tr' :
  0 <= rounds ->
  runTournament w flags fuel commands rounds false tr = Done results tr' ->
  exists d, tr' = tr ++ d /\
    createdPaths d =
      flat_map (filesOf flags) (seqZ 1 (Z.of_nat (length results))) /\
    Forall (fun e => exists c, e = EvStart c true) (List.filter isStart d) /\
    length (List.filter isStart d) = (2 * length results)%nat /\
    length (List.filter isWait d) = (2 * length results)%nat.
Proof.
  intros Hr H.
  pose proof (runTournament_done w flags fuel commands rounds tr results tr' Hr H)
    as (_ & Hcount & _). cbv zeta in Hcount.
  pose proof (length_matchups commands rounds Hr) as Hlen.
  assert (Hsame : length results = length (matchups commands rounds)) by lia.
  unfold runTournament in H. cbv zeta in H.
  inv_bind H. rename a into results0.
  apply makeResults_done in Hm as (Eneg & _ & _ & -> & ->).
  inv_bind H. inv_ret H. rewrite tournament_loops in Hm.
  pose proof (wrap_range (int_mul rounds (Z.of_nat (length commands)) *
                          (Z.of_nat (length commands) - 1))) as Hrange.
  fold (int_mul (int_mul rounds (Z.of_nat (length commands)))
                (Z.of_nat (length commands) - 1)) in Hrange.
  apply (play_all_history fuel _ []) in Hm as (d & -> & Hfiles & Hok & Hstarts & Hwaits).
  - exists d. rewrite Hsame. auto.
  - intros m. apply matchups_distinct.
  - simpl. rewrite length_replicate. lia.
Qed.

End TournamentHistory.

(** ** The examples *)

#[export] Instance nimContract : EngineContract Nim Z.
Proof.
  split.
  - intros s _. simpl. destruct (toMove s); auto.
  - intros s Hov. simpl in *. apply Z.leb_gt in Hov.
    destruct (2 <=? stones s) eqn:E2; [done|].
    destruct (1 <=? stones s) eqn:E1; [done|].
    apply Z.leb_gt in E1. lia.
  - intros s m Hov Hin. simpl in *. unfold nimExecute.
    destruct (2 <=? stones s) eqn:E2.
    + apply Z.leb_le in E2.
      destruct Hin as [<-|[<-|[]]]; simpl;
        (destruct (_ <=? stones s) eqn:E; [reflexivity|apply Z.leb_gt in E; lia]).
    + destruct (1 <=? stones s) eqn:E1; [|destruct Hin].
      apply Z.leb_le in E1. destruct Hin as [<-|[]]. simpl.
      destruct (1 <=? stones s) eqn:E; [reflexivity|apply Z.leb_gt in E; lia].
  - intros s m. simpl. unfold nimExecute.
    destruct (_ && _); [discriminate|reflexivity].
Qed.

Lemma C1_competition_points_witness :
  exists r tr',
    runMatch deafWorld 10 (0, 1) demoCommands "" ("", "") [] = Done r tr' /\
    get S1 (failed r) = true /\ get S1 (points r) = 0 /\ get S0 (points r) = 1.
Proof.
  eexists _, _. split; [vm_compute; reflexivity|].
  destruct (C1_competition_points (GS := nimState) (G := nimGame) deafWorld 10 (0, 1) demoCommands "" ("", "") [] _ _
              ltac:(vm_compute; reflexivity)) as (Hfailed & Hplayed & _).
  split; [reflexivity|]. split; [exact (Hfailed S1 eq_refl)|].
  apply (Hplayed S0 eq_refl). simpl. lia.
Defined.



Lemma C6_write_failure_marks_recipient_witness :
  exists st',
    turn brokenPipeWorld demoCommands nimStart [] =
    Done st' [EvRead S0 (Some ("1" +:+ newline)) 1000000;
              EvWrite SiteMove S1 "1" false; EvDiag (CouldNotWrite "b")] /\
    get S1 (failed (result st')) = true /\
    get S0 (failed (result st')) = false /\
    stones (gamestate st') = 2.
Proof.
  destruct (C6_write_failure_marks_recipient (GS := nimState) (G := nimGame)
              brokenPipeWorld demoCommands nimStart
              _ [] _ S0 S1 "1" eq_refl ltac:(vm_compute; reflexivity)
              ltac:(discriminate) eq_refl eq_refl eq_refl eq_refl)
    as (st' & Hturn & Hrecipient & Hmover & Hgame & _).
  exists st'. split; [exact Hturn|]. split; [exact Hrecipient|].
  split; [exact Hmover|]. rewrite Hgame. reflexivity.
Defined.

(** C3 (what the code does).  A match whose first player's command is
    empty, so that runPlayer fails for it: the loop plays the game to
    its end with random moves for that side, then the Quit line for the
    pipe that was never opened panics.  The second player's process was
    started and is never told to quit, closed or waited for.  With the
    second player's command empty the first player's pipe is closed, and
    its process is never waited for. *)
Theorem C3_spawn_failure_panics :
  (exists tr',
     runMatch calmWorld 10 (0, 1) ("", "b") "" ("", "") [] = Panic nilDeref tr' /\
     List.filter isOutput tr' = [EvWrite SiteMove S1 "2" true]) /\
  (exists tr',
     runMatch calmWorld 10 (0, 1) ("a", "") "" ("", "") [] = Panic nilDeref tr' /\
     List.filter isOutput tr' =
       [EvWrite SiteStart S0 "Start" true; EvWrite SiteQuit S0 "Quit" true; EvClose S0]).
Proof.
  split; eexists; (split; [vm_compute; reflexivity|reflexivity]).
Qed.


(** Nor is it enough that the count fits an int: with two players and
    2^46 rounds the 2^47 results are more than make allows, and again no
    match is run. *)
Lemma tournament_too_long_for_make :
  2 ^ 46 * 2 * (2 - 1) <= maxInt /\
  runTournament calmWorld noFlags 10 demoPlayers2 (2 ^ 46) false [] =
    Panic "makeslice: len out of range" [].
Proof.
  split; [unfold maxInt; lia|].
  unfold runTournament, makeResults, bind. reflexivity.
Qed.

(** The loop does not ask the engine again whether the game is over
    after a move of a client was rejected.  An engine that ends the game
    while it rejects a move so brings the fallback to a game that is
    over, where no move need be listed: rand.Intn panics, although the
    engine lists a move whenever the game is not over and accepts every
    move it lists. *)
Lemma fallback_in_finished_game :
  (forall s, Over (GameState := hastyState) s = false ->
     ListMoves (GameState := hastyState) s <> []) /\
  (forall s m, Over (GameState := hastyState) s = false ->
     In m (ListMoves (GameState := hastyState) s) ->
     snd (Execute (GameState := hastyState) s m) = true) /\
  runMatch (GS := hastyState) (G := hastyGame) calmWorld 10 (0, 1) demoCommands
    "" ("", "") [] =
  Panic "invalid argument to Intn"
    [EvLookPath "a" (Some "/bin/a"); EvGetwd (Some "/"); EvStdinPipe true;
     EvStdoutPipe true;
     EvStart {| Path := "/bin/a"; Args := ["a"]; Dir := "/"; Stderr := StderrUnset |} true;
     EvWrite SiteStart S0 "Start" true;
     EvLookPath "b" (Some "/bin/b"); EvGetwd (Some "/"); EvStdinPipe true;
     EvStdoutPipe true;
     EvStart {| Path := "/bin/b"; Args := ["b"]; Dir := "/"; Stderr := StderrUnset |} true;
     EvRead S0 (Some ("1" +:+ newline)) 1000000;
     EvDiag (InvalidMove "a" "1")].
Proof.
  split; [|split].
  - intros [] H; [discriminate H|discriminate].
  - intros [] m H; [discriminate H|]. intros [<-|[]]. reflexivity.
  - vm_compute. reflexivity.
Qed.


Lemma C7_ranking_order_witness :
  pointsPlayers demoStandings fivePlayers =
  Some [ {| first := 7; second := -3 |}; {| first := 5; second := -1 |};
         {| first := 5; second := -4 |}; {| first := 3; second := 0 |};
         {| first := 3; second := -2 |} ].
Proof.
  destruct (C7_ranking_order demoStandings fivePlayers eq_refl)
    as (ranking & Hpp & Heq & _).
  rewrite Hpp, Heq. vm_compute. reflexivity.
Defined.

Lemma C8_brief_report_witness :
  exists lines tr',
    main calmWorld noFlags 10 2 false threePlayers [] = Done (Brief lines) tr' /\
    length lines = 3%nat /\
    numGamesOf 2 threePlayers false = 8.
Proof.
  eexists _, _. split; [vm_compute; reflexivity|].
  destruct (C8_brief_report (GS := nimState) (G := nimGame)
              calmWorld noFlags 10 2 false threePlayers [] _ _
              ltac:(vm_compute; reflexivity))
    as (results & s & _ & _ & _ & Hlen & Hgames & _).
  split; [exact Hlen|exact Hgames].
Defined.

Lemma C9_wins_by_score_alone_witness :
  exists res tr' s',
    runMatch deafWorld 10 (0, 1) demoCommands "" ("", "") [] = Done res tr' /\
    accountResult res (newStandings 2) = Some s' /\
    get S1 (failed res) = true /\
    index (gamesWon s') 1 = Some 1 /\
    index2 (winLoss s') 1 0 = Some 1 /\
    get S1 (points res) = 0.
Proof.
  eexists _, _, _. split; [vm_compute; reflexivity|].
  split; [vm_compute; reflexivity|].
  destruct (C9_wins_by_score_alone (GS := nimState) (G := nimGame)
              deafWorld 10 (0, 1) demoCommands "" ("", "") [] _ _
              (newStandings 2) _ S1
              ltac:(vm_compute; reflexivity) ltac:(discriminate)
              ltac:(vm_compute; reflexivity))
    as (_ & _ & _ & _ & Hfailedwinner).
  destruct (Hfailedwinner eq_refl ltac:(simpl; lia)) as (Hwon & Hwl & _ & Hpts & _).
  split; [reflexivity|]. split; [exact Hwon|]. split; [exact Hwl|exact Hpts].
Defined.

Lemma shorten_length_witness :
  Z.of_nat (String.length (shorten longCommand 30)) = 30.
Proof.
  destruct (shorten_length longCommand 30 ltac:(lia)) as [Hlen _].
  rewrite Hlen. reflexivity.
Defined.

Lemma shorten_keeps_ends_witness :
  exists before behind,
    shorten longCommand 30 = before +:+ ".." +:+ behind /\
    Z.of_nat (String.length before) = 14 /\ Z.of_nat (String.length behind) = 14.
Proof.
  destruct (shorten_keeps_ends longCommand 30 ltac:(vm_compute; split; [discriminate|reflexivity]))
    as (before & middle & behind & _ & Hshort & Hb & He).
  exists before, behind. split; [exact Hshort|]. split; [exact Hb|exact He].
Defined.

Lemma log_names_distinct_witness :
  ~ ("game" +:+ fmt04d (int_add 0 1) +:+ ".log" =
     "game" +:+ fmt04d (int_add 10 1) +:+ ".log").
Proof.
  intros H.
  apply (proj2 (log_names_distinct "game" 0 10
                  ltac:(vm_compute; split; [discriminate|reflexivity])
                  ltac:(vm_compute; split; [discriminate|reflexivity])) ".log") in H.
  discriminate H.
Defined.

Lemma runPlayer_failure_witness :
  runPlayer calmWorld "  " "msg.log" [] = Done (inl ErrInvalid) [] /\ Fields "  " = [].
Proof.
  destruct (runPlayer_failure calmWorld "  " "msg.log" [] ErrInvalid [] eq_refl)
    as (d & _ & _ & [Hfields _] & _).
  split; [reflexivity|exact Hfields].
Defined.

Lemma runPlayer_success_witness :
  exists cmd tr',
    runPlayer calmWorld "player  --fast" "-" [] = Done (inr cmd) tr' /\
    Args cmd = ["player"; "--fast"] /\ Path cmd = "/bin/player" /\
    Stderr cmd = StderrArbiter.
Proof.
  eexists _, _. split; [vm_compute; reflexivity|].
  destruct (runPlayer_success calmWorld "player  --fast" "-" [] _ _
              ltac:(vm_compute; reflexivity)) as (d & _ & _ & Hargs & _).
  split; [exact Hargs|]. split; reflexivity.
Defined.

Lemma turn_forwards_to_opponent_witness :
  exists st' tr',
    turn calmWorld demoCommands nimStart [] = Done st' tr' /\
    List.filter isWrite tr' = [EvWrite SiteMove S1 "1" true] /\
    over st' = false.
Proof.
  eexists _, _. split; [vm_compute; reflexivity|].
  destruct (turn_forwards_to_opponent (GS := nimState) (G := nimGame)
              calmWorld demoCommands nimStart _ [] _ S0
              ltac:(vm_compute; reflexivity) eq_refl) as (ws & Hws & Hcases & _).
  split; [reflexivity|].
  destruct Hcases as [->|(q & line & ok & _ & _ & _ & _ & Hover)];
    [discriminate Hws|exact Hover].
Defined.

Lemma turn_reports_failures_witness :
  exists st' tr',
    turn deafWorld demoCommands nimSecondTurn [] = Done st' tr' /\
    failed (result st') = (false, true) /\
    List.filter isDiag tr' = [EvDiag (FailedToRead "b")].
Proof.
  eexists _, _. split; [vm_compute; reflexivity|].
  destruct (turn_reports_failures (GS := nimState) (G := nimGame)
              deafWorld demoCommands nimSecondTurn _ [] _
              ltac:(vm_compute; reflexivity)) as [[Hsame _]|(q & d & _ & _ & Hdiag)].
  - vm_compute in Hsame. discriminate Hsame.
  - split; reflexivity.
Defined.

Lemma failed_player_left_alone_witness :
  exists st' tr',
    loop calmWorld 10 demoCommands nimFailedSecond [] = Done st' tr' /\
    List.filter (isExchange S1) tr' = [] /\
    get S1 (time (result st')) = 0%float.
Proof.
  eexists _, _. split; [vm_compute; reflexivity|].
  destruct (failed_player_left_alone (GS := nimState) (G := nimGame)
              calmWorld 10 demoCommands nimFailedSecond _ [] _ S1
              ltac:(intros []; cbn; auto) eq_refl ltac:(vm_compute; reflexivity))
    as (Htrace & Htime & _).
  split; [exact Htrace|exact Htime].
Defined.

Lemma match_time_is_read_time_witness :
  exists r tr',
    runMatch calmWorld 10 (0, 1) demoCommands "" ("", "") [] = Done r tr' /\
    get S0 (time r) = fold_left (tick S0) tr' 0%float.
Proof.
  eexists _, _. split; [vm_compute; reflexivity|].
  destruct (match_time_is_read_time (GS := nimState) (G := nimGame)
              calmWorld 10 (0, 1) demoCommands "" ("", "") [] _ _
              ltac:(vm_compute; reflexivity)) as (d & Hd & Htime).
  simpl in Hd. subst d. apply Htime.
Defined.

Lemma match_panics_only_at_quit_witness :
  exists tr',
    runMatch calmWorld 10 (0, 1) ("", "b") "" ("", "") [] = Panic nilDeref tr'.
Proof.
  destruct (runMatch calmWorld 10 (0, 1) ("", "b") "" ("", "") [])
    as [r tr'|msg tr'|tr'] eqn:Hrun; try (vm_compute in Hrun; discriminate Hrun).
  destruct (proj1 (match_panics_only_at_quit (GS := nimState) (G := nimGame)
                     calmWorld 10 (0, 1) ("", "b") "" ("", "") []) msg tr' Hrun)
    as [-> _].
  exists tr'. reflexivity.
Defined.

Lemma returned_match_releases_once_witness :
  exists r tr' ok,
    runMatch calmWorld 10 (0, 1) demoCommands "" ("", "") [] = Done r tr' /\
    List.filter (isRelease S1) tr' =
      [EvWrite SiteQuit S1 "Quit" ok; EvClose S1; EvWait S1].
Proof.
  destruct (returned_match_releases_once (GS := nimState) (G := nimGame)
              calmWorld 10 (0, 1) demoCommands "" ("", "") [] _ _ S1
              ltac:(vm_compute; reflexivity)) as (ok & Hrel).
  eexists _, _, ok. split; [vm_compute; reflexivity|exact Hrel].
Defined.

Lemma standings_tallies_witness :
  exists s,
    aggregate demoResults (newStandings 2) = Some s /\
    index (totalPoints s) 0 = Some 4 /\ index (gamesWon s) 0 = Some 1 /\
    index (gamesTied s) 0 = Some 1 /\ index (gamesLost s) 0 = Some 1 /\
    index (gamesFailed s) 1 = Some 1.
Proof.
  eexists. split; [vm_compute; reflexivity|].
  destruct (standings_tallies demoResults 2 _ 0 ltac:(vm_compute; reflexivity)
              ltac:(simpl; lia)) as (Htp & Hgw & Hgt & Hgl & _).
  rewrite Htp, Hgw, Hgt, Hgl. repeat split; reflexivity.
Defined.

Lemma games_accounted_witness :
  exists s gw gt gl,
    aggregate demoResults (newStandings 2) = Some s /\
    index (gamesWon s) 1 = Some gw /\ index (gamesTied s) 1 = Some gt /\
    index (gamesLost s) 1 = Some gl /\ gw + gt + gl = 3.
Proof.
  destruct (games_accounted demoResults 2 _ 1 ltac:(vm_compute; reflexivity)
              ltac:(simpl; lia) ltac:(vm_compute; discriminate))
    as (gw & gt & gl & gf & Hgw & Hgt & Hgl & _ & _ & _ & _ & _ & Hsum).
  eexists _, gw, gt, gl. split; [vm_compute; reflexivity|].
  split; [exact Hgw|]. split; [exact Hgt|]. split; [exact Hgl|exact Hsum].
Defined.

Lemma winLoss_counts_wins_witness :
  exists s row,
    aggregate demoResults (newStandings 2) = Some s /\
    index (winLoss s) 1 = Some row /\ sumZ row = 1 /\ index (gamesWon s) 1 = Some 1.
Proof.
  destruct (winLoss_counts_wins demoResults 2 _ 1 ltac:(vm_compute; reflexivity)
              ltac:(simpl; lia) ltac:(vm_compute; discriminate))
    as (row & gw & Hrow & Hgw & _ & _ & Hsum).
  eexists _, row. split; [vm_compute; reflexivity|].
  split; [exact Hrow|]. vm_compute in Hgw. injection Hgw as <-.
  split; [exact Hsum|reflexivity].
Defined.

Lemma wins_equal_losses_witness :
  exists s,
    aggregate demoResults (newStandings 2) = Some s /\
    sumZ (gamesWon s) = 2 /\ sumZ (gamesLost s) = 2.
Proof.
  eexists. split; [vm_compute; reflexivity|].
  pose proof (wins_equal_losses demoResults 2 _ ltac:(vm_compute; reflexivity)
                ltac:(vm_compute; discriminate)) as Heq.
  split; [reflexivity|]. rewrite <- Heq. reflexivity.
Defined.

Lemma main_panics_only_at_quit_witness :
  exists tr', main calmWorld noFlags 10 1 false ["a"; ""] [] = Panic nilDeref tr'.
Proof.
  destruct (main calmWorld noFlags 10 1 false ["a"; ""] [])
    as [out tr'|msg tr'|tr'] eqn:Hrun; try (vm_compute in Hrun; discriminate Hrun).
  destruct (main_panics_only_at_quit (GS := nimState) (G := nimGame)
              calmWorld noFlags 10 1 false ["a"; ""] [] msg tr'
              ltac:(vm_compute; discriminate) Hrun)
    as [-> | (_ & [(_ & Hbig) | (_ & _ & Hmem)])].
  - exists tr'. reflexivity.
  - vm_compute in Hbig. discriminate Hbig.
  - discriminate Hmem.
Defined.

Lemma matrix_shape_witness :
  exists rows m,
    verboseResults (newStandings 3) 4 threePlayers = Some (Verbose rows (Some m)) /\
    length m = 3%nat.
Proof.
  eexists _, _. split; [vm_compute; reflexivity|].
  destruct (matrix_shape (newStandings 3) 4 threePlayers _ _ eq_refl
              ltac:(vm_compute; reflexivity)) as (_ & Hm).
  destruct (Hm _ eq_refl) as (Hlen & _). exact Hlen.
Defined.

Lemma verdict_matches_points_witness :
  exists r tr',
    runMatch calmWorld 10 (0, 1) demoCommands "" ("", "") [] = Done r tr' /\
    logVerdict r = "Player 1 won!" /\ points r = (2, 1).
Proof.
  eexists _, _. split; [vm_compute; reflexivity|].
  destruct (verdict_matches_points (GS := nimState) (G := nimGame)
              calmWorld 10 (0, 1) demoCommands "" ("", "") [] _ _
              ltac:(vm_compute; reflexivity) eq_refl) as (Hfirst & _).
  split; [reflexivity|]. apply Hfirst. reflexivity.
Defined.

Lemma tournament_files_and_processes_witness :
  exists results d,
    runTournament calmWorld keptFlags 10 demoPlayers2 1 false [] = Done results d /\
    createdPaths d = ["msg/0001.1.log"; "msg/0001.2.log"; "log/0001.log";
                      "msg/0002.1.log"; "msg/0002.2.log"; "log/0002.log"] /\
    length (List.filter isStart d) = 4%nat /\
    length (List.filter isWait d) = 4%nat.
Proof.
  destruct (runTournament calmWorld keptFlags 10 demoPlayers2 1 false [])
    as [results tr'|msg tr'|tr'] eqn:Hrun; try (vm_compute in Hrun; discriminate Hrun).
  destruct (tournament_files_and_processes (GS := nimState) (G := nimGame)
              calmWorld keptFlags 10 demoPlayers2 1 [] results tr'
              ltac:(lia) Hrun) as (d & Hd & Hfiles & _ & Hstart & Hwait).
  cbn [app] in Hd. subst d.
  assert (Hlen : length results = 2%nat)
    by (vm_compute in Hrun; injection Hrun as <- _; reflexivity).
  rewrite Hlen in *.
  exists results, tr'. split; [reflexivity|]. split; [|split; assumption].
  rewrite Hfiles. vm_compute. reflexivity.
Defined.
